(** * Handshake: chat engine over untrusted stores

    A shallow embedding of the Go sources (crypto.go, chat.go, session.go,
    storage_hashmap.go) and the properties of the specification that concern
    the cipher, the lookup table, the chat log, the rendezvous freshness
    check and the session's send / retrieve protocol.

    Conventions of the embedding:
    - a Go [int] / [int64] is a [Z]; where the source can overflow the
      wrap-around is written out ([int64_wrap], [uint32]);
    - a [[]byte] is a [list byte], a Go [string] is a [string];
    - a Go map is a [gmap]; iteration order over a map is supplied by the
      environment ([range_order]);
    - a Go function returning [(T, error)] returns a [result T]; a run-time
      panic and a loop that never exits are outcomes of their own;
    - everything outside the repository (crypto/rand, time, argon2,
      nacl/secretbox, encoding/json, the network, the local key-value
      store's write path) is a field of the environment record [Env]. *)

From Stdlib Require Import ZArith Lia String Ascii DecimalString.
From Stdlib.Strings Require Import Byte.
From Stdlib Require Import Sorting.Permutation.
From Stdlib Require Sorting.Sorted.
From stdpp Require Import gmap strings list.

Local Open Scope Z_scope.

(* ===================================================================== *)
(** * Part I: the model *)
(* ===================================================================== *)

(** ** Outcomes of a Go call *)

Inductive result (A : Type) : Type :=
| Ok (a : A)            (* returned normally, [err == nil] *)
| Err (msg : string)    (* returned a non-nil [error] *)
| Panic (msg : string)  (* run-time panic *)
| Diverge.              (* the loop never exits *)
Arguments Ok {A} a.
Arguments Err {A} msg.
Arguments Panic {A} msg.
Arguments Diverge {A}.

Definition rbind {A B} (r : result A) (k : A -> result B) : result B :=
  match r with
  | Ok a => k a
  | Err m => Err m
  | Panic m => Panic m
  | Diverge => Diverge
  end.

Definition is_Err {A} (r : result A) : bool :=
  match r with Err _ => true | _ => false end.

Definition is_Panic {A} (r : result A) : bool :=
  match r with Panic _ => true | _ => false end.

(** ** Machine integers *)

Definition min_int64 : Z := - 2 ^ 63.
Definition max_int64 : Z := 2 ^ 63 - 1.
Definition in_int64 (z : Z) : Prop := min_int64 <= z <= max_int64.

(** Two's complement wrap-around of a 64-bit signed result. *)
Definition int64_wrap (z : Z) : Z := (z + 2 ^ 63) mod 2 ^ 64 - 2 ^ 63.
Definition int64_add (a b : Z) : Z := int64_wrap (a + b).
Definition int64_mul (a b : Z) : Z := int64_wrap (a * b).

(** The conversion [uint32(x)]. *)
Definition uint32 (z : Z) : Z := z mod 2 ^ 32.

(** ** Bytes, slices and strings *)

Definition byte_of_Z (z : Z) : byte :=
  match Byte.of_N (Z.to_N (z mod 256)) with
  | Some b => b
  | None => x00
  end.

Definition Z_of_byte (b : byte) : Z := Z.of_N (Byte.to_N b).

(** [len(x)] as a Go [int]. *)
Definition len {A} (l : list A) : Z := Z.of_nat (length l).

(** The slice expression [s[lo:hi]].  The capacity of a slice is taken to be
    its length, so the expression panics as soon as an index leaves the
    slice. *)
Definition go_slice {A} (s : list A) (lo hi : Z) : result (list A) :=
  if (0 <=? lo) && (lo <=? hi) && (hi <=? len s)
  then Ok (take (Z.to_nat (hi - lo)) (drop (Z.to_nat lo) s))
  else Panic "slice bounds out of range".

(** [copy(dst, src)]: the first [min(len(dst), len(src))] bytes of [dst] are
    overwritten. *)
Definition go_copy (dst src : list byte) : list byte :=
  take (length dst) src ++ drop (length src) dst.

(** [var a [n]byte; copy(a[:], src)]: a zeroed array of [n] bytes filled
    from [src]. *)
Definition copy_into (n : nat) (src : list byte) : list byte :=
  go_copy (repeat x00 n) src.

(** [binary.LittleEndian.PutUint64] *)
Definition LittleEndian_PutUint64 (v : Z) : list byte :=
  map (fun j => byte_of_Z (v / 256 ^ j)) [0; 1; 2; 3; 4; 5; 6; 7].

(** [fmt.Sprintf("%v", z)] of an integer. *)
Definition fmt_int (z : Z) : string := NilZero.string_of_int (Z.to_int z).

(** [strings.HasPrefix] and [strings.Contains]. *)
Fixpoint strings_HasPrefix (s p : string) : bool :=
  match p, s with
  | EmptyString, _ => true
  | String _ _, EmptyString => false
  | String a p', String b s' => if Ascii.eqb a b then strings_HasPrefix s' p' else false
  end.

Fixpoint strings_Contains (s substr : string) : bool :=
  strings_HasPrefix s substr ||
  match s with
  | EmptyString => false
  | String _ s' => strings_Contains s' substr
  end.

(** [base64.StdEncoding.EncodeToString]: RFC 4648 alphabet, [=] padding. *)
Definition base64_alphabet : list ascii :=
  list_ascii_of_string
    "ABCDEFGHIJKLMNOPQRSTUVWXYZabcdefghijklmnopqrstuvwxyz0123456789+/".

Definition base64_char (sextet : Z) : ascii :=
  nth (Z.to_nat sextet) base64_alphabet "="%char.

Definition sextet1 (a : byte) : Z := Z_of_byte a / 4.
Definition sextet2 (a b : byte) : Z := (Z_of_byte a mod 4) * 16 + Z_of_byte b / 16.
Definition sextet3 (b c : byte) : Z := (Z_of_byte b mod 16) * 4 + Z_of_byte c / 64.
Definition sextet4 (c : byte) : Z := Z_of_byte c mod 64.

Fixpoint base64_EncodeToString (src : list byte) : string :=
  match src with
  | [] => EmptyString
  | [a] =>
      String (base64_char (sextet1 a)) (String (base64_char (sextet2 a x00))
        (String "="%char (String "="%char EmptyString)))
  | [a; b] =>
      String (base64_char (sextet1 a)) (String (base64_char (sextet2 a b))
        (String (base64_char (sextet3 b x00)) (String "="%char EmptyString)))
  | a :: b :: c :: rest =>
      String (base64_char (sextet1 a)) (String (base64_char (sextet2 a b))
        (String (base64_char (sextet3 b c)) (String (base64_char (sextet4 c))
          (base64_EncodeToString rest))))
  end.

(** [sort.Strings]: ascending byte-wise order (insertion sort). *)
Fixpoint insert_sorted (k : string) (l : list string) : list string :=
  match l with
  | [] => [k]
  | x :: l' => if String.leb k x then k :: l else x :: insert_sorted k l'
  end.

Definition sort_Strings (l : list string) : list string :=
  foldr insert_sorted [] l.

(* --------------------------------------------------------------------- *)
(** ** storage_hashmap.go: the rendezvous backend's high-water mark *)

Inductive consensusRule :=
| firstSuccess | redundantPairSuccess | majoritySuccess | unanimousSuccess.

Record node := { URL : string }.

Record hashmapStorage := {
  hm_ReadNodes : list node;
  hm_WriteNodes : list node;
  hm_ReadRule : consensusRule;
  hm_WriteRule : consensusRule;
  Latest : Z
}.

Definition set_Latest (s : hashmapStorage) (ts : Z) : hashmapStorage :=
  {| hm_ReadNodes := hm_ReadNodes s; hm_WriteNodes := hm_WriteNodes s;
     hm_ReadRule := hm_ReadRule s; hm_WriteRule := hm_WriteRule s;
     Latest := ts |}.

(** [updateLatest]; [now] is the reading of [time.Now().UnixNano()]. *)
Definition updateLatest (now : Z) (s : hashmapStorage) (timeStamp : Z)
  : result unit * hashmapStorage :=
  if timeStamp >? int64_add now (5 * 1000000000) then
    (Err "invalid future timestamp", s)
  else if Latest s >? timeStamp then
    (Err "stale timestamp", s)
  else
    (Ok tt, set_Latest s timeStamp).

(* --------------------------------------------------------------------- *)
(** ** chat.go: lookup tables and the chat log *)

Definition maxMessageSize : Z := 250000.
Definition defaultChatTTL : Z := 604800.

(** [type lookup map[string][]byte] *)
Abbreviation lookup := (gmap string (list byte)).

Record chatData := {
  cd_Parent : string;
  cd_Timestamp : Z;
  cd_Media : list string;
  cd_Message : string;
  cd_TTL : Z
}.

Record ChatLogEntry := {
  ID : string;
  Sender : string;
  Sent : Z;
  Received : Z;
  TTL : Z;
  Data : chatData
}.

(** [type ChatLog map[string]ChatLogEntry] (an initialised map). *)
Abbreviation ChatLog := (gmap string ChatLogEntry).

(** [lookup.get]: the value of an absent key is the nil slice. *)
Definition lookup_get (l : lookup) (key : string) : list byte :=
  match l !! key with
  | Some v => v
  | None => []
  end.

(** [lookup.popKey]: the value and the table after [delete]. *)
Definition popKey (l : lookup) (key : string) : list byte * lookup :=
  let v := lookup_get l key in
  (v, delete key l).

(** The key under which [AddEntry] files an entry. *)
Definition entry_key (timestamp : Z) (id : string) : string :=
  fmt_int timestamp +:+ "-" +:+ id.

(** [ChatLog.AddEntry]: the error and the log after the call. *)
Definition AddEntry (cl : ChatLog) (entry : ChatLogEntry) : result unit * ChatLog :=
  if (Sent entry =? 0) && (Received entry =? 0) then
    (Err "no valid timestamp found", cl)
  else
    let timestamp := Sent entry in
    let timestamp := if timestamp =? 0 then Received entry else timestamp in
    let key := entry_key timestamp (ID entry) in
    (Ok tt, <[key := entry]> cl).

(** [ChatLog.HashInLog]: the loop returns at the first key that contains
    [hash], so its answer does not depend on the iteration order. *)
Definition HashInLog (cl : ChatLog) (hash : string) : bool :=
  existsb (fun kv => strings_Contains (fst kv) hash) (map_to_list cl).

(** [ChatLog.Sorted] *)
Definition Sorted (cl : ChatLog) : list ChatLogEntry :=
  let keys := sort_Strings (map fst (map_to_list cl)) in
  omap (fun k => cl !! k) keys.

(* --------------------------------------------------------------------- *)
(** ** The environment: everything the repository imports or talks to *)

(** What one read node of a rendezvous backend answers
    ([hashmapStorage.getFirstSuccess]). *)
Inductive node_outcome :=
| NodeRejected (msg : string)
    (* the URL does not parse or does not end in a supported multihash, or
       the payload's public key, hash or data is invalid: the read fails *)
| NodeUnreachable
    (* [http.Get] or the payload parser failed: the next node is tried *)
| NodePayload (timestamp : Z) (message : result (list byte)).
    (* a verified payload: its timestamp and [data.MessageBytes()] *)

Record Env := {
  (* crypto/rand: the bytes and the integer of the [d]-th draw *)
  rand_Read : nat -> nat -> list byte;
  rand_Int : nat -> Z -> Z;
  (* time.Now().UnixNano() *)
  time_Now_UnixNano : Z;
  (* golang.org/x/crypto/argon2 and nacl/secretbox *)
  argon2_IDKey : list byte -> list byte -> Z -> Z -> Z -> Z -> list byte;
  secretbox_Seal : list byte -> list byte -> list byte -> list byte;
  secretbox_Open : list byte -> list byte -> list byte -> option (list byte);
  (* encoding/json and base64.StdEncoding.DecodeString *)
  json_Unmarshal : list byte -> result chatData;
  json_Marshal : chatData -> result (list byte);
  json_Marshal_entries : list ChatLogEntry -> result (list byte);
  base64_DecodeString : string -> result (list byte);
  (* the order in which [range] visits the keys of a map *)
  range_order : list string -> list string;
  (* the network: rendezvous read and write nodes, blob nodes *)
  hashmap_fetch : string -> node_outcome;
  hashmap_post : string -> list byte -> bool;
  ipfs_cat : string -> string -> result (list byte);
  ipfs_add : string -> list byte -> result string;
  (* the local key-value store: the error of a write to a key, if any *)
  kv_Set_error : string -> option string
}.

(** What the embedding assumes of NaCl's secretbox: a box is 16 bytes
    ([secretbox.Overhead]) longer than its message, and opening a sealed box
    with the same nonce and key gives the message back. *)
Definition secretbox_laws (E : Env) : Prop :=
  (forall m n k, length (secretbox_Seal E m n k) = (length m + 16)%nat) /\
  (forall m n k, secretbox_Open E (secretbox_Seal E m n k) n k = Some m).

(* --------------------------------------------------------------------- *)
(** ** crypto.go *)

Definition secretBoxDefaultChunkSize : Z := 16000.
Definition secretBoxDecryptionOffset : Z := 40.
Definition secretBoxNonceLength : Z := 24.
Definition secretBoxKeyLength : Z := 32.
Definition lookupHashLength : Z := 24.

(** [NonceType] and [CipherType] are Go [int]s. *)
Definition RandomNonce : Z := 0.
Definition TimeSeriesNonce : Z := 1.
Definition SecretBox : Z := 0.

Record SecretBoxCipher := {
  Nonce : Z;
  ChunkSize : Z
}.

Definition newDefaultSBCipher : SecretBoxCipher :=
  {| Nonce := RandomNonce; ChunkSize := secretBoxDefaultChunkSize |}.

Definition newTimeSeriesSBCipher : SecretBoxCipher :=
  {| Nonce := TimeSeriesNonce; ChunkSize := secretBoxDefaultChunkSize |}.

Section Crypto.
Context (E : Env).

(** [genRandBytes]: [d] counts the draws made from crypto/rand so far. *)
Definition genRandBytes (l : Z) (d : nat) : list byte * nat :=
  (go_copy (repeat x00 (Z.to_nat l)) (rand_Read E d (Z.to_nat l)), S d).

(** [genTimeStampNonce] *)
Definition genTimeStampNonce (l : Z) (d : nat) : list byte * nat :=
  let '(nonce, d') := genRandBytes l d in
  let unix := time_Now_UnixNano E / 1000000000 in
  let timeBytes := LittleEndian_PutUint64 (unix mod 2 ^ 64) in
  (go_copy nonce (take 4 timeBytes), d').

(** [SecretBoxCipher.genNonce] *)
Definition genNonce (s : SecretBoxCipher) (d : nat) : list byte * nat :=
  if Nonce s =? RandomNonce then genRandBytes secretBoxNonceLength d
  else if Nonce s =? TimeSeriesNonce then genTimeStampNonce secretBoxNonceLength d
  else genRandBytes secretBoxNonceLength d.

(** The chunk [data[i:i+chunkSize]], or [data[i:]] when fewer than
    [chunkSize] bytes are left. *)
Definition next_chunk (data : list byte) (i chunkSize : Z) : result (list byte) :=
  let rest := drop (Z.to_nat i) data in
  if len rest >=? chunkSize then go_slice data i (i + chunkSize) else Ok rest.

(** The loop of [SecretBoxCipher.Encrypt].  [fuel] bounds the number of
    iterations; the index cannot overflow, it stays below twice the length
    of [data]. *)
Fixpoint Encrypt_loop (fuel : nat) (s : SecretBoxCipher) (data k : list byte)
  (i : Z) (encryptedData : list byte) (d : nat) : result (list byte) * nat :=
  if i <? len data then
    match fuel with
    | O => (Diverge, d)
    | S fuel' =>
        match next_chunk data i (ChunkSize s) with
        | Ok chunk =>
            let '(nonce, d') := genNonce s d in
            let n := copy_into 24 nonce in
            let encryptedChunk := n ++ secretbox_Seal E chunk n k in
            Encrypt_loop fuel' s data k (i + ChunkSize s)
              (encryptedData ++ encryptedChunk) d'
        | Err m => (Err m, d)
        | Panic m => (Panic m, d)
        | Diverge => (Diverge, d)
        end
    end
  else (Ok encryptedData, d).

(** [SecretBoxCipher.Encrypt].  A positive chunk size needs at most
    [len(data)] iterations; with a chunk size of zero the loop never
    advances. *)
Definition Encrypt (s : SecretBoxCipher) (data key : list byte) (d : nat)
  : result (list byte) * nat :=
  if negb (len key =? secretBoxKeyLength) then (Err "invalid key length", d)
  else
    let k := copy_into 32 key in
    Encrypt_loop (length data) s data k 0 [] d.

(** The loop of [SecretBoxCipher.Decrypt]. *)
Fixpoint Decrypt_loop (fuel : nat) (s : SecretBoxCipher) (data k : list byte)
  (i : Z) (decryptedData : list byte) : result (list byte) :=
  if i <? len data then
    match fuel with
    | O => Diverge
    | S fuel' =>
        let chunkSize := ChunkSize s + secretBoxDecryptionOffset in
        rbind (next_chunk data i chunkSize) (fun chunk =>
        rbind (go_slice chunk 0 secretBoxNonceLength) (fun nonce =>
        rbind (go_slice chunk secretBoxNonceLength (len chunk)) (fun box =>
        let n := copy_into 24 nonce in
        match secretbox_Open E box n k with
        | None => Err "decrypt failed"
        | Some decryptedChunk =>
            Decrypt_loop fuel' s data k (i + chunkSize)
              (decryptedData ++ decryptedChunk)
        end)))
    end
  else Ok decryptedData.

(** [SecretBoxCipher.Decrypt] *)
Definition Decrypt (s : SecretBoxCipher) (data key : list byte) : result (list byte) :=
  if negb (len key =? secretBoxKeyLength) then Err "invalid key length"
  else
    let k := copy_into 32 key in
    Decrypt_loop (length data) s data k 0 [].

(** [argon2.IDKey] returns a slice of exactly [keyLen] bytes. *)
Definition IDKey (password salt : list byte) (time memory threads keyLen : Z)
  : list byte :=
  go_copy (repeat x00 (Z.to_nat keyLen))
          (argon2_IDKey E password salt time memory threads keyLen).

(** The body of the loop [for i := 1; i < count; i++] of [genLookups], run
    [n] more times from index [i]. *)
Fixpoint genLookups_loop (n : nat) (i : Z) (lookupBytes keyBytes : list byte)
  (keyLength : Z) (lookups : lookup) : result lookup :=
  match n with
  | O => Ok lookups
  | S n' =>
      let lookupStart := (i - 1) * lookupHashLength in
      let lookupEnd := i * lookupHashLength in
      let keyStart := (i - 1) * keyLength in
      let keyEnd := i * keyLength in
      rbind (go_slice lookupBytes lookupStart lookupEnd) (fun tag =>
      let k := base64_EncodeToString tag in
      rbind (go_slice keyBytes keyStart keyEnd) (fun v =>
      genLookups_loop n' (i + 1) lookupBytes keyBytes keyLength (<[k := v]> lookups)))
  end.

(** [genLookups]; [pepper] is a [[64]byte], [entropy] a [[96]byte], [count]
    a 64-bit [int]. *)
Definition genLookups (pepper entropy : list byte) (cipherType : Z) (count : Z)
  : result lookup :=
  if count <? 1 then Err "count must be greater than or equal to 1"
  else
    let p := pepper in
    let e1 := take 32 entropy in
    let e2 := take 32 (drop 32 entropy) in
    let e3 := drop 64 entropy in
    if cipherType =? SecretBox then
      let keyLength := secretBoxKeyLength in
      let lookupBytes :=
        IDKey p e2 1 (64 * 1024) 4 (uint32 (int64_mul count lookupHashLength)) in
      let keyBytes :=
        IDKey e1 e3 1 (64 * 1024) 4 (uint32 (int64_mul count keyLength)) in
      genLookups_loop (Z.to_nat (count - 1)) 1 lookupBytes keyBytes keyLength ∅
    else
      Err ("cipher type " +:+ fmt_int cipherType +:+
           " is not implemented for lookup generation").

End Crypto.

(* --------------------------------------------------------------------- *)
(** ** storage.go, storage_hashmap.go, storage_ipfs.go: the peer backends *)

Record ipfsStorage := {
  ipfs_ReadNodes : list node;
  ipfs_WriteNodes : list node;
  ipfs_ReadRule : consensusRule;
  ipfs_WriteRule : consensusRule
}.

(** The engines a strategy can be built from
    ([newStorageFromConfig]); a hashmap engine is held by pointer, so a read
    that advances [Latest] is seen by the holder. *)
Inductive storage :=
| HashmapEngine (s : hashmapStorage)
| IPFSEngine (s : ipfsStorage).

Section Backends.
Context (E : Env).

(** [hashmapStorage.getFirstSuccess] over the remaining read nodes. *)
Fixpoint hashmap_getFirstSuccess (nodes : list node) (s : hashmapStorage)
  : result (list byte) * hashmapStorage :=
  match nodes with
  | [] => (Err "no servers available", s)
  | n :: nodes' =>
      match hashmap_fetch E (URL n) with
      | NodeRejected msg => (Err msg, s)
      | NodeUnreachable => hashmap_getFirstSuccess nodes' s
      | NodePayload timestamp message =>
          match updateLatest (time_Now_UnixNano E) s timestamp with
          | (Ok _, s') => (message, s')
          | (Err m, s') => (Err m, s')
          | (Panic m, s') => (Panic m, s')
          | (Diverge, s') => (Diverge, s')
          end
      end
  end.

(** [hashmapStorage.Get] *)
Definition hashmap_Get (s : hashmapStorage) : result (list byte) * hashmapStorage :=
  if len (hm_ReadNodes s) <? 1 then (Err "no read nodes configured", s)
  else
    match hm_ReadRule s with
    | firstSuccess => hashmap_getFirstSuccess (hm_ReadNodes s) s
    | _ => (Err "This readRule is not yet implemented", s)
    end.

(** [hashmapStorage.setFirstSuccess] and [hashmapStorage.Set]; the signed
    envelope is built by the [hashmap] library and is part of what
    [hashmap_post] sends. *)
Fixpoint hashmap_setFirstSuccess (nodes : list node) (payload : list byte)
  : result unit :=
  match nodes with
  | [] => Err "no servers available"
  | n :: nodes' =>
      if hashmap_post E (URL n) payload then Ok tt
      else hashmap_setFirstSuccess nodes' payload
  end.

Definition hashmap_Set (s : hashmapStorage) (key : string) (value : list byte)
  : result string :=
  if len (hm_WriteNodes s) <? 1 then Err "no write nodes configured"
  else
    match hm_WriteRule s with
    | firstSuccess =>
        rbind (hashmap_setFirstSuccess (hm_WriteNodes s) value) (fun _ => Ok key)
    | _ => Err "This writeRule is not yet implemented"
    end.

(** [ipfsStorage.getFirstSuccess] and [ipfsStorage.Get] *)
Fixpoint ipfs_getFirstSuccess (nodes : list node) (hash : string)
  : result (list byte) :=
  match nodes with
  | [] => Err "no servers available"
  | n :: nodes' =>
      match ipfs_cat E (URL n) hash with
      | Err _ => ipfs_getFirstSuccess nodes' hash
      | r => r
      end
  end.

Definition ipfs_Get (s : ipfsStorage) (key : string) : result (list byte) :=
  if len (ipfs_ReadNodes s) <? 1 then Err "no read nodes configured"
  else
    match ipfs_ReadRule s with
    | firstSuccess => ipfs_getFirstSuccess (ipfs_ReadNodes s) key
    | _ => Err "This readRule is not yet implemented"
    end.

(** [ipfsStorage.setFirstSuccess] and [ipfsStorage.Set] *)
Fixpoint ipfs_setFirstSuccess (nodes : list node) (body : list byte)
  : result string :=
  match nodes with
  | [] => Err "no servers available"
  | n :: nodes' =>
      match ipfs_add E (URL n) body with
      | Err _ => ipfs_setFirstSuccess nodes' body
      | r => r
      end
  end.

Definition ipfs_Set (s : ipfsStorage) (value : list byte) : result string :=
  if len (ipfs_WriteNodes s) <? 1 then Err "no write nodes configured"
  else
    match ipfs_WriteRule s with
    | firstSuccess => ipfs_setFirstSuccess (ipfs_WriteNodes s) value
    | _ => Err "This writeRule is not yet implemented"
    end.

(** The [storage] interface: [Get] and [Set] by dynamic dispatch. *)
Definition storage_Get (s : storage) (key : string) : result (list byte) * storage :=
  match s with
  | HashmapEngine h => let '(r, h') := hashmap_Get h in (r, HashmapEngine h')
  | IPFSEngine i => (ipfs_Get i key, s)
  end.

Definition storage_Set (s : storage) (key : string) (value : list byte)
  : result string :=
  match s with
  | HashmapEngine h => hashmap_Set h key value
  | IPFSEngine i => ipfs_Set i value
  end.

End Backends.

(* --------------------------------------------------------------------- *)
(** ** strategy.go, chat.go: strategies, peers and chats *)

Record strategy := {
  Rendezvous : storage;
  Storage : storage;
  Cipher : SecretBoxCipher
}.

Record chatPeer := {
  peer_ID : string;
  Alias : string;
  Strategy : strategy
}.

Record chatSettings := { MaxTTL : Z }.

Record chat := {
  chat_ID : string;
  PeerID : string;
  LastSent : string;
  Peers : gmap string chatPeer;
  Settings : chatSettings
}.

(** [chat.TTL] *)
Definition chat_TTL (c : chat) : Z :=
  if MaxTTL (Settings c) <=? 0 then defaultChatTTL else MaxTTL (Settings c).

Definition set_LastSent (c : chat) (hash : string) : chat :=
  {| chat_ID := chat_ID c; PeerID := PeerID c; LastSent := hash;
     Peers := Peers c; Settings := Settings c |}.

Definition set_Rendezvous (p : chatPeer) (r : storage) : chatPeer :=
  {| peer_ID := peer_ID p; Alias := Alias p;
     Strategy := {| Rendezvous := r; Storage := Storage (Strategy p);
                    Cipher := Cipher (Strategy p) |} |}.

Definition set_Storage (p : chatPeer) (r : storage) : chatPeer :=
  {| peer_ID := peer_ID p; Alias := Alias p;
     Strategy := {| Rendezvous := Rendezvous (Strategy p); Storage := r;
                    Cipher := Cipher (Strategy p) |} |}.

Definition set_Peer (c : chat) (peerID : string) (p : chatPeer) : chat :=
  {| chat_ID := chat_ID c; PeerID := PeerID c; LastSent := LastSent c;
     Peers := <[peerID := p]> (Peers c); Settings := Settings c |}.

(** A chat is stored as its [chatConfig] and rebuilt by
    [chatConfig.Chat]: [SecretBoxCipher.export] writes the default chunk
    size and [newCipherFromConfig] sets a random nonce, the storage engines
    keep their nodes, rules and [Latest]. *)
Definition exported_peer (p : chatPeer) : chatPeer :=
  {| peer_ID := peer_ID p; Alias := Alias p;
     Strategy := {| Rendezvous := Rendezvous (Strategy p);
                    Storage := Storage (Strategy p);
                    Cipher := {| Nonce := RandomNonce;
                                 ChunkSize := secretBoxDefaultChunkSize |} |} |}.

Definition exported_chat (c : chat) : chat :=
  {| chat_ID := chat_ID c; PeerID := PeerID c; LastSent := LastSent c;
     Peers := exported_peer <$> Peers c; Settings := Settings c |}.

(* --------------------------------------------------------------------- *)
(** ** session.go *)

(** What the local key-value store holds under a key.  The store keeps
    [Encrypt(gob(x), profile.Key)]; the embedding keeps [x], since
    [Session.get] undoes [Session.set] (gob decoding undoes gob encoding and
    [Decrypt] undoes [Encrypt], see the section on the chunked cipher
    below). *)
Inductive stored :=
| StoredChat (c : chat)
| StoredLookup (l : lookup)
| StoredChatLog (cl : ChatLog).

(** The calls a session makes to the backends of a strategy. *)
Inductive event :=
| EvRendezvousGet (peerID : string)
| EvStorageGet (peerID hash : string)
| EvStorageSet (peerID : string) (payload : list byte)
| EvRendezvousSet (peerID : string) (payload : list byte).

(** The state a session operation runs in: the local store, the number of
    draws made from crypto/rand, and the backend calls made so far (latest
    first). *)
Record World := {
  kv : gmap string stored;
  draws : nat;
  trace : list event
}.

Record Session := { profile_ID : string }.

Definition M (A : Type) : Type := World -> result A * World.

Definition ret {A} (a : A) : M A := fun w => (Ok a, w).
Definition fail {A} (msg : string) : M A := fun w => (Err msg, w).
Definition lift {A} (r : result A) : M A := fun w => (r, w).

(** Run [m]; on success continue with [k], on a returned error with
    [on_err]; a panic or a loop that never exits ends the operation. *)
Definition try {A B} (m : M A) (on_err : string -> M B) (k : A -> M B) : M B :=
  fun w =>
    match m w with
    | (Ok a, w') => k a w'
    | (Err e, w') => on_err e w'
    | (Panic p, w') => (Panic p, w')
    | (Diverge, w') => (Diverge, w')
    end.

Definition bind {A B} (m : M A) (k : A -> M B) : M B := try m fail k.

Notation "'let*' x ':=' m 'in' k" := (bind m (fun x => k))
  (at level 10, x pattern, m at level 100, k at level 200).

Definition emit (e : event) : M unit :=
  fun w => (Ok tt, {| kv := kv w; draws := draws w; trace := e :: trace w |}).

Section SessionOps.
Context (E : Env) (S : Session).

(** The key paths of the local store. *)
Definition chat_key (chatID : string) : string :=
  "chats/" +:+ chatID +:+ "/" +:+ profile_ID S +:+ "/config".
Definition lookup_key (chatID peerID : string) : string :=
  "chats/" +:+ chatID +:+ "/" +:+ profile_ID S +:+ "/lookups/" +:+ peerID.
Definition chatlog_key (chatID : string) : string :=
  "chats/" +:+ chatID +:+ "/" +:+ profile_ID S +:+ "/chatlog".

(** [Session.set] of an encoded value. *)
Definition Session_set (key : string) (v : stored) : M unit :=
  fun w =>
    match kv_Set_error E key with
    | Some msg => (Err msg, w)
    | None => (Ok tt, {| kv := <[key := v]> (kv w); draws := draws w;
                         trace := trace w |})
    end.

(** [Session.getChat]: an absent key reads as an empty blob, which the gob
    decoder refuses. *)
Definition getChat (chatID : string) : M chat :=
  fun w =>
    match kv w !! chat_key chatID with
    | Some (StoredChat c) => (Ok c, w)
    | Some _ => (Err "gob: type mismatch", w)
    | None => (Err "EOF", w)
    end.

Definition setChat (chatID : string) (c : chat) : M unit :=
  Session_set (chat_key chatID) (StoredChat (exported_chat c)).

Definition getLookup (chatID peerID : string) : M lookup :=
  fun w =>
    match kv w !! lookup_key chatID peerID with
    | Some (StoredLookup l) => (Ok l, w)
    | Some _ => (Err "gob: type mismatch", w)
    | None => (Err "EOF", w)
    end.

Definition setLookup (chatID peerID : string) (l : lookup) : M unit :=
  Session_set (lookup_key chatID peerID) (StoredLookup l).

Definition GetChatLog (chatID : string) : M ChatLog :=
  fun w =>
    match kv w !! chatlog_key chatID with
    | Some (StoredChatLog cl) => (Ok cl, w)
    | Some _ => (Err "gob: type mismatch", w)
    | None => (Err "EOF", w)
    end.

Definition setChatLog (chatID : string) (cl : ChatLog) : M unit :=
  Session_set (chatlog_key chatID) (StoredChatLog cl).

(** [ChatLog.SortedJSON] *)
Definition SortedJSON (cl : ChatLog) : M (list byte) :=
  lift (json_Marshal_entries E (Sorted cl)).

(** [rand.Int(rand.Reader, max)]: a value in [[0, max)]; crypto/rand panics
    when [max <= 0]. *)
Definition rand_Int_call (max : Z) : M Z :=
  fun w =>
    if max <=? 0 then (Panic "crypto/rand: argument to Int is <= 0", w)
    else (Ok (rand_Int E (draws w) max mod max),
          {| kv := kv w; draws := Datatypes.S (draws w); trace := trace w |}).

(** The loop of [lookup.getRandom] over the entries in iteration order. *)
Fixpoint getRandom_scan (entries : list (string * list byte)) (c i : Z)
  : string * list byte :=
  match entries with
  | [] => (EmptyString, [])
  | (k, v) :: entries' =>
      if c =? i then (k, v) else getRandom_scan entries' (c + 1) i
  end.

(** [lookup.getRandom] *)
Definition getRandom (l : lookup) : M (string * list byte) :=
  let* x := rand_Int_call (Z.of_nat (size l)) in
  let keys := range_order E (map fst (map_to_list l)) in
  ret (getRandom_scan (map (fun k => (k, lookup_get l k)) keys) 0 x).

(** [lookup.popRandom]: the drawn tag and key, and the table after
    [delete]. *)
Definition popRandom (l : lookup) : M (string * list byte * lookup) :=
  let* kv := getRandom l in
  ret (fst kv, snd kv, delete (fst kv) l).

(** [c.Peers[peerID].Strategy.Rendezvous.Get("")]: the bytes read and the
    chat whose rendezvous engine has seen the read.  A peer that is not in
    the map has nil interfaces. *)
Definition peer_Rendezvous_Get (c : chat) (peerID : string) : M (list byte * chat) :=
  match Peers c !! peerID with
  | None => lift (Panic "invalid memory address or nil pointer dereference")
  | Some p =>
      let* _ := emit (EvRendezvousGet peerID) in
      let '(r, rdv) := storage_Get E (Rendezvous (Strategy p)) EmptyString in
      let* rBytes := lift r in
      ret (rBytes, set_Peer c peerID (set_Rendezvous p rdv))
  end.

(** [c.Peers[peerID].Strategy.Storage.Get(hash)], likewise. *)
Definition peer_Storage_Get (c : chat) (peerID hash : string)
  : M (list byte * chat) :=
  match Peers c !! peerID with
  | None => lift (Panic "invalid memory address or nil pointer dereference")
  | Some p =>
      let* _ := emit (EvStorageGet peerID hash) in
      let '(r, sto) := storage_Get E (Storage (Strategy p)) hash in
      let* b := lift r in
      ret (b, set_Peer c peerID (set_Storage p sto))
  end.

(** [c.Peers[peerID].Strategy.Cipher.Decrypt(data, key)] *)
Definition peer_Decrypt (c : chat) (peerID : string) (data key : list byte)
  : M (list byte) :=
  match Peers c !! peerID with
  | None => lift (Panic "invalid memory address or nil pointer dereference")
  | Some p => lift (Decrypt E (Cipher (Strategy p)) data key)
  end.

(** [sender.Strategy.Cipher.Encrypt(data, key)] *)
Definition peer_Encrypt (sender : option chatPeer) (data key : list byte)
  : M (list byte) :=
  match sender with
  | None => lift (Panic "invalid memory address or nil pointer dereference")
  | Some p =>
      fun w =>
        let '(r, d) := Encrypt E (Cipher (Strategy p)) data key (draws w) in
        (r, {| kv := kv w; draws := d; trace := trace w |})
  end.

(** [Session.getRendezvousHash]: every early [return] gives back the named
    result [hash], which is empty until the pointer has been decrypted. *)
Definition getRendezvousHash (chatID peerID : string) : M string :=
  try (getChat chatID) (fun _ => ret EmptyString) (fun c =>
  try (getLookup chatID peerID) (fun _ => ret EmptyString) (fun l =>
  try (peer_Rendezvous_Get c peerID) (fun _ => ret EmptyString) (fun rc =>
  let rBytes := fst rc in
  let c := snd rc in
  let* tag := lift (go_slice rBytes 0 lookupHashLength) in
  let rHash := base64_EncodeToString tag in
  let '(rKey, l) := popKey l rHash in
  try (setLookup chatID peerID l) (fun _ => ret EmptyString) (fun _ =>
  let* ct := lift (go_slice rBytes lookupHashLength (len rBytes)) in
  try (peer_Decrypt c peerID ct rKey) (fun _ => ret EmptyString) (fun hashBytes =>
  let hash := string_of_list_byte hashBytes in
  try (GetChatLog chatID) (fun _ => ret hash) (fun cl =>
  if HashInLog cl hash then ret EmptyString
  else
    try (setChat chatID c) (fun _ => ret EmptyString) (fun _ => ret hash))))))).

(** [Session.retrieveMessage] *)
Definition retrieveMessage (chatID hash peerID : string) : M chatData :=
  let* c := getChat chatID in
  let* l := getLookup chatID peerID in
  let* bc := peer_Storage_Get c peerID hash in
  let b := fst bc in
  let c := snd bc in
  let* tag := lift (go_slice b 0 lookupHashLength) in
  let lookupHash := base64_EncodeToString tag in
  let '(key, l) := popKey l lookupHash in
  if len key =? 0 then fail "no key"
  else
    let* _ := setLookup chatID peerID l in
    let* ct := lift (go_slice b lookupHashLength (len b)) in
    let* d := peer_Decrypt c peerID ct key in
    let* data := lift (json_Unmarshal E d) in
    let* _ := setChat chatID c in
    ret data.

(** [Session.logChatData] *)
Definition logChatData (chatID peerID hash : string) (data : chatData) : M unit :=
  let* cl := GetChatLog chatID in
  let clEntry :=
    {| ID := hash; Sender := peerID; Sent := cd_Timestamp data; Received := 0;
       TTL := cd_TTL data; Data := data |} in
  let '(r, cl) := AddEntry cl clEntry in
  let* _ := lift r in
  setChatLog chatID cl.

(** One level of [Session.recursivelyLogParents]; [recurse] is the
    function itself. *)
Definition recursivelyLogParents_body (recurse : chatData -> M unit)
  (chatID peerID : string) (data : chatData) : M unit :=
  if String.eqb (cd_Parent data) EmptyString then ret tt
  else
    let* cl := GetChatLog chatID in
    if HashInLog cl (cd_Parent data) then ret tt
    else
      try (retrieveMessage chatID (cd_Parent data) peerID)
        (fun e => if String.eqb e "no key" then ret tt else fail e)
        (fun parentData =>
           let* _ := logChatData chatID peerID (cd_Parent data) parentData in
           if negb (String.eqb (cd_Parent parentData) EmptyString)
           then recurse parentData
           else ret tt).

(** [Session.recursivelyLogParents], [fuel] bounding the depth of the
    recursion. *)
Fixpoint recursivelyLogParents_fuel (fuel : nat) (chatID peerID : string)
  (data : chatData) : M unit :=
  match fuel with
  | O => lift Diverge
  | Datatypes.S fuel' =>
      recursivelyLogParents_body
        (recursivelyLogParents_fuel fuel' chatID peerID) chatID peerID data
  end.

(** The number of entries left in the stored lookup table of a peer. *)
Definition lookups_left (chatID peerID : string) (w : World) : nat :=
  match kv w !! lookup_key chatID peerID with
  | Some (StoredLookup l) => size l
  | _ => O
  end.

(** [Session.recursivelyLogParents].  Every level of the recursion pops one
    entry of the peer's stored lookup table, so one level more than the
    table has entries is enough (see [recursivelyLogParents_fuel_enough]). *)
Definition recursivelyLogParents (chatID peerID : string) (data : chatData)
  : M unit :=
  fun w =>
    recursivelyLogParents_fuel (Datatypes.S (lookups_left chatID peerID w))
      chatID peerID data w.

(** The body of the loop of [Session.RetrieveMessages] for one peer;
    [self] is [c.PeerID].  Every [continue] ends the body normally. *)
Definition RetrieveMessages_body (chatID self peerID : string) : M unit :=
  if String.eqb peerID self then ret tt
  else
    let* hash := getRendezvousHash chatID peerID in
    if String.eqb hash EmptyString then ret tt
    else
      try (retrieveMessage chatID hash peerID) (fun _ => ret tt) (fun data =>
      try (logChatData chatID peerID hash data) (fun _ => ret tt) (fun _ =>
      try (recursivelyLogParents chatID peerID data) (fun _ => ret tt) (fun _ =>
      ret tt))).

(** The loop [for peerID := range c.Peers] over the peers still to visit. *)
Fixpoint RetrieveMessages_loop (chatID self : string) (peers : list string)
  : M unit :=
  match peers with
  | [] => ret tt
  | peerID :: peers' =>
      let* _ := RetrieveMessages_body chatID self peerID in
      RetrieveMessages_loop chatID self peers'
  end.

(** [Session.RetrieveMessages] *)
Definition RetrieveMessages (chatID : string) : M (list byte) :=
  let* c := getChat chatID in
  let peers := range_order E (map fst (map_to_list (Peers c))) in
  let* _ := RetrieveMessages_loop chatID (PeerID c) peers in
  let* cl := GetChatLog chatID in
  SortedJSON cl.

(** [Session.SendMessage] *)
Definition SendMessage (chatID : string) (b : list byte) : M (list byte) :=
  if len b >? maxMessageSize then
    fail ("messag sized exceeds max size of " +:+ fmt_int maxMessageSize +:+ " bytes")
  else
    let* c := getChat chatID in
    let* data := lift (json_Unmarshal E b) in
    let data :=
      {| cd_Parent := LastSent c; cd_Timestamp := time_Now_UnixNano E;
         cd_Media := cd_Media data; cd_Message := cd_Message data;
         cd_TTL := chat_TTL c |} in
    try (lift (json_Marshal E data)) (fun _ => ret []) (fun dataBytes =>
    let sender := Peers c !! PeerID c in
    let* l := getLookup chatID (PeerID c) in
    let* popped := popRandom l in
    let '(mStoreKey, mStoreValue, l) := popped in
    let* _ := setLookup chatID (PeerID c) l in
    let* mStoreKeyBytes := lift (base64_DecodeString E mStoreKey) in
    let* cipherText := peer_Encrypt sender dataBytes mStoreValue in
    let payload := mStoreKeyBytes ++ cipherText in
    let* _ := emit (EvStorageSet (PeerID c) payload) in
    let* hash :=
      match sender with
      | Some p => lift (storage_Set E (Storage (Strategy p)) EmptyString payload)
      | None => lift (Panic "invalid memory address or nil pointer dereference")
      end in
    let c := set_LastSent c hash in
    let* _ := setChat chatID c in
    let* popped := popRandom l in
    let '(rStoreKey, rStoreValue, l) := popped in
    let* _ := setLookup chatID (PeerID c) l in
    let* rStoreKeyBytes := lift (base64_DecodeString E rStoreKey) in
    let* rCipherText := peer_Encrypt sender (list_byte_of_string hash) rStoreValue in
    let rPayload := rStoreKeyBytes ++ rCipherText in
    let* _ := emit (EvRendezvousSet (PeerID c) rPayload) in
    let* _ :=
      match sender with
      | Some p => lift (storage_Set E (Rendezvous (Strategy p)) EmptyString rPayload)
      | None => lift (Panic "invalid memory address or nil pointer dereference")
      end in
    let* cl := GetChatLog chatID in
    let clEntry :=
      {| ID := hash; Sender := PeerID c; Sent := cd_Timestamp data; Received := 0;
         TTL := cd_TTL data; Data := data |} in
    let '(r, cl) := AddEntry cl clEntry in
    let* _ := lift r in
    let* _ := setChatLog chatID cl in
    SortedJSON cl).

End SessionOps.

(* --------------------------------------------------------------------- *)
(** ** The lookup table as the specification describes it

    The two Argon2id streams and the entries cut from them: entry [i] has
    the tag [base64(tag_stream[(i-1)*24 .. i*24])] and the key
    [key_stream[(i-1)*32 .. i*32]]; the table holds the entries
    [1 .. count-1], a later entry replacing an earlier one with the same
    tag. *)

Definition tag_stream (E : Env) (pepper entropy : list byte) (count : Z) : list byte :=
  IDKey E pepper (take 32 (drop 32 entropy)) 1 (64 * 1024) 4 (count * 24).

Definition key_stream (E : Env) (entropy : list byte) (count : Z) : list byte :=
  IDKey E (take 32 entropy) (drop 64 entropy) 1 (64 * 1024) 4 (count * 32).

Definition gen_tag_bytes (E : Env) (pepper entropy : list byte) (count : Z) (i : nat)
  : list byte :=
  take 24 (drop ((i - 1) * 24) (tag_stream E pepper entropy count)).

Definition gen_tag (E : Env) (pepper entropy : list byte) (count : Z) (i : nat)
  : string :=
  base64_EncodeToString (gen_tag_bytes E pepper entropy count i).

Definition gen_key (E : Env) (entropy : list byte) (count : Z) (i : nat) : list byte :=
  take 32 (drop ((i - 1) * 32) (key_stream E entropy count)).

Definition table_of (E : Env) (pepper entropy : list byte) (count : Z) : lookup :=
  foldl (fun m i => <[gen_tag E pepper entropy count i := gen_key E entropy count i]> m)
        ∅ (seq 1 (Z.to_nat (count - 1))).

(* --------------------------------------------------------------------- *)
(** ** A concrete environment

    Stand-ins for the imported libraries, used to run the model on concrete
    inputs.  [demo_Seal] puts a 16-byte authenticator (the head of the key)
    in front of the message; [demo_Open] refuses a box shorter than 16 bytes,
    as [secretbox.Open] does, and a box whose authenticator differs. *)

Fixpoint bytes_eqb (a b : list byte) : bool :=
  match a, b with
  | [], [] => true
  | x :: a', y :: b' => Byte.eqb x y && bytes_eqb a' b'
  | _, _ => false
  end.

Definition demo_auth (k : list byte) : list byte := copy_into 16 k.

Definition demo_Seal (m n k : list byte) : list byte := demo_auth k ++ m.

Definition demo_Open (box n k : list byte) : option (list byte) :=
  if (length box <? 16)%nat then None
  else if bytes_eqb (take 16 box) (demo_auth k) then Some (drop 16 box)
  else None.

(** A key stream whose byte at offset [j] is [j + len(password)] (mod 256). *)
Definition demo_IDKey (password salt : list byte) (time memory threads keyLen : Z)
  : list byte :=
  map (fun j => byte_of_Z (Z.of_nat j + len password)) (seq 0 (Z.to_nat keyLen)).

Definition demo_env (fetch : string -> node_outcome) : Env := {|
  rand_Read := fun d n => repeat (byte_of_Z (Z.of_nat d)) n;
  rand_Int := fun d max => Z.of_nat d;
  time_Now_UnixNano := 1500000000000000000;
  argon2_IDKey := demo_IDKey;
  secretbox_Seal := demo_Seal;
  secretbox_Open := demo_Open;
  json_Unmarshal := fun b =>
    Ok {| cd_Parent := EmptyString; cd_Timestamp := 0; cd_Media := [];
          cd_Message := string_of_list_byte b; cd_TTL := 0 |};
  json_Marshal := fun d => Ok (list_byte_of_string (cd_Message d));
  json_Marshal_entries := fun es =>
    Ok (flat_map (fun e => list_byte_of_string (ID e)) es);
  base64_DecodeString := fun _ => Ok [];
  range_order := fun keys => keys;
  hashmap_fetch := fetch;
  hashmap_post := fun _ _ => true;
  ipfs_cat := fun _ _ => Err "no route to host";
  ipfs_add := fun _ _ => Err "no route to host";
  kv_Set_error := fun _ => None
|}.

Definition demo_hashmap (latest : Z) : hashmapStorage :=
  {| hm_ReadNodes := []; hm_WriteNodes := []; hm_ReadRule := firstSuccess;
     hm_WriteRule := firstSuccess; Latest := latest |}.

Definition offline : string -> node_outcome := fun _ => NodeUnreachable.

(** A two-peer chat of the profile ["p"]: the local peer ["me"] and the
    peer ["bob"], whose lookup table holds one entry. *)
Definition demo_session : Session := {| profile_ID := "p" |}.

Definition demo_peer (id url : string) : chatPeer :=
  {| peer_ID := id; Alias := id;
     Strategy :=
       {| Rendezvous := HashmapEngine
            {| hm_ReadNodes := [ {| URL := url |} ]; hm_WriteNodes := [];
               hm_ReadRule := firstSuccess; hm_WriteRule := firstSuccess;
               Latest := 0 |};
          Storage := IPFSEngine
            {| ipfs_ReadNodes := [ {| URL := "https://ipfs.example/" |} ];
               ipfs_WriteNodes := [];
               ipfs_ReadRule := firstSuccess; ipfs_WriteRule := firstSuccess |};
          Cipher := newDefaultSBCipher |} |}.

Definition demo_chat : chat :=
  {| chat_ID := "c"; PeerID := "me"; LastSent := EmptyString;
     Peers := <["bob" := demo_peer "bob" "https://r.example/bob"]>
              (<["me" := demo_peer "me" "https://r.example/me"]> ∅);
     Settings := {| MaxTTL := 0 |} |}.

Definition demo_tag_bytes : list byte := repeat x00 24.
Definition demo_tag : string := base64_EncodeToString demo_tag_bytes.
Definition demo_key : list byte := repeat x01 32.
Definition demo_lookup : lookup := <[demo_tag := demo_key]> ∅.

Definition demo_world (cl : ChatLog) : World :=
  {| kv := <[chat_key demo_session "c" := StoredChat demo_chat]>
           (<[lookup_key demo_session "c" "bob" := StoredLookup demo_lookup]>
           (<[lookup_key demo_session "c" "me" := StoredLookup ∅]>
           (<[chatlog_key demo_session "c" := StoredChatLog cl]> ∅)));
     draws := O;
     trace := [] |}.

(** Bob's rendezvous node serves a pointer whose tag is in the table and
    whose sealed part, 24 bytes of nonce and 6 more, is too short to carry
    an authenticator. *)
Definition truncated_pointer : list byte := demo_tag_bytes ++ repeat x07 30.

Definition serves_truncated_pointer : string -> node_outcome :=
  fun url =>
    if String.eqb url "https://r.example/bob"
    then NodePayload 1 (Ok truncated_pointer)
    else NodeUnreachable.

(** A message of bob and the log that holds it. *)
Definition demo_data (parent : string) : chatData :=
  {| cd_Parent := parent; cd_Timestamp := 1500000000; cd_Media := [];
     cd_Message := "hello"; cd_TTL := 604800 |}.

Definition demo_entry : ChatLogEntry :=
  {| ID := "QmYwAPJzv5CZsnA"; Sender := "bob"; Sent := 1500000000; Received := 0;
     TTL := 604800; Data := demo_data EmptyString |}.

Definition demo_log : ChatLog := <["1500000000-QmYwAPJzv5CZsnA" := demo_entry]> ∅.

(** The world the demo chat is left in by [RetrieveMessages] when bob's
    node serves the truncated pointer. *)
Definition after_truncated_pointer : World :=
  snd (RetrieveMessages (demo_env serves_truncated_pointer) demo_session "c"
         (demo_world ∅)).

(** An operation that never hands an error to its caller. *)
Definition noErr {A} (m : M A) : Prop := forall w, is_Err (fst (m w)) = false.

(** A rendezvous backend whose mark is at 5 and whose single read node is
    bob's. *)
Definition replay_store : hashmapStorage :=
  {| hm_ReadNodes := [ {| URL := "https://r.example/bob" |} ]; hm_WriteNodes := [];
     hm_ReadRule := firstSuccess; hm_WriteRule := firstSuccess; Latest := 5 |}.

(* --------------------------------------------------------------------- *)
(** ** Paths: storage_hashmap.go, storage_ipfs.go, chat.go *)

(** [strings.LastIndex]: the index of the last occurrence of [substr] in
    [s], or -1; [i] is the index of the first byte of [s]. *)
Fixpoint strings_LastIndex_from (s substr : string) (i : Z) : Z :=
  match s with
  | EmptyString => if strings_HasPrefix s substr then i else -1
  | String _ s' =>
      let r := strings_LastIndex_from s' substr (i + 1) in
      if r >=? 0 then r
      else if strings_HasPrefix s substr then i else -1
  end.

Definition strings_LastIndex (s substr : string) : Z :=
  strings_LastIndex_from s substr 0.

Fixpoint string_drop (n : nat) (s : string) : string :=
  match n, s with
  | O, _ => s
  | S n', String _ s' => string_drop n' s'
  | S _, EmptyString => EmptyString
  end.

Fixpoint string_take (n : nat) (s : string) : string :=
  match n, s with
  | O, _ => EmptyString
  | S n', String a s' => String a (string_take n' s')
  | S _, EmptyString => EmptyString
  end.

Definition string_len (s : string) : Z := Z.of_nat (String.length s).

(** The slice expressions [s[lo:]] and [s[:hi]] of a string. *)
Definition go_substr_from (s : string) (lo : Z) : result string :=
  if (0 <=? lo) && (lo <=? string_len s) then Ok (string_drop (Z.to_nat lo) s)
  else Panic "slice bounds out of range".

Definition go_substr_to (s : string) (hi : Z) : result string :=
  if (0 <=? hi) && (hi <=? string_len s) then Ok (string_take (Z.to_nat hi) s)
  else Panic "slice bounds out of range".

(** [getHashFromPath] *)
Definition getHashFromPath (path : string) : result string :=
  let lastIndex := strings_LastIndex path "/" in
  if lastIndex =? -1 then Ok path
  else go_substr_from path (lastIndex + 1).

(** [strings.HasSuffix], [strings.TrimSuffix], [strings.TrimPrefix] *)
Definition strings_HasSuffix (s suffix : string) : bool :=
  (string_len s >=? string_len suffix) &&
  String.eqb (string_drop (Z.to_nat (string_len s - string_len suffix)) s) suffix.

Definition strings_TrimSuffix (s suffix : string) : result string :=
  if strings_HasSuffix s suffix
  then go_substr_to s (string_len s - string_len suffix)
  else Ok s.

Definition strings_TrimPrefix (s prefix : string) : result string :=
  if strings_HasPrefix s prefix
  then go_substr_from s (string_len prefix)
  else Ok s.

(** [appendToPath] *)
Definition appendToPath (base add : string) : result string :=
  if String.eqb add "" then Ok base
  else
    rbind (strings_TrimSuffix base "/") (fun base =>
    rbind (strings_TrimPrefix add "/") (fun add =>
    Ok (base +:+ "/" +:+ add))).

(** [strings.Split(s, sep)] for a separator of one byte. *)
Fixpoint strings_Split (s : string) (sep : ascii) : list string :=
  match s with
  | EmptyString => [EmptyString]
  | String a s' =>
      if Ascii.eqb a sep then EmptyString :: strings_Split s' sep
      else
        match strings_Split s' sep with
        | x :: rest => String a x :: rest
        | [] => [String a EmptyString]
        end
  end.

(** [uniqueChatIDsFromPaths]: the first loop fills [idMap], the second
    ranges over it. *)
Fixpoint uniqueChatIDs_collect (paths : list string) (profileID : string)
  (idMap : gmap string unit) : result (gmap string unit) :=
  match paths with
  | [] => Ok idMap
  | l :: paths' =>
      if strings_Contains l profileID then
        let s := strings_Split l "/" in
        match s !! 1%nat with
        | Some id => uniqueChatIDs_collect paths' profileID (<[id := tt]> idMap)
        | None => Panic "index out of range [1] with length 1"
        end
      else uniqueChatIDs_collect paths' profileID idMap
  end.

Definition uniqueChatIDsFromPaths (E : Env) (paths : list string)
  (profileID : string) : result (list string) :=
  rbind (uniqueChatIDs_collect paths profileID ∅) (fun idMap =>
  Ok (range_order E (map fst (map_to_list idMap)))).

(* --------------------------------------------------------------------- *)
(** ** storage_bolt.go: the local key-value store *)

(** A bucket of bbolt holds its keys in byte-wise order; a cursor walks
    them in that order.  [cursor_Seek] is the part of the bucket from the
    first key that is not below [p]. *)
Fixpoint cursor_Seek (keys : list string) (p : string) : list string :=
  match keys with
  | [] => []
  | k :: keys' => if String.ltb k p then cursor_Seek keys' p else keys
  end.

(** The loop of [boltStorage.List]:
    [for k != nil && bytes.HasPrefix(k, p) { append; Next }]. *)
Fixpoint List_loop (cursor : list string) (p : string) : list string :=
  match cursor with
  | [] => []
  | k :: cursor' => if strings_HasPrefix k p then k :: List_loop cursor' p else []
  end.

Section Bolt.
Context {V : Type} (E : Env).

(** [boltStorage.List] *)
Definition bolt_List (b : gmap string V) (path : string) : list string :=
  List_loop (cursor_Seek (sort_Strings (map fst (map_to_list b))) path) path.

(** [boltStorage.Set] and [boltStorage.Delete]: the error of the update
    transaction, if any, is the environment's. *)
Definition bolt_Set (b : gmap string V) (key : string) (value : V)
  : result string * gmap string V :=
  match kv_Set_error E key with
  | Some msg => (Err msg, b)
  | None => (Ok key, <[key := value]> b)
  end.

Definition bolt_Delete (b : gmap string V) (key : string)
  : result unit * gmap string V :=
  match kv_Set_error E key with
  | Some msg => (Err msg, b)
  | None => (Ok tt, delete key b)
  end.

(** [deleteAllWithPrefix] on the local store. *)
Fixpoint deleteAll_loop (keys : list string) (b : gmap string V)
  : result unit * gmap string V :=
  match keys with
  | [] => (Ok tt, b)
  | key :: keys' =>
      match bolt_Delete b key with
      | (Ok _, b') => deleteAll_loop keys' b'
      | (Err msg, b') => (Err msg, b')
      | (Panic msg, b') => (Panic msg, b')
      | (Diverge, b') => (Diverge, b')
      end
  end.

Definition deleteAllWithPrefix (b : gmap string V) (prefix : string)
  : result unit * gmap string V :=
  deleteAll_loop (bolt_List b prefix) b.

End Bolt.

(** [boltStorage.Get]: a key that is not in the bucket reads as no bytes,
    without an error. *)
Definition bolt_Get (b : gmap string (list byte)) (key : string) : result (list byte) :=
  Ok (default [] (b !! key)).

(** [Session.set] and [Session.get] on the bytes of the store: the session
    cipher is the time-series cipher of [NewSession], the key the profile's. *)
Definition Session_set_bytes (E : Env) (profile_Key : list byte)
  (b : gmap string (list byte)) (key : string) (value : list byte) (d : nat)
  : result string * gmap string (list byte) * nat :=
  match Encrypt E newTimeSeriesSBCipher value profile_Key d with
  | (Ok encrypted, d') => (bolt_Set E b key encrypted, d')
  | (Err msg, d') => (Err msg, b, d')
  | (Panic msg, d') => (Panic msg, b, d')
  | (Diverge, d') => (Diverge, b, d')
  end.

Definition Session_get_bytes (E : Env) (profile_Key : list byte)
  (b : gmap string (list byte)) (key : string) : result (list byte) :=
  rbind (bolt_Get b key) (fun encrypted =>
  Decrypt E newTimeSeriesSBCipher encrypted profile_Key).

(** [Session.ListChats]; [json_Marshal_ids] is [json.Marshal] on a slice of
    strings. *)
Definition ListChats (E : Env) (S : Session)
  (json_Marshal_ids : list string -> result (list byte)) : M (list byte) :=
  fun w =>
    (rbind (uniqueChatIDsFromPaths E (bolt_List (kv w) "chats/") (profile_ID S))
           json_Marshal_ids, w).

(* --------------------------------------------------------------------- *)
(** ** storage.go, crypto.go, strategy.go, chat.go: configurations *)

(** [StorageEngine]: [BoltEngine], [HashmapEngine] and [IPFSEngine] are 0,
    1 and 2. *)
Definition StorageEngine_Bolt : Z := 0.
Definition StorageEngine_Hashmap : Z := 1.
Definition StorageEngine_IPFS : Z := 2.

(** [storageConfig] and [peerStorage]; as in [hashmapStorage], the
    signatures, which every function below copies as they are, are left
    out. *)
Record storageConfig := {
  sc_Type : Z;
  sc_ReadNodes : list node;
  sc_WriteNodes : list node;
  sc_ReadRule : consensusRule;
  sc_WriteRule : consensusRule;
  sc_Latest : Z
}.

Record peerStorage := {
  ps_Type : Z;
  ps_ReadNodes : list node;
  ps_WriteNodes : list node;
  ps_ReadRule : consensusRule;
  ps_WriteRule : consensusRule
}.

(** [cipherConfig] *)
Record cipherConfig := { cc_Type : Z; cc_ChunkSize : Z }.

Record strategyConfig := {
  cfg_Rendezvous : storageConfig;
  cfg_Storage : storageConfig;
  cfg_Cipher : cipherConfig
}.

Record chatPeerConfig := {
  cfg_peer_ID : string;
  cfg_Alias : string;
  cfg_Strategy : strategyConfig
}.

Record chatConfig := {
  cfg_ID : string;
  cfg_PeerID : string;
  cfg_LastSent : string;
  cfg_Peers : gmap string chatPeerConfig;
  cfg_Settings : chatSettings
}.

(** [hashmapStorage.export], [ipfsStorage.export] and [ipfsStorage.share] *)
Definition hashmap_export (s : hashmapStorage) : result storageConfig :=
  Ok {| sc_Type := StorageEngine_Hashmap;
        sc_ReadNodes := hm_ReadNodes s; sc_WriteNodes := hm_WriteNodes s;
        sc_ReadRule := hm_ReadRule s; sc_WriteRule := hm_WriteRule s;
        sc_Latest := Latest s |}.

Definition ipfs_export (s : ipfsStorage) : result storageConfig :=
  Ok {| sc_Type := StorageEngine_IPFS;
        sc_ReadNodes := ipfs_ReadNodes s; sc_WriteNodes := ipfs_WriteNodes s;
        sc_ReadRule := ipfs_ReadRule s; sc_WriteRule := ipfs_WriteRule s;
        sc_Latest := 0 |}.

Definition ipfs_share (s : ipfsStorage) : result peerStorage :=
  Ok {| ps_Type := StorageEngine_IPFS;
        ps_ReadNodes := ipfs_WriteNodes s; ps_WriteNodes := [];
        ps_ReadRule := ipfs_WriteRule s; ps_WriteRule := firstSuccess |}.

Definition storage_export (s : storage) : result storageConfig :=
  match s with
  | HashmapEngine h => hashmap_export h
  | IPFSEngine i => ipfs_export i
  end.

(** [newStorageFromPeer] and [newStorageFromConfig] *)
Definition newStorageFromPeer (s : peerStorage) : result storage :=
  if ps_Type s =? StorageEngine_IPFS then
    Ok (IPFSEngine {| ipfs_ReadNodes := ps_ReadNodes s; ipfs_WriteNodes := [];
                      ipfs_ReadRule := ps_ReadRule s;
                      ipfs_WriteRule := firstSuccess |})
  else if ps_Type s =? StorageEngine_Hashmap then
    Ok (HashmapEngine {| hm_ReadNodes := ps_ReadNodes s; hm_WriteNodes := [];
                         hm_ReadRule := ps_ReadRule s;
                         hm_WriteRule := firstSuccess; Latest := 0 |})
  else Err "invalid storage engine type".

Definition newStorageFromConfig (s : storageConfig) : result storage :=
  if sc_Type s =? StorageEngine_IPFS then
    Ok (IPFSEngine {| ipfs_ReadNodes := sc_ReadNodes s;
                      ipfs_WriteNodes := sc_WriteNodes s;
                      ipfs_ReadRule := sc_ReadRule s;
                      ipfs_WriteRule := sc_WriteRule s |})
  else if sc_Type s =? StorageEngine_Hashmap then
    Ok (HashmapEngine {| hm_ReadNodes := sc_ReadNodes s;
                         hm_WriteNodes := sc_WriteNodes s;
                         hm_ReadRule := sc_ReadRule s;
                         hm_WriteRule := sc_WriteRule s;
                         Latest := sc_Latest s |})
  else Err "invalid storage engine type".

(** [SecretBoxCipher.export] and [newCipherFromConfig] *)
Definition SecretBoxCipher_export (s : SecretBoxCipher) : result cipherConfig :=
  Ok {| cc_Type := SecretBox; cc_ChunkSize := secretBoxDefaultChunkSize |}.

Definition newCipherFromConfig (config : cipherConfig) : result SecretBoxCipher :=
  if cc_Type config =? SecretBox then
    Ok {| Nonce := RandomNonce; ChunkSize := cc_ChunkSize config |}
  else Err "cipher not implemented for config import".

(** [strategy.Export] and [strategyFromConfig] *)
Definition strategy_Export (s : strategy) : result strategyConfig :=
  rbind (storage_export (Rendezvous s)) (fun r =>
  rbind (storage_export (Storage s)) (fun st =>
  rbind (SecretBoxCipher_export (Cipher s)) (fun c =>
  Ok {| cfg_Rendezvous := r; cfg_Storage := st; cfg_Cipher := c |}))).

Definition strategyFromConfig (config : strategyConfig) : result strategy :=
  rbind (newStorageFromConfig (cfg_Rendezvous config)) (fun r =>
  rbind (newStorageFromConfig (cfg_Storage config)) (fun st =>
  rbind (newCipherFromConfig (cfg_Cipher config)) (fun c =>
  Ok {| Rendezvous := r; Storage := st; Cipher := c |}))).

(** [chatPeer.Config] and [chatPeerConfig.Peer] *)
Definition chatPeer_Config (c : chatPeer) : result chatPeerConfig :=
  rbind (strategy_Export (Strategy c)) (fun s =>
  Ok {| cfg_peer_ID := peer_ID c; cfg_Alias := Alias c; cfg_Strategy := s |}).

Definition chatPeerConfig_Peer (config : chatPeerConfig) : result chatPeer :=
  rbind (strategyFromConfig (cfg_Strategy config)) (fun s =>
  Ok {| peer_ID := cfg_peer_ID config; Alias := cfg_Alias config; Strategy := s |}).

(** The loops of [chat.Config] and [chatConfig.Chat]: each peer is filed
    under its own ID. *)
Fixpoint Config_loop (peers : list chatPeer) (acc : gmap string chatPeerConfig)
  : result (gmap string chatPeerConfig) :=
  match peers with
  | [] => Ok acc
  | peer :: peers' =>
      rbind (chatPeer_Config peer) (fun peerConfig =>
      Config_loop peers' (<[peer_ID peer := peerConfig]> acc))
  end.

Fixpoint Chat_loop (configs : list chatPeerConfig) (acc : gmap string chatPeer)
  : result (gmap string chatPeer) :=
  match configs with
  | [] => Ok acc
  | peerConfig :: configs' =>
      rbind (chatPeerConfig_Peer peerConfig) (fun peer =>
      Chat_loop configs' (<[peer_ID peer := peer]> acc))
  end.

(** The values of a map in the order in which [range] visits it. *)
Definition range_values {V} (E : Env) (m : gmap string V) : list V :=
  omap (fun k => m !! k) (range_order E (map fst (map_to_list m))).

(** [chat.Config] and [chatConfig.Chat] *)
Definition chat_Config (E : Env) (c : chat) : result chatConfig :=
  rbind (Config_loop (range_values E (Peers c)) ∅) (fun peers =>
  Ok {| cfg_ID := chat_ID c; cfg_PeerID := PeerID c; cfg_LastSent := LastSent c;
        cfg_Peers := peers; cfg_Settings := Settings c |}).

Definition chatConfig_Chat (E : Env) (config : chatConfig) : result chat :=
  rbind (Chat_loop (range_values E (cfg_Peers config)) ∅) (fun peers =>
  Ok {| chat_ID := cfg_ID config; PeerID := cfg_PeerID config;
        LastSent := cfg_LastSent config; Peers := peers;
        Settings := cfg_Settings config |}).

(* --------------------------------------------------------------------- *)
(** ** What a session operation leaves alone *)



(** The keys of the local store that belong to a chat of the profile. *)
Definition own_key (S : Session) (chatID : string) (k : string) : Prop :=
  k = chat_key S chatID \/ k = chatlog_key S chatID \/
  exists peerID, k = lookup_key S chatID peerID.

(** From [w] to [w']: no randomness was drawn, every backend call made
    satisfies [P], and no key of the local store outside the chat changed. *)
Definition confined (S : Session) (chatID : string) (P : event -> Prop)
  (w w' : World) : Prop :=
  draws w' = draws w /\
  (exists evs, trace w' = evs ++ trace w /\ Forall P evs) /\
  (forall k, ~ own_key S chatID k -> kv w' !! k = kv w !! k).


(** A network on which every write is accepted, with codecs that are
    inverse to each other on what a chat of text messages needs: base64 on
    the two tags of [sender_lookup], JSON on messages that carry a text, the
    time of the environment and the default TTL. *)
Definition sender_tag_bytes (i : byte) : list byte := repeat i 24.
Definition sender_tag (i : byte) : string := base64_EncodeToString (sender_tag_bytes i).

Definition online_DecodeString (t : string) : result (list byte) :=
  if String.eqb t (sender_tag x01) then Ok (sender_tag_bytes x01)
  else if String.eqb t (sender_tag x02) then Ok (sender_tag_bytes x02)
  else Err "illegal base64 data".

Definition online_Unmarshal (bs : list byte) : result chatData :=
  Ok {| cd_Parent := EmptyString; cd_Timestamp := 1500000000000000000;
        cd_Media := []; cd_Message := string_of_list_byte bs;
        cd_TTL := defaultChatTTL |}.

Definition online_Marshal (d : chatData) : result (list byte) :=
  if String.eqb (cd_Parent d) EmptyString
     && (cd_Timestamp d =? 1500000000000000000)
     && match cd_Media d with [] => true | _ => false end
     && (cd_TTL d =? defaultChatTTL)
  then Ok (list_byte_of_string (cd_Message d))
  else Err "json: unsupported value".

Definition online_env (fetch : string -> node_outcome)
  (cat : string -> string -> result (list byte)) : Env := {|
  rand_Read := rand_Read (demo_env offline);
  rand_Int := rand_Int (demo_env offline);
  time_Now_UnixNano := 1500000000000000000;
  argon2_IDKey := argon2_IDKey (demo_env offline);
  secretbox_Seal := secretbox_Seal (demo_env offline);
  secretbox_Open := secretbox_Open (demo_env offline);
  json_Unmarshal := online_Unmarshal;
  json_Marshal := online_Marshal;
  json_Marshal_entries := json_Marshal_entries (demo_env offline);
  base64_DecodeString := online_DecodeString;
  range_order := fun keys => keys;
  hashmap_fetch := fetch;
  hashmap_post := fun _ _ => true;
  ipfs_cat := cat;
  ipfs_add := fun _ _ => Ok "QmSent";
  kv_Set_error := fun _ => None
|}.

Definition no_blob : string -> string -> result (list byte) :=
  fun _ _ => Err "no route to host".

(** A chat whose own peer ["me"] has write nodes and a lookup table of two
    entries. *)
Definition sender_peer : chatPeer :=
  {| peer_ID := "me"; Alias := "me";
     Strategy :=
       {| Rendezvous := HashmapEngine
            {| hm_ReadNodes := []; hm_WriteNodes := [ {| URL := "https://r.example/" |} ];
               hm_ReadRule := firstSuccess; hm_WriteRule := firstSuccess;
               Latest := 0 |};
          Storage := IPFSEngine
            {| ipfs_ReadNodes := [];
               ipfs_WriteNodes := [ {| URL := "https://ipfs.example/" |} ];
               ipfs_ReadRule := firstSuccess; ipfs_WriteRule := firstSuccess |};
          Cipher := newDefaultSBCipher |} |}.

Definition sender_chat : chat :=
  {| chat_ID := "c"; PeerID := "me"; LastSent := EmptyString;
     Peers := <["me" := sender_peer]> ∅; Settings := {| MaxTTL := 0 |} |}.

Definition sender_lookup : lookup :=
  <[sender_tag x01 := repeat x01 32]> (<[sender_tag x02 := repeat x02 32]> ∅).

Definition sender_world : World :=
  {| kv := <[chat_key demo_session "c" := StoredChat sender_chat]>
           (<[lookup_key demo_session "c" "me" := StoredLookup sender_lookup]>
           (<[chatlog_key demo_session "c" := StoredChatLog ∅]> ∅));
     draws := O;
     trace := [] |}.

(** What ["me"] of [sender_world] writes when it sends ["hi"], a network
    that serves it, and the state of the peer ["bob"] of the same chat, who
    holds the table of ["me"] and reads from where ["me"] writes. *)
Definition sent_trace : list event :=
  trace (snd (SendMessage (online_env offline no_blob) demo_session "c" [x68; x69]
                sender_world)).

Definition sent_pointer : list byte :=
  match sent_trace with
  | EvRendezvousSet _ rPayload :: _ => rPayload
  | _ => []
  end.

Definition sent_blob : list byte :=
  match sent_trace with
  | _ :: EvStorageSet _ payload :: _ => payload
  | _ => []
  end.

Definition serving_env : Env :=
  online_env (fun _ => NodePayload 1 (Ok sent_pointer)) (fun _ _ => Ok sent_blob).

Definition receiver_session : Session := {| profile_ID := "q" |}.

Definition receiver_peer (id : string) : chatPeer :=
  {| peer_ID := id; Alias := id;
     Strategy :=
       {| Rendezvous := HashmapEngine
            {| hm_ReadNodes := [ {| URL := "https://r.example/" |} ]; hm_WriteNodes := [];
               hm_ReadRule := firstSuccess; hm_WriteRule := firstSuccess;
               Latest := 0 |};
          Storage := IPFSEngine
            {| ipfs_ReadNodes := [ {| URL := "https://ipfs.example/" |} ];
               ipfs_WriteNodes := [];
               ipfs_ReadRule := firstSuccess; ipfs_WriteRule := firstSuccess |};
          Cipher := newDefaultSBCipher |} |}.

Definition receiver_chat : chat :=
  {| chat_ID := "c"; PeerID := "bob"; LastSent := EmptyString;
     Peers := <["me" := receiver_peer "me"]> (<["bob" := receiver_peer "bob"]> ∅);
     Settings := {| MaxTTL := 0 |} |}.

Definition receiver_world : World :=
  {| kv := <[chat_key receiver_session "c" := StoredChat receiver_chat]>
           (<[lookup_key receiver_session "c" "me" := StoredLookup sender_lookup]>
           (<[chatlog_key receiver_session "c" := StoredChatLog ∅]> ∅));
     draws := O;
     trace := [] |}.

(* --------------------------------------------------------------------- *)
(** ** Operations that return *)

(** Every run of [m] returns, with a value or an error, or panics. *)
Definition ends {A} (m : M A) : Prop := forall w, fst (m w) <> Diverge.

(** The network and the decoders answer every call. *)
Definition env_answers (E : Env) : Prop :=
  (forall url ts, hashmap_fetch E url <> NodePayload ts Diverge) /\
  (forall url hash, ipfs_cat E url hash <> Diverge) /\
  (forall b, json_Unmarshal E b <> Diverge) /\
  (forall es, json_Marshal_entries E es <> Diverge).

(** Bob's rendezvous node serves three bytes. *)
Definition serves_short_pointer : string -> node_outcome :=
  fun url =>
    if String.eqb url "https://r.example/bob"
    then NodePayload 1 (Ok [x01; x02; x03])
    else NodeUnreachable.

(** The chat of [sender_world] with an own peer that has no write nodes. *)
Definition stranded_chat : chat :=
  {| chat_ID := "c"; PeerID := "me"; LastSent := EmptyString;
     Peers := <["me" := receiver_peer "me"]> ∅; Settings := {| MaxTTL := 0 |} |}.

Definition stranded_world : World :=
  {| kv := <[chat_key demo_session "c" := StoredChat stranded_chat]> (kv sender_world);
     draws := O;
     trace := [] |}.


(* ===================================================================== *)
(** * Part II: properties *)
(* ===================================================================== *)

(** ** Arithmetic of the wrap-around *)

Lemma int64_wrap_id z : in_int64 z -> int64_wrap z = z.
Proof.
  unfold in_int64, min_int64, max_int64, int64_wrap. intros Hz.
  rewrite Z.mod_small by lia. lia.
Qed.

(** ** C1: the freshness check of the rendezvous backend *)

Lemma set_Latest_same s : set_Latest s (Latest s) = s.
Proof. by destruct s. Qed.

Lemma updateLatest_future now s ts :
  in_int64 (now + 5 * 1000000000) -> ts > now + 5 * 1000000000 ->
  updateLatest now s ts = (Err "invalid future timestamp", s).
Proof.
  intros Hn Hts. unfold updateLatest, int64_add.
  rewrite (int64_wrap_id _ Hn).
  destruct (Z.gtb_spec ts (now + 5 * 1000000000)); [done | lia].
Qed.

Lemma updateLatest_stale now s ts :
  in_int64 (now + 5 * 1000000000) -> ts <= now + 5 * 1000000000 ->
  ts < Latest s ->
  updateLatest now s ts = (Err "stale timestamp", s).
Proof.
  intros Hn Hts Hl. unfold updateLatest, int64_add.
  rewrite (int64_wrap_id _ Hn).
  destruct (Z.gtb_spec ts (now + 5 * 1000000000)); [lia |].
  destruct (Z.gtb_spec (Latest s) ts); [done | lia].
Qed.

Lemma updateLatest_accept now s ts :
  in_int64 (now + 5 * 1000000000) -> ts <= now + 5 * 1000000000 ->
  Latest s <= ts ->
  updateLatest now s ts = (Ok tt, set_Latest s ts).
Proof.
  intros Hn Hts Hl. unfold updateLatest, int64_add.
  rewrite (int64_wrap_id _ Hn).
  destruct (Z.gtb_spec ts (now + 5 * 1000000000)); [lia |].
  destruct (Z.gtb_spec (Latest s) ts); [lia | done].
Qed.

(** C1, as the code has it.  With the wall-clock reading [now] such that
    [now + 5e9] is a 64-bit value: a timestamp equal to the stored mark is
    accepted and leaves the mark where it is, [Latest + 1] is accepted and
    becomes the mark (both when not more than 5,000,000,000 ns ahead of
    [now]); a timestamp more than 5,000,000,000 ns ahead of [now] is rejected
    and one strictly below the mark is rejected, the mark staying unchanged
    in both cases. *)
Theorem updateLatest_freshness (now : Z) (s : hashmapStorage) :
  in_int64 (now + 5 * 1000000000) ->
  (Latest s <= now + 5 * 1000000000 ->
     updateLatest now s (Latest s) = (Ok tt, s)) /\
  (Latest s + 1 <= now + 5 * 1000000000 ->
     updateLatest now s (Latest s + 1) = (Ok tt, set_Latest s (Latest s + 1))) /\
  (forall ts, ts > now + 5 * 1000000000 ->
     updateLatest now s ts = (Err "invalid future timestamp", s)) /\
  (forall ts, ts <= now + 5 * 1000000000 -> ts < Latest s ->
     updateLatest now s ts = (Err "stale timestamp", s)).
Proof.
  intros Hn. repeat split.
  - intros H. rewrite updateLatest_accept by (done || lia).
    by rewrite set_Latest_same.
  - intros H. by rewrite updateLatest_accept by (done || lia).
  - intros ts H. by apply updateLatest_future.
  - intros ts H1 H2. by apply updateLatest_stale.
Qed.

Lemma updateLatest_freshness_witness :
  updateLatest 100 (demo_hashmap 7) 7 = (Ok tt, demo_hashmap 7) /\
  updateLatest 100 (demo_hashmap 7) 8 = (Ok tt, demo_hashmap 8) /\
  updateLatest 100 (demo_hashmap 7) 5000000101
    = (Err "invalid future timestamp", demo_hashmap 7) /\
  updateLatest 100 (demo_hashmap 7) 6 = (Err "stale timestamp", demo_hashmap 7).
Proof.
  assert (Hn : in_int64 (100 + 5 * 1000000000)) by (split; discriminate).
  destruct (updateLatest_freshness 100 (demo_hashmap 7) Hn) as (H1 & H2 & H3 & H4).
  split; [apply H1; discriminate |].
  split; [apply (H2 ltac:(discriminate)) |].
  split; [apply (H3 5000000101); reflexivity |].
  apply (H4 6); [discriminate | reflexivity].
Defined.

(** The mark itself is a timestamp the check lets through. *)
Lemma updateLatest_equal_accepted :
  updateLatest 100 (demo_hashmap 7) 7 = (Ok tt, demo_hashmap 7).
Proof. reflexivity. Qed.

(** ** C8: popping a lookup entry by its tag *)

Lemma popKey_present (l : lookup) tag key :
  l !! tag = Some key -> popKey l tag = (key, delete tag l).
Proof. intros H. unfold popKey, lookup_get. by rewrite H. Qed.

Lemma popKey_absent (l : lookup) tag :
  l !! tag = None -> popKey l tag = ([], l).
Proof.
  intros H. unfold popKey, lookup_get. rewrite H. by rewrite delete_id.
Qed.

(** C8.  [popKey] returns the key stored under the tag and leaves the table
    without that tag, every other entry being kept; for a tag that is not
    in the table it returns the empty key and the table as it was; a second
    [popKey] of the same tag therefore returns the empty key. *)
Theorem popKey_spec (l : lookup) (tag : string) :
  (forall key, l !! tag = Some key ->
     popKey l tag = (key, delete tag l) /\
     snd (popKey l tag) !! tag = None /\
     (forall t, t <> tag -> snd (popKey l tag) !! t = l !! t)) /\
  (l !! tag = None -> popKey l tag = ([], l)) /\
  fst (popKey (snd (popKey l tag)) tag) = [].
Proof.
  split; [| split].
  - intros key H. rewrite (popKey_present _ _ _ H). simpl.
    split; [done |]. split; [apply lookup_delete_eq |].
    intros t Ht. by apply lookup_delete_ne.
  - apply popKey_absent.
  - change (snd (popKey l tag)) with (delete tag l).
    rewrite popKey_absent; [done |]. apply lookup_delete_eq.
Qed.

(** ** C10: adding an entry to the chat log *)

Example fmt_int_decimal :
  fmt_int 15 = "15"%string /\ fmt_int (-3) = "-3"%string /\ fmt_int 0 = "0"%string.
Proof. repeat split. Qed.

(** C10.  [AddEntry] fails and leaves the log as it was when [Sent] and
    [Received] are both zero; otherwise it succeeds and files the entry
    under ["{Sent}-{ID}"], with [Received] in the place of [Sent] when
    [Sent] is zero: that key then holds the entry, whatever it held before,
    and every other key is untouched. *)
Theorem AddEntry_spec (cl : ChatLog) (entry : ChatLogEntry) :
  (Sent entry = 0 /\ Received entry = 0 ->
     AddEntry cl entry = (Err "no valid timestamp found", cl)) /\
  (Sent entry <> 0 ->
     AddEntry cl entry
       = (Ok tt, <[fmt_int (Sent entry) +:+ "-" +:+ ID entry := entry]> cl)) /\
  (Sent entry = 0 /\ Received entry <> 0 ->
     AddEntry cl entry
       = (Ok tt, <[fmt_int (Received entry) +:+ "-" +:+ ID entry := entry]> cl)) /\
  (forall cl', AddEntry cl entry = (Ok tt, cl') ->
     exists key, cl' !! key = Some entry /\
                 forall k, k <> key -> cl' !! k = cl !! k).
Proof.
  unfold AddEntry, entry_key. repeat split.
  - intros [-> ->]. done.
  - intros Hs. destruct (Z.eqb_spec (Sent entry) 0); [done |]. done.
  - intros [Hs Hr]. rewrite Hs. simpl.
    destruct (Z.eqb_spec (Received entry) 0); [done |]. done.
  - intros cl'.
    destruct ((Sent entry =? 0) && (Received entry =? 0)); [done |].
    intros [= <-]. eexists. split; [apply lookup_insert_eq |].
    intros k Hk. by apply lookup_insert_ne.
Qed.

(** ** C9: looking a hash up in the chat log *)

Lemma append_nil_l (s : string) : EmptyString +:+ s = s.
Proof. reflexivity. Qed.

Lemma append_cons (a : ascii) (s t : string) :
  String a s +:+ t = String a (s +:+ t).
Proof. reflexivity. Qed.

Lemma strings_HasPrefix_spec s p :
  strings_HasPrefix s p = true <-> exists post, s = p +:+ post.
Proof.
  revert s. induction p as [| a p IH]; intros s.
  - split; [intros _; exists s; reflexivity | intros _; by destruct s].
  - destruct s as [| b s]; simpl.
    + split; [done |]. intros [post H]. rewrite append_cons in H. done.
    + destruct (Ascii.eqb_spec a b) as [-> | Hne].
      * rewrite IH. split; intros [post H]; exists post.
        -- rewrite append_cons. by rewrite H.
        -- rewrite append_cons in H. by injection H.
      * split; [done |]. intros [post H]. rewrite append_cons in H.
        injection H as H1 H2. congruence.
Qed.

Lemma strings_Contains_nil h :
  strings_Contains EmptyString h = strings_HasPrefix EmptyString h || false.
Proof. reflexivity. Qed.

Lemma strings_Contains_cons a s h :
  strings_Contains (String a s) h
  = strings_HasPrefix (String a s) h || strings_Contains s h.
Proof. reflexivity. Qed.

Lemma strings_Contains_spec s h :
  strings_Contains s h = true <-> exists pre post, s = pre +:+ h +:+ post.
Proof.
  induction s as [| a s IH].
  - rewrite strings_Contains_nil, orb_false_r, strings_HasPrefix_spec. split.
    + intros [post H]. by exists EmptyString, post.
    + intros [pre [post H]]. destruct pre as [| b pre].
      * by exists post.
      * rewrite append_cons in H. done.
  - rewrite strings_Contains_cons, orb_true_iff, strings_HasPrefix_spec, IH. split.
    + intros [[post H] | [pre [post H]]].
      * by exists EmptyString, post.
      * exists (String a pre), post. rewrite append_cons. by rewrite H.
    + intros [pre [post H]]. destruct pre as [| b pre].
      * left. by exists post.
      * right. exists pre, post. rewrite append_cons in H. by injection H.
Qed.

Lemma strings_Contains_empty s : strings_Contains s EmptyString = true.
Proof. apply strings_Contains_spec. by exists EmptyString, s. Qed.

Lemma HashInLog_spec (cl : ChatLog) h :
  HashInLog cl h = true <->
  exists key entry, cl !! key = Some entry /\
                    exists pre post, key = pre +:+ h +:+ post.
Proof.
  unfold HashInLog. rewrite existsb_exists. split.
  - intros [[key entry] [Hin Hc]]. exists key, entry. split.
    + apply elem_of_map_to_list. by apply list_elem_of_In.
    + by apply strings_Contains_spec.
  - intros (key & entry & Hl & Hc). exists (key, entry). split.
    + apply list_elem_of_In. by apply elem_of_map_to_list.
    + by apply strings_Contains_spec.
Qed.

Lemma HashInLog_empty_hash (cl : ChatLog) :
  cl <> ∅ -> HashInLog cl EmptyString = true.
Proof.
  intros Hne. apply HashInLog_spec.
  destruct (map_choose cl Hne) as (key & entry & H).
  exists key, entry. split; [done |]. by exists EmptyString, key.
Qed.

(** ** C3 and C7: the chunked cipher *)

Lemma len_app {A} (a b : list A) : len (a ++ b) = len a + len b.
Proof. unfold len. rewrite length_app. lia. Qed.

Lemma len_nonneg {A} (a : list A) : 0 <= len a.
Proof. unfold len. lia. Qed.

Lemma len_drop {A} (a : list A) n : len (drop n a) = len a - Z.of_nat (Nat.min n (length a)).
Proof. unfold len. rewrite length_drop. lia. Qed.

Lemma go_copy_length dst src : length (go_copy dst src) = length dst.
Proof. unfold go_copy. rewrite length_app, length_take, length_drop. lia. Qed.

Lemma copy_into_length n src : length (copy_into n src) = n.
Proof. unfold copy_into. by rewrite go_copy_length, repeat_length. Qed.

Lemma copy_into_id n l : length l = n -> copy_into n l = l.
Proof.
  intros <-. unfold copy_into, go_copy. rewrite repeat_length.
  rewrite firstn_all, drop_ge by (rewrite repeat_length; lia).
  apply app_nil_r.
Qed.

Lemma go_slice_ok {A} (l : list A) lo hi :
  0 <= lo -> lo <= hi -> hi <= len l ->
  go_slice l lo hi = Ok (take (Z.to_nat (hi - lo)) (drop (Z.to_nat lo) l)).
Proof.
  intros H1 H2 H3. unfold go_slice.
  destruct (Z.leb_spec 0 lo); [| lia].
  destruct (Z.leb_spec lo hi); [| lia].
  destruct (Z.leb_spec hi (len l)); [| lia]. done.
Qed.

Lemma next_chunk_ok data i C :
  0 <= i -> i < len data -> 0 < C ->
  next_chunk data i C = Ok (take (Z.to_nat C) (drop (Z.to_nat i) data)).
Proof.
  intros Hi Hl HC. unfold next_chunk.
  assert (Hd : len (drop (Z.to_nat i) data) = len data - i).
  { rewrite len_drop. unfold len in *. lia. }
  destruct (Z.geb_spec (len (drop (Z.to_nat i) data)) C) as [Hge | Hlt].
  - rewrite go_slice_ok by lia. by replace (i + C - i) with C by lia.
  - rewrite take_ge; [done |]. unfold len in *. lia.
Qed.

Section CipherProofs.
Context (E : Env) (HE : secretbox_laws E).
Context (s : SecretBoxCipher) (Hs : 0 < ChunkSize s).

Lemma Z_to_nat_len {A} (l : list A) : Z.to_nat (len l) = length l.
Proof. unfold len. lia. Qed.

Lemma Decrypt_loop_done f data k i acc :
  len data <= i -> Decrypt_loop E f s data k i acc = Ok acc.
Proof.
  intros H. destruct f; simpl; destruct (Z.ltb_spec i (len data)); done || lia.
Qed.

Lemma Decrypt_loop_step k f pre n chunk out' pacc :
  length n = 24%nat ->
  (len chunk = ChunkSize s \/ (out' = [] /\ len chunk <= ChunkSize s)) ->
  Decrypt_loop E (S f) s (pre ++ (n ++ secretbox_Seal E chunk n k) ++ out') k
    (len pre) pacc
  = Decrypt_loop E f s (pre ++ (n ++ secretbox_Seal E chunk n k) ++ out') k
      (len pre + (ChunkSize s + 40)) (pacc ++ chunk).
Proof.
  intros Hn Hc. destruct HE as [Hlen Hopen].
  set (box := secretbox_Seal E chunk n k).
  set (enc := n ++ box).
  assert (Hbox : len box = len chunk + 16).
  { unfold len, box. rewrite Hlen. lia. }
  assert (Henc : len enc = len chunk + 40).
  { unfold enc. rewrite len_app, Hbox. unfold len. rewrite Hn. lia. }
  pose proof (len_nonneg chunk) as Hc0. pose proof (len_nonneg pre) as Hp0.
  pose proof (len_nonneg out') as Ho0.
  cbn [Decrypt_loop].
  destruct (Z.ltb_spec (len pre) (len (pre ++ enc ++ out'))) as [_ | Hge];
    [| rewrite !len_app in Hge; lia].
  unfold secretBoxDecryptionOffset, secretBoxNonceLength.
  rewrite next_chunk_ok by (rewrite ?len_app; lia).
  rewrite Z_to_nat_len, drop_app_length.
  assert (Htake : take (Z.to_nat (ChunkSize s + 40)) (enc ++ out') = enc).
  { destruct Hc as [Hc | [-> Hc]].
    - apply take_app_length'. unfold len in *. lia.
    - rewrite app_nil_r. apply take_ge. unfold len in *. lia. }
  rewrite Htake. cbn [rbind].
  rewrite go_slice_ok by lia. cbn [rbind].
  rewrite go_slice_ok by lia. cbn [rbind].
  replace (take (Z.to_nat (24 - 0)) (drop (Z.to_nat 0) enc)) with n.
  2:{ simpl. unfold enc. symmetry. apply take_app_length'. done. }
  replace (take (Z.to_nat (len enc - 24)) (drop (Z.to_nat 24) enc)) with box.
  2:{ unfold enc. replace (Z.to_nat 24) with (length n) by lia.
      rewrite drop_app_length. symmetry. apply take_ge.
      rewrite len_app. unfold len in *. lia. }
  rewrite (copy_into_id 24 n Hn). unfold box. rewrite Hopen. done.
Qed.

Lemma Encrypt_loop_spec data k fuel : forall i acc d,
  0 <= i -> len data - i <= Z.of_nat fuel ->
  exists out d',
    Encrypt_loop E fuel s data k i acc d = (Ok (acc ++ out), d') /\
    (len data <= i -> out = []) /\
    (i <= len data ->
       len out = (len data - i)
                 + 40 * ((len data - i + ChunkSize s - 1) / ChunkSize s)) /\
    (forall pre pacc fuel2, (length out <= fuel2)%nat ->
       Decrypt_loop E fuel2 s (pre ++ out) k (len pre) pacc
       = Ok (pacc ++ drop (Z.to_nat i) data)).
Proof.
  induction fuel as [| fuel IH]; intros i acc d Hi Hf.
  - exists [], d. cbn [Encrypt_loop].
    destruct (Z.ltb_spec i (len data)); [lia |].
    rewrite app_nil_r. split; [done |]. split; [done |]. split.
    + intros Hle. replace (len data - i) with 0 by lia.
      rewrite Z.div_small by lia. done.
    + intros pre pacc fuel2 _. rewrite app_nil_r.
      rewrite Decrypt_loop_done by lia.
      rewrite drop_ge by (unfold len in *; lia). by rewrite app_nil_r.
  - cbn [Encrypt_loop].
    destruct (Z.ltb_spec i (len data)) as [Hlt | Hge].
    2:{ exists [], d. rewrite app_nil_r. split; [done |]. split; [done |]. split.
        - intros Hle. replace (len data - i) with 0 by lia.
          rewrite Z.div_small by lia. done.
        - intros pre pacc fuel2 _. rewrite app_nil_r.
          rewrite Decrypt_loop_done by lia.
          rewrite drop_ge by (unfold len in *; lia). by rewrite app_nil_r. }
    rewrite next_chunk_ok by lia.
    set (chunk := take (Z.to_nat (ChunkSize s)) (drop (Z.to_nat i) data)).
    destruct (genNonce E s d) as [nonce d1].
    set (n := copy_into 24 nonce).
    assert (Hn : length n = 24%nat) by apply copy_into_length.
    set (enc := n ++ secretbox_Seal E chunk n k).
    destruct (IH (i + ChunkSize s) (acc ++ enc) d1) as (out' & d' & Heq & Hnil & Hlen & Hdec);
      [lia | lia |].
    exists (enc ++ out'), d'. rewrite Heq, <- app_assoc.
    split; [done |].
    assert (Hchunk : len chunk = Z.min (ChunkSize s) (len data - i)).
    { unfold chunk, len. rewrite length_take, length_drop. unfold len in *. lia. }
    assert (Hencl : len enc = len chunk + 40).
    { unfold enc. rewrite len_app. unfold len. destruct HE as [Hl _].
      rewrite Hl, Hn. lia. }
    split; [intros; lia |]. split.
    + intros _. rewrite len_app, Hencl, Hchunk.
      destruct (Z.le_gt_cases (len data) (i + ChunkSize s)) as [Hlast | Hmore].
      * rewrite (Hnil Hlast). unfold len at 2. simpl.
        replace ((len data - i + ChunkSize s - 1) / ChunkSize s) with 1; [lia |].
        apply Z.div_unique with (r := len data - i - 1); lia.
      * rewrite Hlen by lia.
        replace (len data - i + ChunkSize s - 1)
          with ((len data - (i + ChunkSize s) + ChunkSize s - 1) + 1 * ChunkSize s) by lia.
        rewrite Z.div_add by lia. lia.
    + intros pre pacc fuel2 Hfuel2.
      destruct fuel2 as [| fuel2].
      { rewrite length_app in Hfuel2. unfold len in Hencl. lia. }
      unfold enc. rewrite Decrypt_loop_step; [| done |].
      2:{ destruct (Z.le_gt_cases (len data) (i + ChunkSize s)) as [Hlast | Hmore].
          - right. split; [by apply Hnil | lia].
          - left. lia. }
      fold enc.
      destruct (Z.le_gt_cases (len data) (i + ChunkSize s)) as [Hlast | Hmore].
      * rewrite (Hnil Hlast), app_nil_r.
        rewrite Decrypt_loop_done by (rewrite len_app; lia).
        f_equal. f_equal. unfold chunk. apply take_ge.
        rewrite length_drop. unfold len in *. lia.
      * replace (len pre + (ChunkSize s + 40)) with (len (pre ++ enc))
          by (rewrite len_app; lia).
        rewrite (app_assoc pre enc out').
        rewrite Hdec by (rewrite length_app in Hfuel2; unfold len in Hencl; lia).
        rewrite <- app_assoc. f_equal. f_equal.
        unfold chunk.
        replace (Z.to_nat (i + ChunkSize s))
          with (Z.to_nat i + Z.to_nat (ChunkSize s))%nat by lia.
        rewrite <- drop_drop. apply take_drop.
Qed.

End CipherProofs.

Lemma bytes_eqb_refl l : bytes_eqb l l = true.
Proof.
  induction l as [| b l IH]; [done |]. simpl.
  rewrite IH, andb_true_r. by apply Byte.byte_dec_lb.
Qed.

Lemma demo_secretbox_laws fetch : secretbox_laws (demo_env fetch).
Proof.
  assert (Ha : forall k, length (demo_auth k) = 16%nat).
  { intros k. apply copy_into_length. }
  split; simpl; intros m n k; unfold demo_Seal.
  - rewrite length_app, Ha. lia.
  - unfold demo_Open. rewrite length_app, Ha.
    destruct (Nat.ltb_spec (16 + length m) 16); [lia |].
    rewrite take_app_length' by done. rewrite bytes_eqb_refl.
    by rewrite drop_app_length' by done.
Qed.


(** C7, as the code has it.  For a plaintext of [L] bytes, a chunk size
    [C > 0] and a 32-byte key the ciphertext has [L + 40 * ceil(L/C)] bytes,
    [ceil(L/C)] being [(L + C - 1) / C]: every chunk carries its 24-byte
    nonce and 16-byte authenticator and the last chunk is not padded.  The
    length is [ceil(L/C) * (C + 40)] when [C] divides [L]. *)
Theorem Encrypt_length (E : Env) (s : SecretBoxCipher) (p k : list byte) (d : nat) :
  secretbox_laws E -> 0 < ChunkSize s -> len k = 32 ->
  exists ct d', Encrypt E s p k d = (Ok ct, d') /\
    len ct = len p + 40 * ((len p + ChunkSize s - 1) / ChunkSize s) /\
    (len p mod ChunkSize s = 0 ->
       len ct = ((len p + ChunkSize s - 1) / ChunkSize s) * (ChunkSize s + 40)).
Proof.
  intros HE Hs Hk.
  destruct (Encrypt_loop_spec E HE s Hs p (copy_into 32 k) (length p) 0 [] d)
    as (out & d' & Henc & _ & Hlen & _); [lia | unfold len; lia |].
  exists out, d'. unfold Encrypt, secretBoxKeyLength. rewrite Hk. simpl negb.
  cbv iota. split; [exact Henc |].
  pose proof (len_nonneg p) as Hp.
  rewrite Z.sub_0_r in Hlen. specialize (Hlen Hp). split; [exact Hlen |].
  intros Hmod. rewrite Hlen.
  apply Z.mod_divide in Hmod; [| lia]. destruct Hmod as [q Hq].
  rewrite Hq.
  replace (q * ChunkSize s + ChunkSize s - 1) with ((ChunkSize s - 1) + q * ChunkSize s) by lia.
  rewrite Z.div_add by lia. rewrite Z.div_small by lia. lia.
Qed.


Lemma Encrypt_length_witness :
  exists ct d',
    Encrypt (demo_env offline) newDefaultSBCipher [x68; x69] demo_key 0 = (Ok ct, d') /\
    len ct = len [x68; x69]
             + 40 * ((len [x68; x69] + ChunkSize newDefaultSBCipher - 1)
                     / ChunkSize newDefaultSBCipher) /\
    (len [x68; x69] mod ChunkSize newDefaultSBCipher = 0 ->
       len ct = ((len [x68; x69] + ChunkSize newDefaultSBCipher - 1)
                 / ChunkSize newDefaultSBCipher)
                * (ChunkSize newDefaultSBCipher + 40)).
Proof.
  apply (Encrypt_length (demo_env offline) newDefaultSBCipher [x68; x69] demo_key 0).
  - apply demo_secretbox_laws.
  - reflexivity.
  - reflexivity.
Defined.

(** One byte under the default chunk size of 16000 gives 41 bytes of
    ciphertext, not 16040. *)
Lemma Encrypt_length_counterexample :
  exists ct d',
    Encrypt (demo_env offline) newDefaultSBCipher [x2a] demo_key 0 = (Ok ct, d') /\
    len ct = 41 /\
    ((len [x2a] + 16000 - 1) / 16000) * (16000 + 40) = 16040.
Proof. eexists _, _. split; [vm_compute; reflexivity |]. split; reflexivity. Qed.

(** ** Decrypt returns, whatever the chunk size *)

Lemma go_slice_Ok_inv {A} (l : list A) lo hi r :
  go_slice l lo hi = Ok r ->
  0 <= lo /\ lo <= hi /\ hi <= len l /\ len r = hi - lo.
Proof.
  unfold go_slice.
  destruct (Z.leb_spec 0 lo); [| done].
  destruct (Z.leb_spec lo hi); [| done].
  destruct (Z.leb_spec hi (len l)); [| done]. simpl.
  intros [= <-]. repeat split; try done.
  unfold len in *. rewrite length_take, length_drop. lia.
Qed.

Lemma go_slice_not_Diverge {A} (l : list A) lo hi : go_slice l lo hi <> Diverge.
Proof. unfold go_slice. by destruct (_ && _). Qed.

Section DecryptEnds.
Context (E : Env) (s : SecretBoxCipher) (data : list byte).

(** [Decrypt] ends within [len(data)] iterations whatever the chunk size:
    an iteration that goes on has read a chunk of at least 24 bytes, and
    the index has advanced by at least as much. *)
Lemma Decrypt_loop_ends k fuel : forall i acc,
  0 <= i -> len data - i <= Z.of_nat fuel ->
  Decrypt_loop E fuel s data k i acc <> Diverge.
Proof.
  induction fuel as [| fuel IH]; intros i acc Hi Hf; cbn [Decrypt_loop].
  - destruct (Z.ltb_spec i (len data)); [lia | done].
  - destruct (Z.ltb_spec i (len data)) as [Hlt |]; [| done].
    unfold next_chunk, secretBoxDecryptionOffset, secretBoxNonceLength.
    set (cs := ChunkSize s + 40).
    assert (Hrest : len (drop (Z.to_nat i) data) = len data - i).
    { unfold len. rewrite length_drop. unfold len in Hlt. lia. }
    destruct (Z.geb_spec (len (drop (Z.to_nat i) data)) cs) as [Hge | Hsmall].
    + destruct (go_slice data i (i + cs)) as [chunk | | |] eqn:Hc;
        cbn [rbind]; try done; [| by apply go_slice_not_Diverge in Hc].
      apply go_slice_Ok_inv in Hc as (_ & _ & _ & Hlen).
      destruct (go_slice chunk 0 24) as [nonce | | |] eqn:Hn;
        cbn [rbind]; try done; [| by apply go_slice_not_Diverge in Hn].
      apply go_slice_Ok_inv in Hn as (_ & _ & Hn & _).
      destruct (go_slice chunk 24 (len chunk)) as [box | | |] eqn:Hb;
        cbn [rbind]; try done; [| by apply go_slice_not_Diverge in Hb].
      destruct (secretbox_Open E box _ k); [| done].
      apply IH; lia.
    + cbn [rbind].
      destruct (go_slice (drop (Z.to_nat i) data) 0 24) as [nonce | | |] eqn:Hn;
        cbn [rbind]; try done; [| by apply go_slice_not_Diverge in Hn].
      apply go_slice_Ok_inv in Hn as (_ & _ & Hn & _).
      destruct (go_slice _ 24 _) as [box | | |] eqn:Hb; cbn [rbind]; try done;
        [| by apply go_slice_not_Diverge in Hb].
      destruct (secretbox_Open E box _ k); [| done].
      apply IH; lia.
Qed.

Lemma Decrypt_ends key : Decrypt E s data key <> Diverge.
Proof.
  unfold Decrypt. destruct (negb _); [done |].
  apply Decrypt_loop_ends; unfold len; lia.
Qed.

End DecryptEnds.

(** ** C2: generating the lookup table *)

Lemma IDKey_length E p s t m th keyLen :
  length (IDKey E p s t m th keyLen) = Z.to_nat keyLen.
Proof. unfold IDKey. by rewrite go_copy_length, repeat_length. Qed.

Section GenLookups.
Context (E : Env) (lookupBytes keyBytes : list byte).

Lemma genLookups_loop_spec n : forall (i : nat) (m : lookup),
  (1 <= i)%nat ->
  Z.of_nat (i - 1 + n) * 24 <= len lookupBytes ->
  Z.of_nat (i - 1 + n) * 32 <= len keyBytes ->
  genLookups_loop n (Z.of_nat i) lookupBytes keyBytes secretBoxKeyLength m
  = Ok (foldl (fun m i =>
                 <[base64_EncodeToString (take 24 (drop ((i - 1) * 24) lookupBytes))
                   := take 32 (drop ((i - 1) * 32) keyBytes)]> m)
              m (seq i n)).
Proof.
  induction n as [| n IH]; intros i m Hi Hl Hk; [done |].
  cbn [genLookups_loop seq foldl].
  unfold lookupHashLength, secretBoxKeyLength in *.
  rewrite go_slice_ok by lia. cbn [rbind].
  rewrite go_slice_ok by lia. cbn [rbind].
  replace (Z.of_nat i + 1) with (Z.of_nat (Datatypes.S i)) by lia.
  rewrite IH by lia.
  replace (Z.to_nat (Z.of_nat i * 24 - (Z.of_nat i - 1) * 24)) with 24%nat by lia.
  replace (Z.to_nat (Z.of_nat i * 32 - (Z.of_nat i - 1) * 32)) with 32%nat by lia.
  replace (Z.to_nat ((Z.of_nat i - 1) * 24)) with ((i - 1) * 24)%nat by lia.
  replace (Z.to_nat ((Z.of_nat i - 1) * 32)) with ((i - 1) * 32)%nat by lia.
  done.
Qed.

(** When the tag stream holds a single entry the second iteration of the
    loop slices past its end. *)
Lemma genLookups_loop_short_stream n (m : lookup) :
  len lookupBytes = 24 -> len keyBytes = 32 ->
  genLookups_loop (Datatypes.S (Datatypes.S n)) 1 lookupBytes keyBytes
    secretBoxKeyLength m
  = Panic "slice bounds out of range".
Proof.
  intros Hl Hk. cbn [genLookups_loop].
  unfold lookupHashLength, secretBoxKeyLength.
  rewrite (go_slice_ok lookupBytes) by lia. cbn [rbind].
  rewrite (go_slice_ok keyBytes) by lia. cbn [rbind].
  unfold go_slice at 1. rewrite Hl. done.
Qed.

End GenLookups.

(** For [count = 2^29 + 1] the lengths handed to Argon2id are 24 and 32,
    whatever the environment: [genLookups] panics. *)
Lemma genLookups_truncated (E : Env) (pepper entropy : list byte) :
  genLookups E pepper entropy SecretBox 536870913
  = Panic "slice bounds out of range".
Proof.
  unfold genLookups.
  change (536870913 <? 1) with false.
  change (SecretBox =? SecretBox) with true. cbv iota.
  change (uint32 (int64_mul 536870913 lookupHashLength)) with 24.
  change (uint32 (int64_mul 536870913 secretBoxKeyLength)) with 32.
  replace (Z.to_nat (536870913 - 1))
    with (Datatypes.S (Datatypes.S (Z.to_nat 536870910))) by lia.
  apply genLookups_loop_short_stream; unfold len; by rewrite IDKey_length.
Qed.

Section FoldInsert.
Context {V : Type} (f : nat -> string) (g : nat -> V).

Lemma foldl_insert_size (l : list nat) : forall m : gmap string V,
  (size (foldl (fun m i => <[f i := g i]> m) m l) <= size m + length l)%nat.
Proof.
  induction l as [| i l IH]; intros m; simpl; [lia |].
  etrans; [apply IH |]. rewrite map_size_insert.
  destruct (m !! f i); unfold id; lia.
Qed.

Lemma foldl_insert_lookup_other (l : list nat) : forall (m : gmap string V) t,
  t ∉ map f l -> foldl (fun m i => <[f i := g i]> m) m l !! t = m !! t.
Proof.
  induction l as [| i l IH]; intros m t Ht; simpl; [done |].
  simpl in Ht. rewrite not_elem_of_cons in Ht. destruct Ht as [Hne Ht].
  rewrite IH by done. by apply lookup_insert_ne.
Qed.

Lemma foldl_insert_NoDup (l : list nat) : forall m : gmap string V,
  NoDup (map f l) -> (forall i, i ∈ l -> m !! f i = None) ->
  (size (foldl (fun m i => <[f i := g i]> m) m l) = size m + length l)%nat /\
  forall i, i ∈ l -> foldl (fun m i => <[f i := g i]> m) m l !! f i = Some (g i).
Proof.
  induction l as [| i l IH]; intros m Hnd Hfresh; simpl.
  - split; [lia |]. intros i Hi. by apply elem_of_nil in Hi.
  - simpl in Hnd. apply NoDup_cons in Hnd as [Hi Hnd].
    destruct (IH (<[f i := g i]> m) Hnd) as [Hsize Hlook].
    { intros j Hj. rewrite lookup_insert_ne; [apply Hfresh; by right |].
      intros Heq. apply Hi. rewrite Heq. apply list_elem_of_fmap. by exists j. }
    split.
    + rewrite Hsize, map_size_insert, (Hfresh i) by (by left). lia.
    + intros j Hj. apply elem_of_cons in Hj as [-> | Hj]; [| by apply Hlook].
      rewrite foldl_insert_lookup_other by done. apply lookup_insert_eq.
Qed.

Lemma foldl_insert_origin (l : list nat) : forall (m : gmap string V) t v,
  foldl (fun m i => <[f i := g i]> m) m l !! t = Some v ->
  m !! t = Some v \/ exists i, i ∈ l /\ t = f i /\ v = g i.
Proof.
  induction l as [| i l IH]; intros m t v H; simpl in H; [by left |].
  destruct (IH _ _ _ H) as [Hm | (j & Hj & -> & ->)].
  - destruct (decide (f i = t)) as [<- | Hne].
    + rewrite lookup_insert_eq in Hm. injection Hm as <-.
      right. exists i. split; [by left | done].
    + rewrite lookup_insert_ne in Hm by done. by left.
  - right. exists j. split; [by right | done].
Qed.

End FoldInsert.

Lemma uint32_int64_mul_small a b :
  0 <= a * b < 2 ^ 32 -> uint32 (int64_mul a b) = a * b.
Proof.
  intros H. unfold uint32, int64_mul.
  rewrite int64_wrap_id by (unfold in_int64, min_int64, max_int64; lia).
  apply Z.mod_small. lia.
Qed.

(** C2, as the code has it.  [genLookups] fails for [count < 1].  For
    [count >= 1] with [32 * count < 2^32] (so that the lengths handed to
    Argon2id as [uint32] are not truncated) and the SecretBox cipher type it
    returns the table built from the entries [i = 1 .. count - 1], entry [i]
    having the tag [base64(tag_stream[(i-1)*24 .. i*24])] and the key
    [key_stream[(i-1)*32 .. i*32]]: the raw tags are 24 and the keys 32 bytes
    long, every entry of the table is one of these, the table has at most
    [count - 1] entries, and when the tags are pairwise distinct it has
    exactly [count - 1] entries and maps every tag to its key. *)
Theorem genLookups_table (E : Env) (pepper entropy : list byte) (count : Z) :
  (count < 1 ->
     forall cipherType,
       genLookups E pepper entropy cipherType count
       = Err "count must be greater than or equal to 1") /\
  (1 <= count -> count * 32 < 2 ^ 32 ->
     genLookups E pepper entropy SecretBox count
       = Ok (table_of E pepper entropy count) /\
     (forall i : nat, 1 <= Z.of_nat i < count ->
        length (gen_tag_bytes E pepper entropy count i) = 24%nat /\
        length (gen_key E entropy count i) = 32%nat) /\
     (forall t v, table_of E pepper entropy count !! t = Some v ->
        exists i : nat, 1 <= Z.of_nat i < count /\
          t = gen_tag E pepper entropy count i /\ v = gen_key E entropy count i) /\
     Z.of_nat (size (table_of E pepper entropy count)) <= count - 1 /\
     (NoDup (map (gen_tag E pepper entropy count) (seq 1 (Z.to_nat (count - 1)))) ->
        Z.of_nat (size (table_of E pepper entropy count)) = count - 1 /\
        forall i : nat, 1 <= Z.of_nat i < count ->
          table_of E pepper entropy count !! gen_tag E pepper entropy count i
          = Some (gen_key E entropy count i))).
Proof.
  split.
  - intros Hc cipherType. unfold genLookups.
    destruct (Z.ltb_spec count 1); [done | lia].
  - intros Hc Hb.
    assert (Hts : length (tag_stream E pepper entropy count) = Z.to_nat (count * 24)).
    { unfold tag_stream. apply IDKey_length. }
    assert (Hks : length (key_stream E entropy count) = Z.to_nat (count * 32)).
    { unfold key_stream. apply IDKey_length. }
    split; [| split; [| split; [| split]]].
    + unfold genLookups. destruct (Z.ltb_spec count 1); [lia |].
      change (SecretBox =? SecretBox) with true. cbv iota.
      unfold lookupHashLength, secretBoxKeyLength.
      rewrite !uint32_int64_mul_small by lia.
      fold (tag_stream E pepper entropy count).
      fold (key_stream E entropy count).
      change 1 with (Z.of_nat 1) at 2.
      change 32 with secretBoxKeyLength at 1.
      rewrite genLookups_loop_spec; [done | lia | |]; unfold len; lia.
    + intros i Hi. unfold gen_key, gen_tag_bytes.
      rewrite !length_take, !length_drop, Hts, Hks. lia.
    + intros t v H. unfold table_of in H.
      apply foldl_insert_origin in H as [H | (i & Hi & -> & ->)]; [done |].
      exists i. split; [| done]. apply elem_of_seq in Hi. lia.
    + unfold table_of.
      pose proof (foldl_insert_size (gen_tag E pepper entropy count)
                    (gen_key E entropy count) (seq 1 (Z.to_nat (count - 1))) ∅) as H.
      rewrite map_size_empty, length_seq in H. lia.
    + intros Hnd.
      destruct (foldl_insert_NoDup (gen_tag E pepper entropy count)
                  (gen_key E entropy count) (seq 1 (Z.to_nat (count - 1))) ∅ Hnd)
        as [Hsize Hlook]; [done |].
      fold (table_of E pepper entropy count) in Hsize, Hlook.
      rewrite map_size_empty, length_seq in Hsize. split; [lia |].
      intros i Hi. apply Hlook. apply elem_of_seq. lia.
Qed.

Example base64_rfc4648 :
  base64_EncodeToString [x4d; x61; x6e] = "TWFu"%string /\
  base64_EncodeToString [x4d; x61] = "TWE="%string /\
  base64_EncodeToString [x4d] = "TQ=="%string /\
  base64_EncodeToString [xfb; xff] = "+/8="%string.
Proof. repeat split. Qed.

Lemma genLookups_table_witness :
  genLookups (demo_env offline) (repeat x00 64) (repeat x01 96) SecretBox 3
    = Ok (table_of (demo_env offline) (repeat x00 64) (repeat x01 96) 3) /\
  Z.of_nat (size (table_of (demo_env offline) (repeat x00 64) (repeat x01 96) 3)) = 3 - 1.
Proof.
  destruct (genLookups_table (demo_env offline) (repeat x00 64) (repeat x01 96) 3)
    as [_ H].
  destruct H as (Hgen & _ & _ & _ & Hsize); [lia | reflexivity |].
  split; [exact Hgen |].
  apply Hsize. apply (bool_decide_unpack _). vm_compute. reflexivity.
Defined.

(** With [count = 2^29 + 1] the lengths [count * 24] and [count * 32] are
    truncated by [uint32] to 24 and 32: each stream holds one entry and the
    second iteration of the loop slices past its end. *)
Lemma genLookups_truncated_count_panics :
  genLookups (demo_env offline) (repeat x00 64) (repeat x01 96) SecretBox 536870913
    = Panic "slice bounds out of range" /\
  uint32 (int64_mul 536870913 lookupHashLength) = 24 /\
  uint32 (int64_mul 536870913 secretBoxKeyLength) = 32.
Proof. split; [lazy; reflexivity | split; reflexivity]. Qed.

(** ** The session monad: outcomes and inversion *)

Lemma noErr_ret {A} (a : A) : noErr (ret a).
Proof. done. Qed.

Lemma noErr_lift {A} (r : result A) : is_Err r = false -> noErr (lift r).
Proof. by intros H w. Qed.

Lemma noErr_try {A B} (m : M A) (h : string -> M B) (k : A -> M B) :
  (forall e, noErr (h e)) -> (forall a, noErr (k a)) -> noErr (try m h k).
Proof.
  intros Hh Hk w. unfold try. destruct (m w) as [[a | e | p |] w1]; simpl.
  - apply Hk.
  - apply Hh.
  - done.
  - done.
Qed.

Lemma noErr_bind {A B} (m : M A) (k : A -> M B) :
  noErr m -> (forall a, noErr (k a)) -> noErr (bind m k).
Proof.
  intros Hm Hk w. unfold bind, try. specialize (Hm w).
  destruct (m w) as [[a | e | p |] w1]; simpl in *; try done. apply Hk.
Qed.

Lemma go_slice_not_Err {A} (l : list A) lo hi : is_Err (go_slice l lo hi) = false.
Proof. unfold go_slice. by destruct (_ && _). Qed.

Section SessionProofs.
Context (E : Env) (S : Session).

Lemma getRendezvousHash_noErr chatID peerID :
  noErr (getRendezvousHash E S chatID peerID).
Proof.
  unfold getRendezvousHash.
  apply noErr_try; [intros; apply noErr_ret | intros c].
  apply noErr_try; [intros; apply noErr_ret | intros l].
  apply noErr_try; [intros; apply noErr_ret | intros rc].
  apply noErr_bind; [apply noErr_lift, go_slice_not_Err | intros tag].
  destruct (popKey l (base64_EncodeToString tag)) as [rKey l'].
  apply noErr_try; [intros; apply noErr_ret | intros _].
  apply noErr_bind; [apply noErr_lift, go_slice_not_Err | intros ct].
  apply noErr_try; [intros; apply noErr_ret | intros hashBytes].
  apply noErr_try; [intros; apply noErr_ret | intros cl].
  destruct (HashInLog cl _); [apply noErr_ret |].
  apply noErr_try; intros; apply noErr_ret.
Qed.

Lemma RetrieveMessages_body_noErr chatID self peerID :
  noErr (RetrieveMessages_body E S chatID self peerID).
Proof.
  unfold RetrieveMessages_body.
  destruct (String.eqb peerID self); [apply noErr_ret |].
  apply noErr_bind; [apply getRendezvousHash_noErr | intros hash].
  destruct (String.eqb hash ""); [apply noErr_ret |].
  apply noErr_try; [intros; apply noErr_ret | intros data].
  apply noErr_try; [intros; apply noErr_ret | intros _].
  apply noErr_try; intros; apply noErr_ret.
Qed.

Lemma RetrieveMessages_loop_noErr chatID self peers :
  noErr (RetrieveMessages_loop E S chatID self peers).
Proof.
  induction peers as [| p peers IH]; [apply noErr_ret |].
  cbn [RetrieveMessages_loop].
  apply noErr_bind; [apply RetrieveMessages_body_noErr | by intros _].
Qed.

Lemma RetrieveMessages_loop_continues chatID self peerID peers w w1 :
  RetrieveMessages_body E S chatID self peerID w = (Ok tt, w1) ->
  RetrieveMessages_loop E S chatID self (peerID :: peers) w
  = RetrieveMessages_loop E S chatID self peers w1.
Proof.
  intros H. cbn [RetrieveMessages_loop]. unfold bind, try. by rewrite H.
Qed.

Lemma GetChatLog_world chatID w r w' :
  GetChatLog S chatID w = (r, w') -> w' = w.
Proof.
  unfold GetChatLog. destruct (kv w !! _) as [[| |] |]; by intros [= _ <-].
Qed.


Lemma RetrieveMessages_error_origin chatID w e w' :
  RetrieveMessages E S chatID w = (Err e, w') ->
  getChat S chatID w = (Err e, w') \/
  GetChatLog S chatID w' = (Err e, w') \/
  exists cl, GetChatLog S chatID w' = (Ok cl, w') /\
             json_Marshal_entries E (Sorted cl) = Err e.
Proof.
  unfold RetrieveMessages, bind at 1, try at 1.
  destruct (getChat S chatID w) as [[c | e0 | p |] w0] eqn:Hc;
    [| by (intros [= -> ->]; left) | done | done].
  unfold bind at 1, try at 1.
  pose proof (RetrieveMessages_loop_noErr chatID (PeerID c)
                (range_order E (map fst (map_to_list (Peers c)))) w0) as Hloop.
  destruct (RetrieveMessages_loop _ _ _ _ _ w0) as [[[] | e1 | p |] w1];
    [| done | done | done].
  unfold bind, try.
  destruct (GetChatLog S chatID w1) as [[cl | e2 | p |] w2] eqn:Hl;
    [| | done | done].
  - pose proof (GetChatLog_world _ _ _ _ Hl) as ->.
    unfold SortedJSON, lift. intros [= Hj <-]. right. right. by exists cl.
  - pose proof (GetChatLog_world _ _ _ _ Hl) as ->.
    unfold fail. intros [= -> <-]. right. by left.
Qed.

End SessionProofs.

Lemma bind_Ok_inv {A B} (m : M A) (k : A -> M B) w b w' :
  bind m k w = (Ok b, w') ->
  exists a w1, m w = (Ok a, w1) /\ k a w1 = (Ok b, w').
Proof.
  unfold bind, try, fail. destruct (m w) as [[a | e | p |] w1]; try done.
  intros H. by exists a, w1.
Qed.

Lemma try_Ok_inv {A B} (m : M A) (h : string -> M B) (k : A -> M B) w b w' :
  try m h k w = (Ok b, w') ->
  (exists a w1, m w = (Ok a, w1) /\ k a w1 = (Ok b, w')) \/
  (exists e w1, m w = (Err e, w1) /\ h e w1 = (Ok b, w')).
Proof.
  unfold try. destruct (m w) as [[a | e | p |] w1]; try done.
  - intros H. left. by exists a, w1.
  - intros H. right. by exists e, w1.
Qed.

Lemma lift_Ok_inv {A} (r : result A) w a w' :
  lift r w = (Ok a, w') -> r = Ok a /\ w' = w.
Proof. unfold lift. by intros [= -> ->]. Qed.

Section Keys.
Context (S : Session).

Lemma chat_key_ne_lookup_key chatID peerID :
  chat_key S chatID <> lookup_key S chatID peerID.
Proof.
  unfold chat_key, lookup_key. intros H.
  do 4 apply String.app_inj in H. discriminate H.
Qed.

Lemma chatlog_key_ne_lookup_key chatID peerID :
  chatlog_key S chatID <> lookup_key S chatID peerID.
Proof.
  unfold chatlog_key, lookup_key. intros H.
  do 4 apply String.app_inj in H. discriminate H.
Qed.

Lemma chat_key_ne_chatlog_key chatID :
  chat_key S chatID <> chatlog_key S chatID.
Proof.
  unfold chat_key, chatlog_key. intros H.
  do 4 apply String.app_inj in H. discriminate H.
Qed.

Lemma getChat_inv chatID w c w' :
  getChat S chatID w = (Ok c, w') ->
  w' = w /\ kv w !! chat_key S chatID = Some (StoredChat c).
Proof.
  unfold getChat. destruct (kv w !! _) as [[| |] |]; try done.
  by intros [= -> ->].
Qed.

Lemma getLookup_inv chatID peerID w l w' :
  getLookup S chatID peerID w = (Ok l, w') ->
  w' = w /\ kv w !! lookup_key S chatID peerID = Some (StoredLookup l).
Proof.
  unfold getLookup. destruct (kv w !! _) as [[| |] |]; try done.
  by intros [= -> ->].
Qed.

Lemma GetChatLog_inv chatID w cl w' :
  GetChatLog S chatID w = (Ok cl, w') ->
  w' = w /\ kv w !! chatlog_key S chatID = Some (StoredChatLog cl).
Proof.
  unfold GetChatLog. destruct (kv w !! _) as [[| |] |]; try done.
  by intros [= -> ->].
Qed.

Lemma GetChatLog_Err_inv chatID w e w' :
  GetChatLog S chatID w = (Err e, w') ->
  w' = w /\ forall cl, kv w !! chatlog_key S chatID <> Some (StoredChatLog cl).
Proof.
  unfold GetChatLog. destruct (kv w !! _) as [[| |] |]; try done;
    by intros [= _ <-].
Qed.

End Keys.

Section SetInv.
Context (E : Env) (S : Session).

Lemma Session_set_inv key v w w' :
  Session_set E key v w = (Ok tt, w') ->
  kv w' = <[key := v]> (kv w) /\ draws w' = draws w /\ trace w' = trace w.
Proof.
  unfold Session_set. destruct (kv_Set_error E key); [done |].
  by intros [= <-].
Qed.

Lemma emit_inv e w u w' :
  emit e w = (Ok u, w') -> kv w' = kv w.
Proof. unfold emit. by intros [= _ <-]. Qed.

Lemma peer_Decrypt_inv c peerID data key w r w' :
  peer_Decrypt E c peerID data key w = (r, w') -> w' = w.
Proof.
  unfold peer_Decrypt, lift. destruct (Peers c !! peerID); by intros [= _ <-].
Qed.

Lemma peer_Rendezvous_Get_kv c peerID w r w' :
  peer_Rendezvous_Get E c peerID w = (Ok r, w') -> kv w' = kv w.
Proof.
  unfold peer_Rendezvous_Get. destruct (Peers c !! peerID) as [p |]; [| done].
  intros H. apply bind_Ok_inv in H as (u & w1 & He & H).
  apply emit_inv in He. destruct (storage_Get _ _ _) as [r0 rdv].
  apply bind_Ok_inv in H as (b & w2 & Hl & H).
  apply lift_Ok_inv in Hl as [_ ->]. unfold ret in H. injection H as _ <-. done.
Qed.

Lemma peer_Storage_Get_kv c peerID hash w r w' :
  peer_Storage_Get E c peerID hash w = (Ok r, w') -> kv w' = kv w.
Proof.
  unfold peer_Storage_Get. destruct (Peers c !! peerID) as [p |]; [| done].
  intros H. apply bind_Ok_inv in H as (u & w1 & He & H).
  apply emit_inv in He. destruct (storage_Get _ _ _) as [r0 sto].
  apply bind_Ok_inv in H as (b & w2 & Hl & H).
  apply lift_Ok_inv in Hl as [_ ->]. unfold ret in H. injection H as _ <-. done.
Qed.

(** A hash that [getRendezvousHash] hands on is not found by [HashInLog]
    in the stored chat log. *)
Lemma getRendezvousHash_skips_logged chatID peerID w h w' cl :
  getRendezvousHash E S chatID peerID w = (Ok h, w') ->
  h <> EmptyString ->
  kv w' !! chatlog_key S chatID = Some (StoredChatLog cl) ->
  HashInLog cl h = false.
Proof.
  unfold getRendezvousHash. intros H Hne Hcl.
  apply try_Ok_inv in H as [(c & w1 & _ & H) | (? & ? & _ & [= <- _])]; [| done].
  apply try_Ok_inv in H as [(l & w2 & _ & H) | (? & ? & _ & [= <- _])]; [| done].
  apply try_Ok_inv in H as [(rc & w3 & _ & H) | (? & ? & _ & [= <- _])]; [| done].
  apply bind_Ok_inv in H as (tag & w4 & _ & H).
  destruct (popKey l (base64_EncodeToString tag)) as [rKey l'].
  apply try_Ok_inv in H as [(u & w5 & _ & H) | (? & ? & _ & [= <- _])]; [| done].
  apply bind_Ok_inv in H as (ct & w6 & _ & H).
  apply try_Ok_inv in H as [(hashBytes & w7 & _ & H) | (? & ? & _ & [= <- _])]; [| done].
  apply try_Ok_inv in H as [(cl0 & w8 & Hlog & H) | (e & w8 & Hlog & H)].
  - apply GetChatLog_inv in Hlog as [-> Hlog].
    destruct (HashInLog cl0 (string_of_list_byte hashBytes)) eqn:Hin.
    { injection H as <- _. done. }
    apply try_Ok_inv in H as [(u' & w9 & Hset & H) | (? & ? & _ & [= <- _])]; [| done].
    injection H as <- <-. destruct u'.
    apply Session_set_inv in Hset as (Hkv & _ & _).
    rewrite Hkv, lookup_insert_ne in Hcl by apply chat_key_ne_chatlog_key.
    rewrite Hlog in Hcl. by injection Hcl as <-.
  - apply GetChatLog_Err_inv in Hlog as [-> Hlog].
    injection H as _ <-. by destruct (Hlog cl).
Qed.

(** A parent that [HashInLog] finds is not retrieved. *)
Lemma recursivelyLogParents_skips_logged chatID peerID data cl w :
  kv w !! chatlog_key S chatID = Some (StoredChatLog cl) ->
  HashInLog cl (cd_Parent data) = true ->
  recursivelyLogParents E S chatID peerID data w = (Ok tt, w).
Proof.
  intros Hcl Hin. unfold recursivelyLogParents. cbn [recursivelyLogParents_fuel].
  unfold recursivelyLogParents_body.
  destruct (String.eqb (cd_Parent data) ""); [done |].
  unfold bind, try, GetChatLog. rewrite Hcl. by rewrite Hin.
Qed.

End SetInv.

(** ** The parent walk ends by itself *)

Section Fuel.
Context (E : Env) (S : Session).

Lemma lookups_left_kv chatID peerID w w' :
  kv w' !! lookup_key S chatID peerID = kv w !! lookup_key S chatID peerID ->
  lookups_left S chatID peerID w' = lookups_left S chatID peerID w.
Proof. unfold lookups_left. by intros ->. Qed.

Lemma retrieveMessage_pops chatID hash peerID w data w' :
  retrieveMessage E S chatID hash peerID w = (Ok data, w') ->
  (lookups_left S chatID peerID w' < lookups_left S chatID peerID w)%nat.
Proof.
  unfold retrieveMessage. intros H.
  apply bind_Ok_inv in H as (c & w1 & Hc & H).
  apply getChat_inv in Hc as [-> _].
  apply bind_Ok_inv in H as (l & w2 & Hl & H).
  apply getLookup_inv in Hl as [-> Hl].
  apply bind_Ok_inv in H as (b & w3 & Hb & H).
  apply peer_Storage_Get_kv in Hb.
  apply bind_Ok_inv in H as (tag & w4 & Ht & H).
  apply lift_Ok_inv in Ht as [_ ->].
  unfold popKey, lookup_get in H.
  destruct (l !! base64_EncodeToString tag) as [key |] eqn:Hk; [| done].
  destruct (len key =? 0); [done |].
  apply bind_Ok_inv in H as ([] & w5 & Hs & H).
  apply Session_set_inv in Hs as (Hkv5 & _ & _).
  apply bind_Ok_inv in H as (ct & w6 & Hct & H).
  apply lift_Ok_inv in Hct as [_ ->].
  apply bind_Ok_inv in H as (d & w7 & Hd & H).
  apply peer_Decrypt_inv in Hd as ->.
  apply bind_Ok_inv in H as (data' & w8 & Hj & H).
  apply lift_Ok_inv in Hj as [_ ->].
  apply bind_Ok_inv in H as ([] & w9 & Hsc & H).
  apply Session_set_inv in Hsc as (Hkv9 & _ & _).
  injection H as _ <-.
  unfold lookups_left.
  rewrite Hkv9, lookup_insert_ne by apply chat_key_ne_lookup_key.
  rewrite Hkv5, lookup_insert_eq, Hl.
  rewrite map_size_delete, Hk. simpl.
  assert (size l <> 0%nat); [| lia].
  intros Hz. apply map_size_empty_inv in Hz. subst l. by rewrite lookup_empty in Hk.
Qed.

Lemma logChatData_lookups chatID peerID hash data w u w' :
  logChatData E S chatID peerID hash data w = (Ok u, w') ->
  lookups_left S chatID peerID w' = lookups_left S chatID peerID w.
Proof.
  unfold logChatData. intros H.
  apply bind_Ok_inv in H as (cl & w1 & Hc & H).
  apply GetChatLog_inv in Hc as [-> _].
  destruct (AddEntry cl _) as [r cl'].
  apply bind_Ok_inv in H as (? & w2 & Hr & H).
  apply lift_Ok_inv in Hr as [_ ->]. destruct u.
  apply Session_set_inv in H as (Hkv & _ & _).
  apply lookups_left_kv. rewrite Hkv.
  apply lookup_insert_ne, chatlog_key_ne_lookup_key.
Qed.

Lemma recursivelyLogParents_body_ext (rec1 rec2 : chatData -> M unit)
  chatID peerID data w :
  (forall d w', (lookups_left S chatID peerID w' < lookups_left S chatID peerID w)%nat ->
     rec1 d w' = rec2 d w') ->
  recursivelyLogParents_body E S rec1 chatID peerID data w
  = recursivelyLogParents_body E S rec2 chatID peerID data w.
Proof.
  intros Hrec. unfold recursivelyLogParents_body.
  destruct (String.eqb (cd_Parent data) ""); [done |].
  unfold bind, try.
  destruct (GetChatLog S chatID w) as [[cl | e | p |] w1] eqn:Hc; try done.
  assert (w1 = w) as ->.
  { unfold GetChatLog in Hc. destruct (kv w !! _) as [[| |] |]; by injection Hc. }
  destruct (HashInLog cl (cd_Parent data)); [done |].
  destruct (retrieveMessage E S chatID (cd_Parent data) peerID w)
    as [[pd | e | p |] w2] eqn:Hr; try done.
  apply retrieveMessage_pops in Hr.
  destruct (logChatData E S chatID peerID (cd_Parent data) pd w2)
    as [[u | e | p |] w3] eqn:Hl; try done.
  apply logChatData_lookups in Hl.
  destruct (negb (String.eqb (cd_Parent pd) "")); [| done].
  apply Hrec. lia.
Qed.

Lemma recursivelyLogParents_fuel_step chatID peerID n : forall data w,
  (lookups_left S chatID peerID w < n)%nat ->
  recursivelyLogParents_fuel E S (Datatypes.S n) chatID peerID data w
  = recursivelyLogParents_fuel E S n chatID peerID data w.
Proof.
  induction n as [| n IH]; intros data w Hn; [lia |].
  change (recursivelyLogParents_body E S
            (recursivelyLogParents_fuel E S (Datatypes.S n) chatID peerID)
            chatID peerID data w
          = recursivelyLogParents_body E S
              (recursivelyLogParents_fuel E S n chatID peerID)
              chatID peerID data w).
  apply recursivelyLogParents_body_ext. intros d w' Hw'. apply IH. lia.
Qed.

(** Any fuel above the one [recursivelyLogParents] starts with gives the
    same outcome: the bound is never what ends the recursion. *)
Lemma recursivelyLogParents_fuel_enough chatID peerID data w n :
  (lookups_left S chatID peerID w < n)%nat ->
  recursivelyLogParents_fuel E S n chatID peerID data w
  = recursivelyLogParents E S chatID peerID data w.
Proof.
  unfold recursivelyLogParents.
  induction n as [| n IH]; intros Hn; [lia |].
  destruct (decide (n = lookups_left S chatID peerID w)) as [-> | Hne]; [done |].
  rewrite recursivelyLogParents_fuel_step by lia. apply IH. lia.
Qed.

End Fuel.

(** ** C5: errors of one peer inside RetrieveMessages *)

Section PersistedPop.
Context (E : Env) (S : Session).

(** The table is stored right after the pop: when the pointer then fails to
    decrypt, [getRendezvousHash] gives the empty hash and the stored table
    has lost the popped tag. *)
Lemma getRendezvousHash_keeps_pop chatID peerID w c l rBytes c' w1 tagb ct e :
  getChat S chatID w = (Ok c, w) ->
  getLookup S chatID peerID w = (Ok l, w) ->
  peer_Rendezvous_Get E c peerID w = (Ok (rBytes, c'), w1) ->
  go_slice rBytes 0 lookupHashLength = Ok tagb ->
  go_slice rBytes lookupHashLength (len rBytes) = Ok ct ->
  kv_Set_error E (lookup_key S chatID peerID) = None ->
  (forall w0, peer_Decrypt E c' peerID ct
                (lookup_get l (base64_EncodeToString tagb)) w0 = (Err e, w0)) ->
  exists w2,
    getRendezvousHash E S chatID peerID w = (Ok EmptyString, w2) /\
    kv w2 = <[lookup_key S chatID peerID :=
                StoredLookup (delete (base64_EncodeToString tagb) l)]> (kv w).
Proof.
  intros Hc Hl Hr Ht Hct Hset Hdec.
  pose proof (peer_Rendezvous_Get_kv E _ _ _ _ _ Hr) as Hkv.
  unfold getRendezvousHash, try, bind, try.
  rewrite Hc, Hl, Hr. cbn [fst snd]. unfold lift at 1. rewrite Ht.
  unfold popKey, setLookup, Session_set. rewrite Hset.
  unfold lift at 1. rewrite Hct. rewrite Hdec.
  eexists. split; [reflexivity |]. simpl. by rewrite Hkv.
Qed.

End PersistedPop.

(** C5, as the code has it.  Processing one peer inside
    [RetrieveMessages] never yields an error; when the processing of a peer
    ends, whatever failed on the way, the loop goes on with the remaining
    peers from the state that peer left; and the only errors
    [RetrieveMessages] returns are those of loading the chat before the loop
    and of loading or encoding the chat log after it.  What was stored for
    the peer before the failing step is kept: when the pointer's tag has
    been popped and the pointer then fails to decrypt, the stored lookup
    table has lost that tag. *)
Theorem RetrieveMessages_swallows_peer_errors (E : Env) (S : Session)
  (chatID : string) :
  (forall self peerID w,
     is_Err (fst (RetrieveMessages_body E S chatID self peerID w)) = false) /\
  (forall self peerID peers w w1,
     RetrieveMessages_body E S chatID self peerID w = (Ok tt, w1) ->
     RetrieveMessages_loop E S chatID self (peerID :: peers) w
     = RetrieveMessages_loop E S chatID self peers w1) /\
  (forall w e w',
     RetrieveMessages E S chatID w = (Err e, w') ->
     getChat S chatID w = (Err e, w') \/
     GetChatLog S chatID w' = (Err e, w') \/
     exists cl, GetChatLog S chatID w' = (Ok cl, w') /\
                json_Marshal_entries E (Sorted cl) = Err e) /\
  (forall peerID w c l rBytes c' w1 tagb ct e,
     getChat S chatID w = (Ok c, w) ->
     getLookup S chatID peerID w = (Ok l, w) ->
     peer_Rendezvous_Get E c peerID w = (Ok (rBytes, c'), w1) ->
     go_slice rBytes 0 lookupHashLength = Ok tagb ->
     go_slice rBytes lookupHashLength (len rBytes) = Ok ct ->
     kv_Set_error E (lookup_key S chatID peerID) = None ->
     (forall w0, peer_Decrypt E c' peerID ct
                   (lookup_get l (base64_EncodeToString tagb)) w0 = (Err e, w0)) ->
     exists w2,
       getRendezvousHash E S chatID peerID w = (Ok EmptyString, w2) /\
       kv w2 = <[lookup_key S chatID peerID :=
                   StoredLookup (delete (base64_EncodeToString tagb) l)]> (kv w)).
Proof.
  split; [| split; [| split]].
  - intros self peerID w. apply RetrieveMessages_body_noErr.
  - intros self peerID peers w w1. apply RetrieveMessages_loop_continues.
  - intros w e w'. apply RetrieveMessages_error_origin.
  - intros peerID w c l rBytes c' w1 tagb ct e.
    apply getRendezvousHash_keeps_pop.
Qed.

(** Bob's pointer carries a tag of the table and a sealed part that does not
    decrypt: the call succeeds and bob's stored table has lost the entry. *)
Lemma RetrieveMessages_consumes_entry_on_error :
  kv (demo_world ∅) !! lookup_key demo_session "c" "bob" = Some (StoredLookup demo_lookup) /\
  go_slice truncated_pointer 0 lookupHashLength = Ok demo_tag_bytes /\
  Decrypt (demo_env serves_truncated_pointer) newDefaultSBCipher
    (drop 24 truncated_pointer) demo_key = Err "decrypt failed" /\
  fst (RetrieveMessages (demo_env serves_truncated_pointer) demo_session "c"
         (demo_world ∅)) = Ok [] /\
  kv after_truncated_pointer !! lookup_key demo_session "c" "bob" = Some (StoredLookup ∅) /\
  demo_lookup <> ∅.
Proof.
  split; [vm_compute; reflexivity |].
  split; [vm_compute; reflexivity |].
  split; [vm_compute; reflexivity |].
  split; [vm_compute; reflexivity |].
  split; [vm_compute; reflexivity |].
  intros H. apply (f_equal (fun m => m !! demo_tag)) in H.
  vm_compute in H. discriminate.
Qed.

(** ** Retrieval on an exhausted table *)

Section Exhausted.
Context (E : Env) (S : Session).

(** With the stored table of a peer empty no pointer of that peer is ever
    handed on: the empty key does not decrypt. *)
Lemma getRendezvousHash_exhausted chatID peerID w h w' :
  getLookup S chatID peerID w = (Ok ∅, w) ->
  getRendezvousHash E S chatID peerID w = (Ok h, w') ->
  h = EmptyString.
Proof.
  intros Hl H. unfold getRendezvousHash in H.
  apply try_Ok_inv in H as [(c & w1 & Hc & H) | (? & ? & _ & [= <- _])]; [| done].
  apply getChat_inv in Hc as [-> _].
  apply try_Ok_inv in H as [(l & w2 & Hl' & H) | (? & ? & _ & [= <- _])]; [| done].
  rewrite Hl in Hl'. injection Hl' as <- <-.
  apply try_Ok_inv in H as [(rc & w3 & _ & H) | (? & ? & _ & [= <- _])]; [| done].
  apply bind_Ok_inv in H as (tag & w4 & _ & H).
  unfold popKey, lookup_get in H. rewrite lookup_empty in H.
  apply try_Ok_inv in H as [(u & w5 & _ & H) | (? & ? & _ & [= <- _])]; [| done].
  apply bind_Ok_inv in H as (ct & w6 & _ & H).
  apply try_Ok_inv in H as [(hashBytes & w7 & Hd & H) | (? & ? & _ & [= <- _])]; [| done].
  unfold peer_Decrypt in Hd. destruct (Peers (snd rc) !! peerID); [| done].
  unfold lift, Decrypt in Hd. simpl in Hd. done.
Qed.

(** And no message of that peer is retrieved. *)
Lemma retrieveMessage_exhausted chatID hash peerID w data w' :
  getLookup S chatID peerID w = (Ok ∅, w) ->
  retrieveMessage E S chatID hash peerID w <> (Ok data, w').
Proof.
  intros Hl H. apply retrieveMessage_pops in H.
  apply getLookup_inv in Hl as [_ Hl].
  unfold lookups_left in H. rewrite Hl, map_size_empty in H. lia.
Qed.

End Exhausted.

(** ** C6: a message over the size limit *)

(** C6.  For a message of more than [maxMessageSize = 250000] bytes
    [SendMessage] returns its size error and the state it was called in:
    the local store (lookup tables, chat, chat log), the draws from
    crypto/rand and the calls made to the blob and rendezvous backends are
    all unchanged. *)
Theorem SendMessage_too_large (E : Env) (S : Session) (chatID : string)
  (b : list byte) (w : World) :
  len b > maxMessageSize ->
  SendMessage E S chatID b w
  = (Err "messag sized exceeds max size of 250000 bytes", w).
Proof.
  intros H. unfold SendMessage.
  destruct (Z.gtb_spec (len b) maxMessageSize); [done | lia].
Qed.

Lemma SendMessage_too_large_witness :
  SendMessage (demo_env offline) demo_session "c"
    (repeat x00 (Z.to_nat 250001)) (demo_world ∅)
  = (Err "messag sized exceeds max size of 250000 bytes", demo_world ∅).
Proof.
  apply (SendMessage_too_large (demo_env offline) demo_session "c"
           (repeat x00 (Z.to_nat 250001)) (demo_world ∅)).
  vm_compute. reflexivity.
Defined.

(** ** C4: drawing from an empty lookup table *)

(** C4, on the code.  On an empty table [getRandom] calls [rand.Int] with a
    maximum of zero, which panics: [popRandom] does not return. *)
Theorem popRandom_empty_panics (E : Env) (w : World) :
  getRandom E ∅ w = (Panic "crypto/rand: argument to Int is <= 0", w) /\
  popRandom E ∅ w = (Panic "crypto/rand: argument to Int is <= 0", w).
Proof. split; reflexivity. Qed.

(** [SendMessage] with the sender's table exhausted ends in that panic. *)
Example SendMessage_exhausted_table_panics :
  kv (demo_world ∅) !! lookup_key demo_session "c" "me" = Some (StoredLookup ∅) /\
  SendMessage (demo_env offline) demo_session "c" [x68; x69] (demo_world ∅)
  = (Panic "crypto/rand: argument to Int is <= 0", demo_world ∅).
Proof. split; vm_compute; reflexivity. Qed.

(** ** C9: what the duplicate checks of retrieval skip *)

(** C9.  [HashInLog cl h] holds exactly when [h] is a substring of some key
    of the log, so it holds for the empty string as soon as the log has an
    entry; and retrieval skips what [HashInLog] finds: a hash that
    [getRendezvousHash] hands on is a substring of no key of the stored
    log, and [recursivelyLogParents] returns at once, leaving the state as
    it is, for a parent that is a substring of a key. *)
Theorem HashInLog_substring (E : Env) (S : Session) (chatID peerID : string) :
  (forall (cl : ChatLog) h,
     HashInLog cl h = true <->
     exists key entry, cl !! key = Some entry /\
                       exists pre post, key = pre +:+ h +:+ post) /\
  (forall cl : ChatLog, cl <> ∅ -> HashInLog cl EmptyString = true) /\
  (forall w h w' (cl : ChatLog) key entry pre post,
     getRendezvousHash E S chatID peerID w = (Ok h, w') ->
     kv w' !! chatlog_key S chatID = Some (StoredChatLog cl) ->
     cl !! key = Some entry -> key = pre +:+ h +:+ post ->
     h = EmptyString) /\
  (forall data w (cl : ChatLog) key entry pre post,
     kv w !! chatlog_key S chatID = Some (StoredChatLog cl) ->
     cl !! key = Some entry -> key = pre +:+ cd_Parent data +:+ post ->
     recursivelyLogParents E S chatID peerID data w = (Ok tt, w)).
Proof.
  split; [| split; [| split]].
  - intros cl h. apply HashInLog_spec.
  - apply HashInLog_empty_hash.
  - intros w h w' cl key entry pre post Hr Hcl Hk Hsub.
    destruct (String.eqb_spec h EmptyString) as [-> | Hne]; [done |].
    pose proof (getRendezvousHash_skips_logged E S _ _ _ _ _ _ Hr Hne Hcl) as Hin.
    assert (HashInLog cl h = true) as Ht; [| congruence].
    apply HashInLog_spec. exists key, entry. split; [done |]. by exists pre, post.
  - intros data w cl key entry pre post Hcl Hk Hsub.
    apply (recursivelyLogParents_skips_logged E S _ _ _ cl); [done |].
    apply HashInLog_spec. exists key, entry. split; [done |]. by exists pre, post.
Qed.

(** A hash is found inside the timestamp part of another entry's key. *)
Example HashInLog_inside_timestamp (entry : ChatLogEntry) :
  HashInLog (<["1500000000-QmYwAPJzv5CZsnA" := entry]> ∅) "0000" = true.
Proof.
  apply HashInLog_spec. exists "1500000000-QmYwAPJzv5CZsnA"%string, entry.
  split; [apply lookup_insert_eq |].
  by exists "15"%string, "0000-QmYwAPJzv5CZsnA"%string.
Qed.

(** ** The theorems at work on the demo chat *)

Lemma popKey_spec_witness :
  (popKey demo_lookup demo_tag = (demo_key, delete demo_tag demo_lookup) /\
   snd (popKey demo_lookup demo_tag) !! demo_tag = None /\
   (forall t, t <> demo_tag -> snd (popKey demo_lookup demo_tag) !! t = demo_lookup !! t)) /\
  popKey (∅ : lookup) demo_tag = ([], ∅).
Proof.
  split.
  - apply (proj1 (popKey_spec demo_lookup demo_tag) demo_key). vm_compute. reflexivity.
  - apply (proj1 (proj2 (popKey_spec ∅ demo_tag))). reflexivity.
Defined.

Lemma AddEntry_spec_witness :
  AddEntry ∅ demo_entry = (Ok tt, demo_log) /\
  AddEntry demo_log
    {| ID := "Qm"; Sender := "bob"; Sent := 0; Received := 0; TTL := 0;
       Data := demo_data EmptyString |}
  = (Err "no valid timestamp found", demo_log).
Proof.
  split.
  - apply (proj1 (proj2 (AddEntry_spec ∅ demo_entry))). discriminate.
  - apply (proj1 (AddEntry_spec demo_log _)). split; reflexivity.
Defined.

Lemma HashInLog_substring_witness :
  HashInLog demo_log "0000" = true /\
  recursivelyLogParents (demo_env offline) demo_session "c" "bob" (demo_data "0000")
    (demo_world demo_log)
  = (Ok tt, demo_world demo_log).
Proof.
  pose proof (HashInLog_substring (demo_env offline) demo_session "c" "bob")
    as (Hspec & _ & _ & Hskip).
  split.
  - apply Hspec. exists "1500000000-QmYwAPJzv5CZsnA"%string, demo_entry.
    split; [vm_compute; reflexivity |].
    exists "15"%string, "0000-QmYwAPJzv5CZsnA"%string. reflexivity.
  - apply (Hskip (demo_data "0000") (demo_world demo_log) demo_log
             "1500000000-QmYwAPJzv5CZsnA"%string demo_entry
             "15"%string "0000-QmYwAPJzv5CZsnA"%string).
    + vm_compute. reflexivity.
    + vm_compute. reflexivity.
    + reflexivity.
Defined.

Lemma RetrieveMessages_swallows_peer_errors_witness :
  exists w2,
    getRendezvousHash (demo_env serves_truncated_pointer) demo_session "c" "bob"
      (demo_world ∅) = (Ok EmptyString, w2) /\
    kv w2 = <[lookup_key demo_session "c" "bob" :=
                StoredLookup (delete (base64_EncodeToString demo_tag_bytes) demo_lookup)]>
            (kv (demo_world ∅)).
Proof.
  eapply (proj2 (proj2 (proj2 (RetrieveMessages_swallows_peer_errors
            (demo_env serves_truncated_pointer) demo_session "c")))
          "bob" (demo_world ∅)).
  - vm_compute. reflexivity.
  - vm_compute. reflexivity.
  - vm_compute. reflexivity.
  - vm_compute. reflexivity.
  - vm_compute. reflexivity.
  - reflexivity.
  - intros w0. vm_compute. reflexivity.
Defined.

(* ===================================================================== *)
(** * Part III: further properties of the code *)
(* ===================================================================== *)

(** ** The rendezvous backend: reads and the high-water mark *)

Lemma updateLatest_effect now s ts :
  snd (updateLatest now s ts) = set_Latest s (Latest (snd (updateLatest now s ts))) /\
  Latest s <= Latest (snd (updateLatest now s ts)).
Proof.
  unfold updateLatest.
  destruct (ts >? int64_add now (5 * 1000000000)); simpl.
  { by rewrite set_Latest_same. }
  destruct (Z.gtb_spec (Latest s) ts); simpl.
  - by rewrite set_Latest_same.
  - split; [done | lia].
Qed.

Lemma hashmap_getFirstSuccess_effect E nodes s :
  snd (hashmap_getFirstSuccess E nodes s)
    = set_Latest s (Latest (snd (hashmap_getFirstSuccess E nodes s))) /\
  Latest s <= Latest (snd (hashmap_getFirstSuccess E nodes s)).
Proof.
  induction nodes as [| n nodes IH]; simpl.
  { by rewrite set_Latest_same. }
  destruct (hashmap_fetch E (URL n)) as [msg | | ts message]; simpl.
  - by rewrite set_Latest_same.
  - exact IH.
  - pose proof (updateLatest_effect (time_Now_UnixNano E) s ts) as H.
    destruct (updateLatest (time_Now_UnixNano E) s ts) as [[[] | e | p |] s']; exact H.
Qed.

(** X1.  A read of the rendezvous backend changes nothing of the backend but
    its high-water mark, and the mark never decreases. *)
Theorem hashmap_Get_mark_monotone (E : Env) (s : hashmapStorage) :
  snd (hashmap_Get E s) = set_Latest s (Latest (snd (hashmap_Get E s))) /\
  Latest s <= Latest (snd (hashmap_Get E s)).
Proof.
  unfold hashmap_Get.
  destruct (len (hm_ReadNodes s) <? 1); simpl.
  { by rewrite set_Latest_same. }
  destruct (hm_ReadRule s); simpl; try by rewrite set_Latest_same.
  apply hashmap_getFirstSuccess_effect.
Qed.

Lemma hashmap_getFirstSuccess_skip E pre rest s :
  Forall (fun n => hashmap_fetch E (URL n) = NodeUnreachable) pre ->
  hashmap_getFirstSuccess E (pre ++ rest) s = hashmap_getFirstSuccess E rest s.
Proof.
  induction 1 as [| n pre Hn _ IH]; [done |]. simpl. by rewrite Hn.
Qed.

Lemma hashmap_Get_firstSuccess E s n nodes :
  hm_ReadNodes s = n :: nodes -> hm_ReadRule s = firstSuccess ->
  hashmap_Get E s = hashmap_getFirstSuccess E (n :: nodes) s.
Proof.
  intros Hn Hr. unfold hashmap_Get. rewrite Hn, Hr.
  unfold len. simpl length.
  destruct (Z.ltb_spec (Z.of_nat (Datatypes.S (length nodes))) 1); [lia | done].
Qed.

(** X2.  The first node that answers decides the read.  Nodes that cannot be
    reached are passed over; a node whose answer is refused ends the read
    with its error, and a payload older than the mark ends it as stale or
    future, whatever the nodes after it would serve; the backend is left as
    it was. *)
Theorem hashmap_Get_first_answer_decides (E : Env) (s : hashmapStorage)
  (pre post : list node) (n : node) :
  hm_ReadNodes s = pre ++ n :: post ->
  hm_ReadRule s = firstSuccess ->
  Forall (fun x => hashmap_fetch E (URL x) = NodeUnreachable) pre ->
  (forall msg, hashmap_fetch E (URL n) = NodeRejected msg ->
     hashmap_Get E s = (Err msg, s)) /\
  (forall ts message, hashmap_fetch E (URL n) = NodePayload ts message ->
     ts < Latest s ->
     exists e, hashmap_Get E s = (Err e, s)) /\
  (forall ts message, hashmap_fetch E (URL n) = NodePayload ts message ->
     Latest s <= ts -> ts <= int64_add (time_Now_UnixNano E) (5 * 1000000000) ->
     hashmap_Get E s = (message, set_Latest s ts)).
Proof.
  intros Hn Hr Hpre.
  assert (Hget : hashmap_Get E s = hashmap_getFirstSuccess E (n :: post) s).
  { destruct pre as [| p pre].
    - by apply hashmap_Get_firstSuccess.
    - rewrite (hashmap_Get_firstSuccess E s p (pre ++ n :: post)) by done.
      by apply (hashmap_getFirstSuccess_skip E (p :: pre)). }
  rewrite Hget. split; [| split].
  - intros msg Hf. simpl. by rewrite Hf.
  - intros ts message Hf Hlt. simpl. rewrite Hf. unfold updateLatest.
    destruct (ts >? _); [by eexists |].
    destruct (Z.gtb_spec (Latest s) ts); [by eexists | lia].
  - intros ts message Hf Hle Hnow. simpl. rewrite Hf. unfold updateLatest.
    destruct (Z.gtb_spec ts (int64_add (time_Now_UnixNano E) (5 * 1000000000))); [lia |].
    destruct (Z.gtb_spec (Latest s) ts); [lia |].
    by destruct message.
Qed.


Lemma hashmap_Get_first_answer_decides_witness :
  exists e, hashmap_Get (demo_env serves_truncated_pointer) replay_store
            = (Err e, replay_store).
Proof.
  destruct (hashmap_Get_first_answer_decides (demo_env serves_truncated_pointer)
              replay_store [] [] {| URL := "https://r.example/bob" |})
    as (_ & Hstale & _).
  - reflexivity.
  - reflexivity.
  - constructor.
  - apply (Hstale 1 (Ok truncated_pointer)); reflexivity.
Defined.

(** ** The blob backend: first success *)

Lemma ipfs_getFirstSuccess_spec E nodes hash b :
  ipfs_getFirstSuccess E nodes hash = Ok b <->
  exists pre n post, nodes = pre ++ n :: post /\
    Forall (fun x => is_Err (ipfs_cat E (URL x) hash) = true) pre /\
    ipfs_cat E (URL n) hash = Ok b.
Proof.
  induction nodes as [| x nodes IH]; simpl.
  - split; [done |]. intros (pre & n & post & H & _). by destruct pre.
  - destruct (ipfs_cat E (URL x) hash) as [b0 | e | p |] eqn:Hx.
    + split.
      * intros [= ->]. exists [], x, nodes. by repeat split.
      * intros (pre & n & post & H & Hpre & Hn). destruct pre as [| y pre].
        -- injection H as -> ->. congruence.
        -- injection H as -> ->. apply Forall_cons in Hpre as [Hy _].
           by rewrite Hx in Hy.
    + rewrite IH. split.
      * intros (pre & n & post & -> & Hpre & Hn). exists (x :: pre), n, post.
        repeat split; [| done]. constructor; [by rewrite Hx | done].
      * intros (pre & n & post & H & Hpre & Hn). destruct pre as [| y pre].
        -- injection H as -> ->. congruence.
        -- injection H as -> ->. apply Forall_cons in Hpre as [_ Hpre].
           by exists pre, n, post.
    + split; [done |]. intros (pre & n & post & H & Hpre & Hn).
      destruct pre as [| y pre]; injection H as -> ->; [congruence |].
      apply Forall_cons in Hpre as [Hy _]. by rewrite Hx in Hy.
    + split; [done |]. intros (pre & n & post & H & Hpre & Hn).
      destruct pre as [| y pre]; injection H as -> ->; [congruence |].
      apply Forall_cons in Hpre as [Hy _]. by rewrite Hx in Hy.
Qed.

Lemma ipfs_getFirstSuccess_error E nodes hash e :
  ipfs_getFirstSuccess E nodes hash = Err e -> e = "no servers available"%string.
Proof.
  induction nodes as [| x nodes IH]; simpl; [by intros [= <-] |].
  by destruct (ipfs_cat E (URL x) hash).
Qed.

Lemma ipfs_setFirstSuccess_error E nodes body e :
  ipfs_setFirstSuccess E nodes body = Err e -> e = "no servers available"%string.
Proof.
  induction nodes as [| x nodes IH]; simpl; [by intros [= <-] |].
  by destruct (ipfs_add E (URL x) body).
Qed.

(** X3.  The blob backend returns what the first node that does not fail
    returns, and the error of a node is never the error of the read or the
    write: those are the three errors of the backend itself. *)
Theorem ipfs_first_success (E : Env) (s : ipfsStorage) (key : string)
  (value : list byte) :
  (forall b, ipfs_ReadRule s = firstSuccess ->
     (ipfs_Get E s key = Ok b <->
      exists pre n post, ipfs_ReadNodes s = pre ++ n :: post /\
        Forall (fun x => is_Err (ipfs_cat E (URL x) key) = true) pre /\
        ipfs_cat E (URL n) key = Ok b)) /\
  (forall e, ipfs_Get E s key = Err e ->
     e = "no read nodes configured"%string \/
     e = "This readRule is not yet implemented"%string \/
     e = "no servers available"%string) /\
  (forall e, ipfs_Set E s value = Err e ->
     e = "no write nodes configured"%string \/
     e = "This writeRule is not yet implemented"%string \/
     e = "no servers available"%string).
Proof.
  split; [| split].
  - intros b Hr. unfold ipfs_Get. rewrite Hr.
    destruct (Z.ltb_spec (len (ipfs_ReadNodes s)) 1) as [Hlt | Hge].
    + split; [done |]. intros (pre & n & post & H & _).
      rewrite H in Hlt. unfold len in Hlt. rewrite length_app in Hlt.
      simpl in Hlt. lia.
    + apply ipfs_getFirstSuccess_spec.
  - intros e. unfold ipfs_Get.
    destruct (len (ipfs_ReadNodes s) <? 1); [intros [= <-]; by left |].
    destruct (ipfs_ReadRule s); try (intros [= <-]; right; by left).
    intros H. right. right. by apply ipfs_getFirstSuccess_error in H.
  - intros e. unfold ipfs_Set.
    destruct (len (ipfs_WriteNodes s) <? 1); [intros [= <-]; by left |].
    destruct (ipfs_WriteRule s); try (intros [= <-]; right; by left).
    intros H. right. right. by apply ipfs_setFirstSuccess_error in H.
Qed.

(** ** crypto.go: nonces, draws, termination *)

Lemma genRandBytes_spec E l d :
  length (fst (genRandBytes E l d)) = Z.to_nat l /\ snd (genRandBytes E l d) = S d.
Proof. unfold genRandBytes. simpl. by rewrite go_copy_length, repeat_length. Qed.

Lemma genNonce_draw E s d : snd (genNonce E s d) = S d.
Proof.
  unfold genNonce, genTimeStampNonce, genRandBytes.
  destruct (Nonce s =? RandomNonce); [done |].
  by destruct (Nonce s =? TimeSeriesNonce).
Qed.

(** X4.  A nonce is always 24 bytes and costs one draw of randomness.  The
    nonce of a time-series cipher is the random nonce with its first four
    bytes replaced by the low four bytes, little endian, of the Unix time
    in seconds; every other nonce type gives the random bytes alone. *)
Theorem genNonce_spec (E : Env) (s : SecretBoxCipher) (d : nat) :
  length (fst (genNonce E s d)) = 24%nat /\
  snd (genNonce E s d) = S d /\
  (Nonce s = TimeSeriesNonce ->
     fst (genNonce E s d)
     = take 4 (LittleEndian_PutUint64 ((time_Now_UnixNano E / 1000000000) mod 2 ^ 64))
       ++ drop 4 (fst (genRandBytes E 24 d))) /\
  (Nonce s <> TimeSeriesNonce ->
     fst (genNonce E s d) = fst (genRandBytes E 24 d)).
Proof.
  split; [| split; [apply genNonce_draw | split]].
  - unfold genNonce, genTimeStampNonce, genRandBytes.
    destruct (Nonce s =? RandomNonce); [| destruct (Nonce s =? TimeSeriesNonce)];
      simpl; by rewrite ?go_copy_length, ?repeat_length.
  - intros Hn. unfold genNonce, genTimeStampNonce, genRandBytes. rewrite Hn.
    change (TimeSeriesNonce =? RandomNonce) with false.
    change (TimeSeriesNonce =? TimeSeriesNonce) with true. cbn [fst snd].
    change secretBoxNonceLength with 24.
    set (r := go_copy _ (rand_Read E d _)).
    set (t := take 4 _).
    assert (Ht : length t = 4%nat) by reflexivity.
    assert (Hr : length r = 24%nat)
      by (subst r; by rewrite go_copy_length, repeat_length).
    unfold go_copy. rewrite Ht. f_equal. apply take_ge. lia.
  - intros Hn. unfold genNonce.
    destruct (Z.eqb_spec (Nonce s) RandomNonce); [done |].
    destruct (Z.eqb_spec (Nonce s) TimeSeriesNonce); done.
Qed.

Lemma genNonce_spec_witness :
  fst (genNonce (demo_env offline) newTimeSeriesSBCipher 0)
  = take 4 (LittleEndian_PutUint64
              ((time_Now_UnixNano (demo_env offline) / 1000000000) mod 2 ^ 64))
    ++ drop 4 (fst (genRandBytes (demo_env offline) 24 0)).
Proof.
  apply (genNonce_spec (demo_env offline) newTimeSeriesSBCipher 0). reflexivity.
Defined.

Lemma Encrypt_loop_draws E s data k fuel : forall i acc d,
  0 < ChunkSize s -> 0 <= i -> len data - i <= Z.of_nat fuel ->
  Z.of_nat (snd (Encrypt_loop E fuel s data k i acc d))
  = Z.of_nat d + Z.max 0 ((len data - i + ChunkSize s - 1) / ChunkSize s).
Proof.
  induction fuel as [| fuel IH]; intros i acc d HC Hi Hfuel.
  - simpl. destruct (Z.ltb_spec i (len data)); [lia |]. simpl.
    assert ((len data - i + ChunkSize s - 1) / ChunkSize s <= 0); [| lia].
    apply Z.lt_succ_r. apply Z.div_lt_upper_bound; lia.
  - cbn [Encrypt_loop]. destruct (Z.ltb_spec i (len data)) as [Hlt | Hge].
    + rewrite next_chunk_ok by lia.
      pose proof (genNonce_draw E s d) as Hd.
      destruct (genNonce E s d) as [nonce d']. simpl in Hd. subst d'.
      rewrite IH by lia.
      replace (len data - i + ChunkSize s - 1)
        with ((len data - (i + ChunkSize s) + ChunkSize s - 1) + 1 * ChunkSize s) by lia.
      rewrite Z.div_add by lia.
      assert (0 <= (len data - (i + ChunkSize s) + ChunkSize s - 1) / ChunkSize s).
      { apply Z.div_pos; lia. }
      lia.
    + simpl.
      assert ((len data - i + ChunkSize s - 1) / ChunkSize s <= 0); [| lia].
      apply Z.lt_succ_r. apply Z.div_lt_upper_bound; lia.
Qed.

(** X5.  Encryption draws one nonce for each chunk: with a positive chunk
    size [C], encrypting [L] bytes advances the randomness by the ceiling
    of [L / C] draws, so an empty plaintext draws nothing; a key of the
    wrong length is refused before anything is drawn. *)
Theorem Encrypt_draws (E : Env) (s : SecretBoxCipher) (data key : list byte)
  (d : nat) :
  (0 < ChunkSize s -> len key = 32 ->
     Z.of_nat (snd (Encrypt E s data key d))
     = Z.of_nat d + (len data + ChunkSize s - 1) / ChunkSize s) /\
  (len key <> 32 -> Encrypt E s data key d = (Err "invalid key length", d)).
Proof.
  split.
  - intros HC Hk. unfold Encrypt. rewrite Hk. simpl.
    rewrite Encrypt_loop_draws by (unfold len; lia).
    rewrite Z.sub_0_r.
    assert (0 <= (len data + ChunkSize s - 1) / ChunkSize s); [| lia].
    apply Z.div_pos; [unfold len |]; lia.
  - intros Hk. unfold Encrypt.
    by destruct (Z.eqb_spec (len key) secretBoxKeyLength).
Qed.

Lemma next_chunk_zero (data : list byte) : next_chunk data 0 0 = Ok [].
Proof.
  unfold next_chunk. change (Z.to_nat 0) with 0%nat. rewrite drop_0.
  destruct (Z.geb_spec (len data) 0) as [_ | H]; [| unfold len in H; lia].
  unfold go_slice.
  destruct (Z.leb_spec (0 + 0) (len data)) as [_ | H]; [| unfold len in H; lia].
  reflexivity.
Qed.

Lemma Encrypt_loop_stuck E s data k fuel : forall acc d,
  ChunkSize s = 0 -> 0 < len data ->
  fst (Encrypt_loop E fuel s data k 0 acc d) = Diverge.
Proof.
  induction fuel as [| fuel IH]; intros acc d HC Hlen; cbn [Encrypt_loop].
  - by destruct (Z.ltb_spec 0 (len data)); [| lia].
  - destruct (Z.ltb_spec 0 (len data)); [| lia].
    rewrite HC, next_chunk_zero.
    destruct (genNonce E s d) as [nonce d'].
    change (0 + 0) with 0. by apply IH.
Qed.

(** X6.  A cipher whose chunk size is zero never finishes encrypting a
    non-empty plaintext: the loop index does not advance, whatever the
    number of iterations allowed, and each iteration appends a sealed empty
    chunk.  A negative chunk size panics on the first slice. *)
Theorem Encrypt_chunk_size_not_positive (E : Env) (s : SecretBoxCipher)
  (data key : list byte) (d : nat) :
  len key = 32 -> data <> [] ->
  (ChunkSize s = 0 ->
     forall fuel, fst (Encrypt_loop E fuel s data (copy_into 32 key) 0 [] d) = Diverge) /\
  (ChunkSize s = 0 -> fst (Encrypt E s data key d) = Diverge) /\
  (ChunkSize s < 0 ->
     Encrypt E s data key d = (Panic "slice bounds out of range", d)).
Proof.
  intros Hk Hdata.
  assert (Hlen : 0 < len data) by (destruct data; [done | unfold len; simpl; lia]).
  split; [| split].
  - intros HC fuel. by apply Encrypt_loop_stuck.
  - intros HC. unfold Encrypt. rewrite Hk. simpl. by apply Encrypt_loop_stuck.
  - intros HC. unfold Encrypt. rewrite Hk. simpl.
    destruct data as [| b data]; [done |]. cbn [length Encrypt_loop].
    destruct (Z.ltb_spec 0 (len (b :: data))); [| lia].
    unfold next_chunk. simpl drop.
    destruct (Z.geb_spec (len (b :: data)) (ChunkSize s)); [| lia].
    unfold go_slice.
    destruct (Z.leb_spec 0 (0 + ChunkSize s)); [lia |]. done.
Qed.

Lemma Encrypt_chunk_size_not_positive_witness :
  fst (Encrypt (demo_env offline) {| Nonce := RandomNonce; ChunkSize := 0 |}
         [x01] (repeat x00 32) 0) = Diverge.
Proof.
  apply (Encrypt_chunk_size_not_positive (demo_env offline)
           {| Nonce := RandomNonce; ChunkSize := 0 |} [x01] (repeat x00 32) 0);
    [reflexivity | discriminate | reflexivity].
Defined.

(** X7.  Decryption always terminates, for every chunk size (also zero or
    negative), every input and every key: it returns bytes, an error, or
    panics on a slice, within [len(data)] iterations. *)
Theorem Decrypt_terminates (E : Env) (s : SecretBoxCipher) (data key : list byte) :
  match Decrypt E s data key with
  | Ok _ | Err _ | Panic _ => True
  | Diverge => False
  end.
Proof.
  pose proof (Decrypt_ends E s data key) as H.
  by destruct (Decrypt E s data key).
Qed.

(** X8.  A ciphertext shorter than a nonce is not reported as an error:
    with a key of 32 bytes, decrypting between 1 and 23 bytes panics on a
    slice of the chunk, for every chunk size; decrypting no bytes returns
    no bytes. *)
Theorem Decrypt_short_input (E : Env) (s : SecretBoxCipher) (data key : list byte) :
  len key = 32 ->
  (data = [] -> Decrypt E s data key = Ok []) /\
  (0 < len data < 24 -> Decrypt E s data key = Panic "slice bounds out of range").
Proof.
  intros Hk. split.
  - intros ->. unfold Decrypt. rewrite Hk. reflexivity.
  - intros Hlen. unfold Decrypt. rewrite Hk. simpl.
    destruct data as [| b data]; [unfold len in Hlen; simpl in Hlen; lia |].
    cbn [length Decrypt_loop].
    destruct (Z.ltb_spec 0 (len (b :: data))); [| lia].
    unfold next_chunk. simpl drop.
    destruct (Z.geb_spec (len (b :: data)) (ChunkSize s + secretBoxDecryptionOffset)).
    + destruct (go_slice (b :: data) 0 (0 + (ChunkSize s + secretBoxDecryptionOffset)))
        as [chunk | | |] eqn:Hs; simpl; try done.
      * apply go_slice_Ok_inv in Hs as (_ & _ & _ & Hc).
        unfold go_slice.
        destruct (Z.leb_spec secretBoxNonceLength (len chunk)); [| by rewrite andb_false_r].
        unfold secretBoxNonceLength in *. lia.
      * by pose proof (go_slice_not_Err (b :: data) 0
                         (0 + (ChunkSize s + secretBoxDecryptionOffset))) as H1;
          rewrite Hs in H1.
      * unfold go_slice in Hs. by destruct (_ && _).
      * by apply go_slice_not_Diverge in Hs.
    + simpl. unfold go_slice.
      destruct (Z.leb_spec secretBoxNonceLength (len (b :: data)));
        [unfold secretBoxNonceLength in *; lia | by rewrite andb_false_r].
Qed.

Lemma Decrypt_short_input_witness :
  Decrypt (demo_env offline) newDefaultSBCipher [x01; x02] (repeat x00 32)
  = Panic "slice bounds out of range".
Proof.
  apply (Decrypt_short_input (demo_env offline) newDefaultSBCipher [x01; x02]
           (repeat x00 32)); [reflexivity | unfold len; simpl; lia].
Defined.

(** ** The byte-wise order of strings *)

Lemma string_compare_refl s : String.compare s s = Eq.
Proof.
  induction s as [| a s IH]; [done |]. simpl.
  unfold Ascii.compare. by rewrite N.compare_refl.
Qed.

Lemma string_compare_lt_trans s : forall t u,
  String.compare s t = Lt -> String.compare t u = Lt -> String.compare s u = Lt.
Proof.
  induction s as [| a s IH]; intros [| b t] [| c u]; simpl; try done.
  unfold Ascii.compare.
  destruct (N.compare_spec (N_of_ascii a) (N_of_ascii b)) as [Hab | Hab | Hab];
    destruct (N.compare_spec (N_of_ascii b) (N_of_ascii c)) as [Hbc | Hbc | Hbc];
    try done; intros H1 H2.
  - rewrite Hab, Hbc, N.compare_refl. by eapply IH.
  - rewrite Hab. by apply N.compare_lt_iff in Hbc as ->.
  - rewrite <- Hbc. by apply N.compare_lt_iff in Hab as ->.
  - assert (H : (N_of_ascii a < N_of_ascii c)%N) by lia.
    by apply N.compare_lt_iff in H as ->.
Qed.

Lemma string_leb_iff s t :
  String.leb s t = true <-> String.compare s t = Lt \/ s = t.
Proof.
  unfold String.leb. split.
  - destruct (String.compare s t) eqn:H; [| by left | done].
    right. by apply String.compare_eq_iff.
  - intros [-> | ->]; [done |]. by rewrite string_compare_refl.
Qed.

Lemma string_leb_trans s t u :
  String.leb s t = true -> String.leb t u = true -> String.leb s u = true.
Proof.
  rewrite !string_leb_iff. intros [H1 | ->] [H2 | ->]; auto.
  left. by eapply string_compare_lt_trans.
Qed.

Lemma string_leb_false s t : String.leb s t = false -> String.leb t s = true.
Proof.
  intros H. destruct (String.leb_total s t) as [H1 | H1]; congruence.
Qed.

(** ** [sort.Strings] *)

Lemma insert_sorted_perm k l : insert_sorted k l ≡ₚ k :: l.
Proof.
  induction l as [| x l IH]; simpl; [done |].
  destruct (String.leb k x); [done |]. rewrite IH. apply Permutation_swap.
Qed.

Lemma sort_Strings_perm l : sort_Strings l ≡ₚ l.
Proof.
  induction l as [| k l IH]; simpl; [done |].
  fold (sort_Strings l). by rewrite insert_sorted_perm, IH.
Qed.

Lemma insert_sorted_sorted k l :
  Sorted.StronglySorted (fun a b => String.leb a b = true) l ->
  Sorted.StronglySorted (fun a b => String.leb a b = true) (insert_sorted k l).
Proof.
  induction 1 as [| x l Hl IH Hx]; simpl.
  { constructor; constructor. }
  destruct (String.leb k x) eqn:Hk.
  - constructor; [by constructor |]. constructor; [done |].
    eapply Forall_impl; [exact Hx |]. intros y Hy. simpl in Hy.
    by eapply string_leb_trans.
  - constructor; [done |].
    rewrite (insert_sorted_perm k l). constructor; [| done].
    by apply string_leb_false.
Qed.

Lemma sort_Strings_sorted l :
  Sorted.StronglySorted (fun a b => String.leb a b = true) (sort_Strings l).
Proof.
  induction l as [| k l IH]; simpl; [constructor |].
  by apply insert_sorted_sorted.
Qed.

(** ** [ChatLog.Sorted] *)

Lemma omap_pair_snd {A B} (f : A -> option B) (l : list A) :
  (omap (fun k => pair k <$> f k) l).*2 = omap f l.
Proof.
  induction l as [| k l IH]; [done |]. csimpl.
  destruct (f k); csimpl; by rewrite ?IH.
Qed.

Lemma omap_pair_lookup {B} (m : gmap string B) (l : list (string * B)) :
  Forall (fun kv => m !! kv.1 = Some kv.2) l ->
  omap (fun k => pair k <$> m !! k) (map fst l) = l.
Proof.
  induction 1 as [| [k v] l Hkv _ IH]; [done |]. csimpl.
  simpl in Hkv. rewrite Hkv. csimpl. by rewrite IH.
Qed.

Lemma omap_pair_sorted {B} (R : string -> string -> Prop) (f : string -> option B)
  (l : list string) :
  Sorted.StronglySorted R l ->
  Sorted.StronglySorted (fun a b => R a.1 b.1) (omap (fun k => pair k <$> f k) l).
Proof.
  induction 1 as [| x l Hl IH Hx]; [constructor |]. csimpl.
  destruct (f x) as [v |]; csimpl; [| done].
  constructor; [done |].
  apply Forall_forall. intros [k w] Hin.
  apply list_elem_of_omap in Hin as (k' & Hk' & Heq).
  destruct (f k'); simplify_eq/=.
  rewrite Forall_forall in Hx. by apply Hx.
Qed.

(** X9.  [Sorted] returns every entry of the log exactly once, in ascending
    byte-wise order of the keys under which [AddEntry] filed them. *)
Theorem Sorted_spec (cl : ChatLog) :
  exists kvs : list (string * ChatLogEntry),
    kvs ≡ₚ map_to_list cl /\
    Sorted.StronglySorted (fun a b => String.leb a.1 b.1 = true) kvs /\
    Sorted cl = kvs.*2.
Proof.
  exists (omap (fun k => pair k <$> cl !! k) (sort_Strings (map fst (map_to_list cl)))).
  split; [| split].
  - rewrite sort_Strings_perm, omap_pair_lookup; [done |].
    apply Forall_forall. intros [k v] Hin. by apply elem_of_map_to_list in Hin.
  - apply (omap_pair_sorted (fun a b => String.leb a b = true)), sort_Strings_sorted.
  - unfold Sorted. by rewrite omap_pair_snd.
Qed.

(** ** chat.go: a random entry of a table *)

Lemma getRandom_scan_In entries : forall c i,
  c <= i < c + len entries -> In (getRandom_scan entries c i) entries.
Proof.
  induction entries as [| [k v] entries IH]; intros c i Hi.
  - unfold len in Hi. simpl in Hi. lia.
  - simpl. destruct (Z.eqb_spec c i); [by left |]. right. apply IH.
    unfold len in *. simpl length in Hi. lia.
Qed.

Lemma popRandom_inv (E : Env) (l : lookup) (w : World) t k l' w' :
  range_order E (map fst (map_to_list l)) ≡ₚ map fst (map_to_list l) ->
  popRandom E l w = (Ok (t, k, l'), w') ->
  l !! t = Some k /\ l' = delete t l /\
  w' = {| kv := kv w; draws := S (draws w); trace := trace w |}.
Proof.
  intros Hperm. unfold popRandom, getRandom, bind, rand_Int_call, ret, try, fail.
  destruct (Z.leb_spec (Z.of_nat (size l)) 0) as [| Hsize]; [done |].
  set (x := rand_Int E (draws w) (Z.of_nat (size l)) mod Z.of_nat (size l)).
  set (entries := map (fun k => (k, lookup_get l k))
                      (range_order E (map fst (map_to_list l)))).
  assert (Hx : 0 <= x < 0 + len entries).
  { unfold entries, len. rewrite length_map, Hperm, length_map.
    rewrite length_map_to_list.
    pose proof (Z.mod_pos_bound (rand_Int E (draws w) (Z.of_nat (size l)))
                  (Z.of_nat (size l))). unfold x. lia. }
  pose proof (getRandom_scan_In entries 0 x Hx) as Hin.
  cbn [draws kv trace]. fold x.
  destruct (getRandom_scan entries 0 x) as [t0 k0] eqn:Hscan.
  intros [= <- <- <- <-].
  apply in_map_iff in Hin as (t1 & [= -> <-] & Hin).
  apply list_elem_of_In in Hin. rewrite Hperm in Hin.
  apply list_elem_of_fmap in Hin as ([t2 k2] & -> & Hin). simpl in *.
  apply elem_of_map_to_list in Hin.
  unfold lookup_get. by rewrite Hin.
Qed.

Lemma popRandom_Ok (E : Env) (l : lookup) (w : World) :
  l <> ∅ ->
  range_order E (map fst (map_to_list l)) ≡ₚ map fst (map_to_list l) ->
  exists t k,
    popRandom E l w
    = (Ok (t, k, delete t l),
       {| kv := kv w; draws := S (draws w); trace := trace w |}) /\
    l !! t = Some k.
Proof.
  intros Hne Hperm.
  assert (Hsize : (0 < size l)%nat).
  { destruct (decide (size l = 0%nat)) as [H0 | ?]; [| lia].
    by apply map_size_empty_iff in H0. }
  destruct (popRandom E l w) as [[[[t k] l'] | e | p |] w'] eqn:Hpop.
  - destruct (popRandom_inv E l w t k l' w' Hperm Hpop) as (Hk & -> & ->).
    by exists t, k.
  - revert Hpop. unfold popRandom, getRandom, bind, rand_Int_call, ret, try, fail.
    by destruct (Z.leb_spec (Z.of_nat (size l)) 0); [lia |].
  - revert Hpop. unfold popRandom, getRandom, bind, rand_Int_call, ret, try, fail.
    by destruct (Z.leb_spec (Z.of_nat (size l)) 0); [lia |].
  - revert Hpop. unfold popRandom, getRandom, bind, rand_Int_call, ret, try, fail.
    by destruct (Z.leb_spec (Z.of_nat (size l)) 0); [lia |].
Qed.

(** X10.  On a table that is not empty, and whatever order [range] visits the
    keys in, [popRandom] makes one draw, returns an entry of the table, tag
    and key, and the table without that tag: one entry less, all others
    kept. *)
Theorem popRandom_nonempty (E : Env) (l : lookup) (w : World) :
  l <> ∅ ->
  range_order E (map fst (map_to_list l)) ≡ₚ map fst (map_to_list l) ->
  exists t k,
    popRandom E l w
    = (Ok (t, k, delete t l),
       {| kv := kv w; draws := S (draws w); trace := trace w |}) /\
    l !! t = Some k /\
    (size (delete t l) + 1 = size l)%nat /\
    (forall t', t' <> t -> delete t l !! t' = l !! t').
Proof.
  intros Hne Hperm.
  destruct (popRandom_Ok E l w Hne Hperm) as (t & k & Hpop & Hk).
  exists t, k. split; [done |]. split; [done |]. split.
  - rewrite map_size_delete, Hk.
    assert (size l <> 0%nat); [| lia].
    intros Hz. apply map_size_empty_iff in Hz. by subst l.
  - intros t' Ht'. by apply lookup_delete_ne.
Qed.

Lemma popRandom_nonempty_witness :
  exists t k,
    popRandom (demo_env offline) demo_lookup (demo_world ∅)
    = (Ok (t, k, delete t demo_lookup),
       {| kv := kv (demo_world ∅); draws := 1; trace := [] |}) /\
    demo_lookup !! t = Some k /\
    (size (delete t demo_lookup) + 1 = size demo_lookup)%nat /\
    (forall t', t' <> t -> delete t demo_lookup !! t' = demo_lookup !! t').
Proof.
  apply (popRandom_nonempty (demo_env offline) demo_lookup (demo_world ∅)).
  - intros H. apply (f_equal (fun m => m !! demo_tag)) in H.
    unfold demo_lookup in H. by rewrite lookup_insert_eq in H.
  - reflexivity.
Defined.

(** ** chat.go: the log and its hashes *)

Lemma string_app_assoc (a b c : string) : (a +:+ b) +:+ c = a +:+ (b +:+ c).
Proof.
  induction a as [| x a IH]; [by rewrite !append_nil_l |].
  rewrite !append_cons. by rewrite IH.
Qed.

Lemma string_app_nil_r (s : string) : s +:+ "" = s.
Proof.
  induction s as [| x s IH]; [by rewrite append_nil_l |].
  rewrite append_cons. by rewrite IH.
Qed.

Lemma AddEntry_key (cl : ChatLog) (e : ChatLogEntry) :
  fst (AddEntry cl e) = Ok tt ->
  exists ts, snd (AddEntry cl e) = <[entry_key ts (ID e) := e]> cl.
Proof.
  unfold AddEntry. destruct (_ && _); [done |]. intros _. by eexists.
Qed.

Lemma HashInLog_insert (cl : ChatLog) key e h :
  HashInLog cl h = true -> HashInLog (<[key := e]> cl) h = true.
Proof.
  rewrite !HashInLog_spec. intros (k & e0 & Hk & Hsub).
  destruct (decide (k = key)) as [-> | Hne].
  - exists key, e. split; [by rewrite lookup_insert_eq | done].
  - exists k, e0. split; [by rewrite lookup_insert_ne | done].
Qed.

(** X11.  Once an entry is added, its ID is found in the log; adding never
    makes a hash disappear that was found before; and adding the same entry
    again changes nothing. *)
Theorem AddEntry_HashInLog (cl : ChatLog) (e : ChatLogEntry) :
  fst (AddEntry cl e) = Ok tt ->
  HashInLog (snd (AddEntry cl e)) (ID e) = true /\
  (forall h, HashInLog cl h = true -> HashInLog (snd (AddEntry cl e)) h = true) /\
  AddEntry (snd (AddEntry cl e)) e = AddEntry cl e.
Proof.
  intros Hok. destruct (AddEntry_key cl e Hok) as [ts Hcl].
  split; [| split].
  - rewrite Hcl. apply HashInLog_spec.
    exists (entry_key ts (ID e)), e. split; [by rewrite lookup_insert_eq |].
    exists (fmt_int ts +:+ "-")%string, EmptyString. unfold entry_key.
    by rewrite string_app_nil_r, string_app_assoc.
  - intros h Hh. rewrite Hcl. by apply HashInLog_insert.
  - clear Hcl. revert Hok. unfold AddEntry.
    destruct (_ && _) eqn:Hz; [done |].
    intros _. cbn [snd]. by rewrite insert_insert_eq.
Qed.

Lemma AddEntry_HashInLog_witness :
  HashInLog (snd (AddEntry ∅ demo_entry)) (ID demo_entry) = true.
Proof.
  exact (proj1 (AddEntry_HashInLog ∅ demo_entry eq_refl)).
Defined.

(** ** Paths *)

Lemma string_len_cons a s : string_len (String a s) = string_len s + 1.
Proof. unfold string_len. simpl. lia. Qed.

Lemma string_len_nonneg s : 0 <= string_len s.
Proof. unfold string_len. lia. Qed.

Lemma string_len_app a b : string_len (a +:+ b) = string_len a + string_len b.
Proof.
  induction a as [| x a IH]; [by rewrite append_nil_l |].
  rewrite append_cons, !string_len_cons, IH. lia.
Qed.

Lemma string_drop_app (a b : string) :
  string_drop (Z.to_nat (string_len a)) (a +:+ b) = b.
Proof.
  induction a as [| x a IH]; [by rewrite append_nil_l |].
  rewrite append_cons, string_len_cons.
  replace (Z.to_nat (string_len a + 1)) with (S (Z.to_nat (string_len a)))
    by (pose proof (string_len_nonneg a); lia).
  exact IH.
Qed.

Lemma string_take_app (a b : string) :
  string_take (Z.to_nat (string_len a)) (a +:+ b) = a.
Proof.
  induction a as [| x a IH]; [by rewrite append_nil_l |].
  rewrite append_cons, string_len_cons.
  replace (Z.to_nat (string_len a + 1)) with (S (Z.to_nat (string_len a)))
    by (pose proof (string_len_nonneg a); lia).
  simpl. by rewrite IH.
Qed.

Lemma strings_HasPrefix_byte a s b :
  strings_HasPrefix (String a s) (String b EmptyString) = Ascii.eqb b a.
Proof.
  cbn [strings_HasPrefix]. destruct (Ascii.eqb b a); [| done]. by destruct s.
Qed.

Lemma strings_LastIndex_slash s : forall i,
  0 <= i ->
  (strings_LastIndex_from s "/" i = -1 /\ strings_Contains s "/" = false) \/
  (exists pre h, s = pre +:+ "/" +:+ h /\
     strings_LastIndex_from s "/" i = i + string_len pre /\
     strings_Contains h "/" = false).
Proof.
  induction s as [| a s IH]; intros i Hi.
  - left. by rewrite strings_Contains_nil.
  - cbn [strings_LastIndex_from].
    destruct (IH (i + 1)) as [[Hr Hc] | (pre & h & -> & Hr & Hc)]; [lia | |].
    + rewrite Hr. change (-1 >=? 0) with false. cbv iota.
      rewrite strings_Contains_cons, Hc, orb_false_r, strings_HasPrefix_byte.
      destruct (Ascii.eqb_spec "/"%char a) as [<- | Hne]; [| by left].
      right. exists EmptyString, s. rewrite append_nil_l.
      split; [done |]. split; [unfold string_len; simpl; lia | done].
    + rewrite Hr.
      destruct (Z.geb_spec (i + 1 + string_len pre) 0) as [_ | H];
        [| pose proof (string_len_nonneg pre); lia].
      right. exists (String a pre), h. rewrite append_cons.
      split; [done |]. split; [rewrite string_len_cons; lia | done].
Qed.

(** X12.  [getHashFromPath] never panics.  It returns the part of the path
    after its last slash, the whole path when there is none: the result
    holds no slash, and the path is some prefix, a slash, and the result. *)
Theorem getHashFromPath_spec (path : string) :
  exists h, getHashFromPath path = Ok h /\
    strings_Contains h "/" = false /\
    ((strings_Contains path "/" = false /\ h = path) \/
     exists pre, path = pre +:+ "/" +:+ h).
Proof.
  unfold getHashFromPath, strings_LastIndex.
  destruct (strings_LastIndex_slash path 0) as [[Hr Hc] | (pre & h & Hp & Hr & Hc)];
    [lia | |].
  - rewrite Hr. simpl. exists path. split; [done |]. split; [done | by left].
  - rewrite Hr. pose proof (string_len_nonneg pre) as Hpre.
    destruct (Z.eqb_spec (0 + string_len pre) (-1)); [lia |].
    exists h. split; [| split; [done | right; by exists pre]].
    unfold go_substr_from. rewrite Hp at 1.
    rewrite string_len_app, string_len_app.
    change (string_len "/") with 1. pose proof (string_len_nonneg h).
    destruct (Z.leb_spec 0 (0 + string_len pre + 1)); [| lia].
    destruct (Z.leb_spec (0 + string_len pre + 1) (string_len pre + (1 + string_len h)));
      [| lia].
    simpl. f_equal. subst path.
    rewrite <- string_app_assoc.
    replace (0 + string_len pre + 1) with (string_len (pre +:+ "/"))
      by (rewrite string_len_app; change (string_len "/") with 1; lia).
    apply string_drop_app.
Qed.

Lemma strings_HasSuffix_app_byte (b : string) (c : ascii) :
  strings_HasSuffix (b +:+ String c EmptyString) (String c EmptyString) = true.
Proof.
  unfold strings_HasSuffix. rewrite string_len_app.
  change (string_len (String c EmptyString)) with 1.
  pose proof (string_len_nonneg b).
  destruct (Z.geb_spec (string_len b + 1) 1); [| lia]. simpl.
  replace (string_len b + 1 - 1) with (string_len b) by lia.
  rewrite string_drop_app. apply String.eqb_refl.
Qed.

Lemma strings_TrimSuffix_app_byte (b : string) (c : ascii) :
  strings_TrimSuffix (b +:+ String c EmptyString) (String c EmptyString) = Ok b.
Proof.
  unfold strings_TrimSuffix. rewrite strings_HasSuffix_app_byte.
  unfold go_substr_to. rewrite string_len_app.
  change (string_len (String c EmptyString)) with 1.
  pose proof (string_len_nonneg b).
  replace (string_len b + 1 - 1) with (string_len b) by lia.
  destruct (Z.leb_spec 0 (string_len b)); [| lia].
  destruct (Z.leb_spec (string_len b) (string_len b + 1)); [| lia].
  simpl. by rewrite string_take_app.
Qed.

Lemma strings_TrimPrefix_cons_byte (c : ascii) (a : string) :
  strings_TrimPrefix (String c a) (String c EmptyString) = Ok a.
Proof.
  unfold strings_TrimPrefix. rewrite strings_HasPrefix_byte, Ascii.eqb_refl.
  unfold go_substr_from. change (string_len (String c EmptyString)) with 1.
  rewrite string_len_cons. pose proof (string_len_nonneg a).
  destruct (Z.leb_spec 1 (string_len a + 1)); [| lia]. reflexivity.
Qed.

(** X13.  [appendToPath] joins a base and an addition with exactly one slash
    whether or not the base ends with one and the addition starts with one,
    and never panics on such input; an empty addition gives the base back. *)
Theorem appendToPath_spec (base add : string) :
  appendToPath base "" = Ok base /\
  (add <> "" ->
   strings_HasSuffix base "/" = false -> strings_HasPrefix add "/" = false ->
   appendToPath base add = Ok (base +:+ "/" +:+ add) /\
   appendToPath (base +:+ "/") add = Ok (base +:+ "/" +:+ add) /\
   appendToPath base ("/" +:+ add) = Ok (base +:+ "/" +:+ add) /\
   appendToPath (base +:+ "/") ("/" +:+ add) = Ok (base +:+ "/" +:+ add)).
Proof.
  split; [done |]. intros Hadd Hb Ha.
  assert (Hne : String.eqb add "" = false) by (by apply String.eqb_neq).
  assert (Hne' : String.eqb ("/" +:+ add) "" = false) by (by apply String.eqb_neq).
  unfold appendToPath. rewrite Hne, Hne'.
  rewrite strings_TrimSuffix_app_byte.
  change ("/" +:+ add)%string with (String "/" add) at 3 5.
  rewrite strings_TrimPrefix_cons_byte.
  unfold strings_TrimSuffix, strings_TrimPrefix. rewrite Hb, Ha. done.
Qed.

(** ** chat.go: the chat IDs of a list of paths *)

Lemma uniqueChatIDs_collect_spec paths profileID : forall idMap,
  Forall (fun l => strings_Contains l profileID = true ->
                   is_Some (strings_Split l "/" !! 1%nat)) paths ->
  exists m, uniqueChatIDs_collect paths profileID idMap = Ok m /\
    forall id, is_Some (m !! id) <->
      is_Some (idMap !! id) \/
      exists l, l ∈ paths /\ strings_Contains l profileID = true /\
                strings_Split l "/" !! 1%nat = Some id.
Proof.
  induction paths as [| l paths IH]; intros idMap Hall.
  - exists idMap. split; [done |]. intros id. split; [by left |].
    intros [H | (l & Hl & _)]; [done | by apply elem_of_nil in Hl].
  - apply Forall_cons in Hall as [Hl Hall]. cbn [uniqueChatIDs_collect].
    destruct (strings_Contains l profileID) eqn:Hc.
    + destruct (Hl eq_refl) as [id0 Hid0]. rewrite Hid0.
      destruct (IH (<[id0 := tt]> idMap) Hall) as (m & Hm & Hspec).
      exists m. split; [done |]. intros id. rewrite Hspec. split.
      * intros [H | (l' & Hl' & Hc' & Hs')].
        -- destruct (decide (id0 = id)) as [<- | Hne].
           ++ right. exists l. split; [by left | done].
           ++ left. by rewrite lookup_insert_ne in H.
        -- right. exists l'. split; [by right | done].
      * intros [H | (l' & Hl' & Hc' & Hs')].
        -- left. destruct (decide (id0 = id)) as [<- | Hne].
           ++ by rewrite lookup_insert_eq.
           ++ by rewrite lookup_insert_ne.
        -- apply elem_of_cons in Hl' as [-> | Hl'].
           ++ left. rewrite Hid0 in Hs'. injection Hs' as ->.
              by rewrite lookup_insert_eq.
           ++ right. by exists l'.
    + destruct (IH idMap Hall) as (m & Hm & Hspec).
      exists m. split; [done |]. intros id. rewrite Hspec. split.
      * intros [H | (l' & Hl' & Hc' & Hs')]; [by left |].
        right. exists l'. split; [by right | done].
      * intros [H | (l' & Hl' & Hc' & Hs')]; [by left |].
        apply elem_of_cons in Hl' as [-> | Hl']; [congruence |].
        right. by exists l'.
Qed.

Lemma uniqueChatIDs_collect_panics paths profileID : forall idMap pre l post,
  paths = pre ++ l :: post ->
  Forall (fun l => strings_Contains l profileID = true ->
                   is_Some (strings_Split l "/" !! 1%nat)) pre ->
  strings_Contains l profileID = true ->
  strings_Split l "/" !! 1%nat = None ->
  uniqueChatIDs_collect paths profileID idMap
  = Panic "index out of range [1] with length 1".
Proof.
  intros idMap pre. revert paths idMap.
  induction pre as [| x pre IH]; intros paths idMap l post -> Hpre Hc Hs.
  - simpl. by rewrite Hc, Hs.
  - apply Forall_cons in Hpre as [Hx Hpre]. cbn [app uniqueChatIDs_collect].
    destruct (strings_Contains x profileID).
    + destruct (Hx eq_refl) as [id0 ->]. by eapply IH.
    + by eapply IH.
Qed.

Lemma strings_Split_head_no_sep s c :
  exists x rest, strings_Split s c = x :: rest.
Proof.
  induction s as [| a s (x & rest & IH)]; simpl; [by eexists _, _ |].
  destruct (Ascii.eqb a c); [by eexists _, _ |]. rewrite IH. by eexists _, _.
Qed.

Lemma strings_Split_second s c :
  is_Some (strings_Split s c !! 1%nat) <->
  strings_Contains s (String c EmptyString) = true.
Proof.
  induction s as [| a s IH].
  - simpl. split; [by intros [? ?] | done].
  - rewrite strings_Contains_cons, strings_HasPrefix_byte. cbn [strings_Split].
    rewrite (Ascii.eqb_sym c a).
    destruct (Ascii.eqb a c).
    + destruct (strings_Split_head_no_sep s c) as (x & rest & ->). simpl.
      split; [done | by eexists].
    + simpl. rewrite <- IH.
      destruct (strings_Split_head_no_sep s c) as (x & rest & ->). done.
Qed.

Lemma uniqueChatIDsFromPaths_ok (E : Env) (paths : list string) (profileID : string) :
  (forall ks, range_order E ks ≡ₚ ks) ->
  Forall (fun l => strings_Contains l profileID = true ->
                   strings_Contains l "/" = true) paths ->
  exists ids, uniqueChatIDsFromPaths E paths profileID = Ok ids /\
    NoDup ids /\
    forall id, id ∈ ids <->
      exists l, l ∈ paths /\ strings_Contains l profileID = true /\
                strings_Split l "/" !! 1%nat = Some id.
Proof.
  intros Hrange Hall.
  destruct (uniqueChatIDs_collect_spec paths profileID ∅) as (m & Hm & Hspec).
  { eapply Forall_impl; [exact Hall |]. intros l Hl Hc.
    by apply strings_Split_second, Hl. }
  unfold uniqueChatIDsFromPaths. rewrite Hm. simpl.
  eexists. split; [done |]. split.
  - rewrite Hrange. apply NoDup_fst_map_to_list.
  - intros id. rewrite Hrange. split.
    + intros Hin. apply list_elem_of_fmap in Hin as ([k u] & -> & Hin).
      apply elem_of_map_to_list in Hin. simpl.
      destruct (proj1 (Hspec k)) as [[? H] | H];
        [by eexists | by rewrite lookup_empty in H | done].
    + intros H. destruct (proj2 (Hspec id) (or_intror H)) as [[] Hm'].
      apply list_elem_of_fmap. exists (id, tt). split; [done |].
      by apply elem_of_map_to_list.
Qed.

(** X14.  [uniqueChatIDsFromPaths] returns, each once, the second
    slash-separated component of every path that contains the profile ID as
    a substring, provided each such path holds a slash; on the first such
    path without a slash it panics on the index. *)
Theorem uniqueChatIDsFromPaths_spec (E : Env) (paths : list string)
  (profileID : string) :
  (forall ks, range_order E ks ≡ₚ ks) ->
  (Forall (fun l => strings_Contains l profileID = true ->
                    strings_Contains l "/" = true) paths ->
   exists ids, uniqueChatIDsFromPaths E paths profileID = Ok ids /\
     NoDup ids /\
     forall id, id ∈ ids <->
       exists l, l ∈ paths /\ strings_Contains l profileID = true /\
                 strings_Split l "/" !! 1%nat = Some id) /\
  (forall pre l post,
     paths = pre ++ l :: post ->
     Forall (fun l => strings_Contains l profileID = true ->
                      strings_Contains l "/" = true) pre ->
     strings_Contains l profileID = true ->
     strings_Contains l "/" = false ->
     uniqueChatIDsFromPaths E paths profileID
     = Panic "index out of range [1] with length 1").
Proof.
  intros Hrange. split.
  - by apply uniqueChatIDsFromPaths_ok.
  - intros pre l post Hp Hpre Hc Hs.
    unfold uniqueChatIDsFromPaths.
    rewrite (uniqueChatIDs_collect_panics paths profileID ∅ pre l post); try done.
    + eapply Forall_impl; [exact Hpre |]. intros x Hx Hxc.
      by apply strings_Split_second, Hx.
    + destruct (strings_Split l "/" !! 1%nat) eqn:H; [| done].
      assert (Hsome : is_Some (strings_Split l "/" !! 1%nat)) by (by eexists).
      apply strings_Split_second in Hsome. congruence.
Qed.

Lemma uniqueChatIDsFromPaths_spec_witness :
  uniqueChatIDsFromPaths (demo_env offline) ["chats/c/p/config"; "p"] "p"
  = Panic "index out of range [1] with length 1".
Proof.
  apply (proj2 (uniqueChatIDsFromPaths_spec (demo_env offline)
                  ["chats/c/p/config"; "p"] "p" (fun ks => Permutation_refl ks))
           ["chats/c/p/config"] "p" []); reflexivity || (by repeat constructor).
Defined.

(** ** storage_bolt.go: listing by prefix *)

Lemma string_ltb_iff s t : String.ltb s t = true <-> String.compare s t = Lt.
Proof. unfold String.ltb. by destruct (String.compare s t). Qed.

Lemma string_ltb_false_leb s t : String.ltb s t = false -> String.leb t s = true.
Proof.
  unfold String.ltb, String.leb. rewrite (String.compare_antisym s t).
  by destruct (String.compare t s).
Qed.

Lemma string_leb_ltb_trans s t u :
  String.leb s t = true -> String.ltb t u = true -> String.ltb s u = true.
Proof.
  rewrite string_leb_iff, !string_ltb_iff. intros [H | ->] H2; [| done].
  by eapply string_compare_lt_trans.
Qed.

Lemma strings_HasPrefix_between p : forall y k,
  String.leb p y = true -> String.leb y k = true ->
  strings_HasPrefix k p = true -> strings_HasPrefix y p = true.
Proof.
  induction p as [| a p IH]; intros y k Hpy Hyk Hk; [by destruct y |].
  destruct k as [| c k]; [done |]. destruct y as [| b y]; [done |].
  cbn [strings_HasPrefix] in *.
  destruct (Ascii.eqb_spec a c) as [<- | ?]; [| done].
  revert Hpy Hyk. unfold String.leb. cbn [String.compare]. unfold Ascii.compare.
  destruct (N.compare_spec (N_of_ascii a) (N_of_ascii b)) as [Hab | Hab | Hab];
    destruct (N.compare_spec (N_of_ascii b) (N_of_ascii a)) as [Hba | Hba | Hba];
    try done; try lia.
  assert (a = b) as <-.
  { rewrite <- (ascii_N_embedding a), <- (ascii_N_embedding b). by rewrite Hab. }
  rewrite Ascii.eqb_refl. intros H1 H2. by eapply IH.
Qed.

Lemma cursor_Seek_elem keys p k :
  k ∈ keys -> String.ltb k p = false -> k ∈ cursor_Seek keys p.
Proof.
  induction keys as [| x keys IH]; intros Hin Hk; [done |]. simpl.
  destruct (String.ltb x p) eqn:Hx; [| done].
  apply elem_of_cons in Hin as [-> | Hin]; [congruence | by apply IH].
Qed.

Lemma cursor_Seek_suffix keys p : cursor_Seek keys p `suffix_of` keys.
Proof.
  induction keys as [| x keys IH]; simpl; [done |].
  destruct (String.ltb x p); [by apply suffix_cons_r | done].
Qed.

Lemma cursor_Seek_sorted keys p :
  Sorted.StronglySorted (fun a b => String.leb a b = true) keys ->
  Sorted.StronglySorted (fun a b => String.leb a b = true) (cursor_Seek keys p) /\
  Forall (fun k => String.ltb k p = false) (cursor_Seek keys p).
Proof.
  induction 1 as [| x keys Hs IH Hx]; simpl; [by split; constructor |].
  destruct (String.ltb x p) eqn:Hxp; [done |]. split; [by constructor |].
  constructor; [done |]. eapply Forall_impl; [exact Hx |]. intros y Hy. simpl in Hy.
  destruct (String.ltb y p) eqn:Hyp; [| done].
  by rewrite (string_leb_ltb_trans x y p) in Hxp.
Qed.

Lemma List_loop_prefix cursor p : List_loop cursor p `prefix_of` cursor.
Proof.
  induction cursor as [| k cursor IH]; simpl; [done |].
  destruct (strings_HasPrefix k p); [by apply prefix_cons | apply prefix_nil].
Qed.

Lemma List_loop_elem cursor p k :
  k ∈ List_loop cursor p -> strings_HasPrefix k p = true.
Proof.
  induction cursor as [| x cursor IH]; simpl; [by intros H; apply elem_of_nil in H |].
  destruct (strings_HasPrefix x p) eqn:Hx; [| by intros H; apply elem_of_nil in H].
  intros [-> | Hin]%elem_of_cons; [done | by apply IH].
Qed.

Lemma List_loop_complete cursor p k :
  Sorted.StronglySorted (fun a b => String.leb a b = true) cursor ->
  Forall (fun k => String.ltb k p = false) cursor ->
  k ∈ cursor -> strings_HasPrefix k p = true -> k ∈ List_loop cursor p.
Proof.
  induction 1 as [| x cursor Hs IH Hx]; intros Hge Hin Hk;
    [by apply elem_of_nil in Hin |].
  apply Forall_cons in Hge as [Hxp Hge]. simpl.
  apply elem_of_cons in Hin as [-> | Hin].
  - rewrite Hk. by left.
  - rewrite Forall_forall in Hx.
    rewrite (strings_HasPrefix_between p x k);
      [right; by apply IH | by apply string_ltb_false_leb | by apply Hx | done].
Qed.

Lemma sort_Strings_keys {V} (b : gmap string V) k :
  k ∈ sort_Strings (map fst (map_to_list b)) <-> is_Some (b !! k).
Proof.
  rewrite sort_Strings_perm. split.
  - intros ([k' v] & -> & Hin)%list_elem_of_fmap.
    apply elem_of_map_to_list in Hin. by eexists.
  - intros [v Hv]. apply list_elem_of_fmap. exists (k, v).
    split; [done | by apply elem_of_map_to_list].
Qed.

Lemma string_prefix_not_below (path post : string) :
  String.ltb (path +:+ post) path = false.
Proof.
  destruct (String.ltb (path +:+ post) path) eqn:Hlt; [| done].
  apply string_ltb_iff in Hlt. exfalso.
  induction path as [| a path IH].
  - rewrite append_nil_l in Hlt. by destruct post.
  - rewrite append_cons in Hlt. cbn [String.compare] in Hlt.
    unfold Ascii.compare in Hlt. rewrite N.compare_refl in Hlt. by apply IH.
Qed.

Lemma bolt_List_elem {V} (b : gmap string V) (path : string) k :
  k ∈ bolt_List b path <-> is_Some (b !! k) /\ strings_HasPrefix k path = true.
Proof.
  unfold bolt_List.
  set (keys := sort_Strings (map fst (map_to_list b))).
  destruct (cursor_Seek_sorted keys path (sort_Strings_sorted _)) as [Hcs Hge].
  split.
  - intros Hin. split; [| by eapply List_loop_elem].
    apply sort_Strings_keys. eapply elem_of_suffix; [| apply cursor_Seek_suffix].
    eapply elem_of_prefix; [exact Hin | apply List_loop_prefix].
  - intros [Hk Hp]. apply List_loop_complete; [done | done | | done].
    apply cursor_Seek_elem; [by apply sort_Strings_keys |].
    apply strings_HasPrefix_spec in Hp as [post ->].
    apply string_prefix_not_below.
Qed.

(** X15.  [List] returns exactly the keys of the store that start with the
    path, each once and in ascending byte-wise order. *)
Theorem bolt_List_spec {V} (b : gmap string V) (path : string) :
  (forall k, k ∈ bolt_List b path <->
             is_Some (b !! k) /\ strings_HasPrefix k path = true) /\
  NoDup (bolt_List b path) /\
  Sorted.StronglySorted (fun x y => String.leb x y = true) (bolt_List b path).
Proof.
  split; [intros k; apply bolt_List_elem |].
  unfold bolt_List.
  set (keys := sort_Strings (map fst (map_to_list b))).
  assert (Hnd : NoDup keys).
  { unfold keys. rewrite sort_Strings_perm. apply NoDup_fst_map_to_list. }
  destruct (cursor_Seek_sorted keys path (sort_Strings_sorted _)) as [Hcs _].
  destruct (cursor_Seek_suffix keys path) as [pre Hsuf].
  destruct (List_loop_prefix (cursor_Seek keys path) path) as [rest Hrest].
  split.
  - rewrite Hsuf, Hrest in Hnd. apply NoDup_app in Hnd as (_ & _ & Hnd).
    by apply NoDup_app in Hnd as (Hnd & _).
  - rewrite Hrest in Hcs.
    clear -Hcs. induction (List_loop (cursor_Seek keys path) path) as [| x l IH];
      [constructor |].
    simpl in Hcs. inversion Hcs as [| ? ? Hl Hx]; subst.
    constructor; [by apply IH |]. by apply Forall_app in Hx as [Hx _].
Qed.

(** ** session.go: deleting by prefix *)

Lemma deleteAll_loop_ok {V} E (keys : list string) : forall b : gmap string V,
  Forall (fun k => kv_Set_error E k = None) keys ->
  exists b', deleteAll_loop E keys b = (Ok tt, b') /\
    forall k, b' !! k = if decide (k ∈ keys) then None else b !! k.
Proof.
  induction keys as [| x keys IH]; intros b Hall.
  - exists b. split; [done |]. intros k.
    destruct (decide (k ∈ [])) as [H | _]; [by apply elem_of_nil in H | done].
  - apply Forall_cons in Hall as [Hx Hall]. cbn [deleteAll_loop].
    unfold bolt_Delete. rewrite Hx.
    destruct (IH (delete x b) Hall) as (b' & Hb' & Hlook).
    exists b'. split; [done |]. intros k. rewrite Hlook.
    destruct (decide (k ∈ keys)) as [Hin | Hnin].
    + destruct (decide (k ∈ x :: keys)) as [_ | H]; [done |].
      exfalso. apply H. by right.
    + destruct (decide (k = x)) as [-> | Hne].
      * rewrite lookup_delete_eq.
        destruct (decide (x ∈ x :: keys)) as [_ | H]; [done |].
        exfalso. apply H. by left.
      * rewrite lookup_delete_ne by done.
        destruct (decide (k ∈ x :: keys)) as [H | _]; [| done].
        by apply elem_of_cons in H as [? | ?].
Qed.

Lemma deleteAll_loop_fails {V} E (pre : list string) : forall (b : gmap string V) x post e,
  Forall (fun k => kv_Set_error E k = None) pre ->
  kv_Set_error E x = Some e ->
  exists b', deleteAll_loop E (pre ++ x :: post) b = (Err e, b') /\
    forall k, b' !! k = if decide (k ∈ pre) then None else b !! k.
Proof.
  intros b x post e Hpre Hx.
  destruct (deleteAll_loop_ok E pre b Hpre) as (b' & Hb' & Hlook).
  exists b'. split; [| done]. clear Hlook. revert b Hb'.
  induction pre as [| y pre IH]; intros b Hb'.
  - simpl in *. injection Hb' as <-. unfold bolt_Delete. by rewrite Hx.
  - apply Forall_cons in Hpre as [Hy Hpre]. cbn [app deleteAll_loop] in *.
    unfold bolt_Delete in *. rewrite Hy in *. by apply IH.
Qed.

(** X16.  When no deletion fails, [deleteAllWithPrefix] removes every key
    that starts with the prefix and leaves every other key as it was.  It
    is not atomic: when the deletion of a key fails, the keys listed before
    it are gone and the error is returned. *)
Theorem deleteAllWithPrefix_spec {V} (E : Env) (b : gmap string V) (prefix : string) :
  ((forall k, is_Some (b !! k) -> strings_HasPrefix k prefix = true ->
              kv_Set_error E k = None) ->
   exists b', deleteAllWithPrefix E b prefix = (Ok tt, b') /\
     forall k, b' !! k = if strings_HasPrefix k prefix then None else b !! k) /\
  (forall pre x post e,
     bolt_List b prefix = pre ++ x :: post ->
     Forall (fun k => kv_Set_error E k = None) pre ->
     kv_Set_error E x = Some e ->
     exists b', deleteAllWithPrefix E b prefix = (Err e, b') /\
       forall k, b' !! k = if decide (k ∈ pre) then None else b !! k).
Proof.
  pose proof (fun k => bolt_List_elem b prefix k) as Hlist.
  unfold deleteAllWithPrefix. split.
  - intros Hok.
    destruct (deleteAll_loop_ok E (bolt_List b prefix) b) as (b' & Hb' & Hlook).
    { apply Forall_forall. intros k Hk. apply Hlist in Hk as [H1 H2]. by apply Hok. }
    exists b'. split; [done |]. intros k. rewrite Hlook.
    destruct (decide (k ∈ bolt_List b prefix)) as [Hin | Hnin].
    + apply Hlist in Hin as [_ ->]. done.
    + destruct (strings_HasPrefix k prefix) eqn:Hp; [| done].
      destruct (b !! k) as [v |] eqn:Hk; [| done].
      exfalso. apply Hnin, Hlist. split; [by eexists | done].
  - intros pre x post e -> Hpre Hx. by apply deleteAll_loop_fails.
Qed.

(** ** session.go: the chats of a profile *)

Lemma strings_Split_second_of_path (a b : string) :
  strings_Contains a "/" = false ->
  strings_Contains b "/" = false ->
  forall rest, strings_Split (a +:+ "/" +:+ b +:+ "/" +:+ rest) "/" !! 1%nat = Some b.
Proof.
  intros Ha Hb rest.
  assert (Hfirst : forall s t, strings_Contains s "/" = false ->
            strings_Split (s +:+ "/" +:+ t) "/" = s :: strings_Split t "/").
  { clear. induction s as [| x s IH]; intros t Hs.
    - by rewrite append_nil_l.
    - rewrite strings_Contains_cons, strings_HasPrefix_byte in Hs.
      apply orb_false_elim in Hs as [Hx Hs].
      rewrite append_cons. cbn [strings_Split].
      rewrite Ascii.eqb_sym, Hx, IH by done. done. }
  rewrite Hfirst by done. simpl. by rewrite Hfirst.
Qed.

(** X17.  [ListChats] never panics on the index: every key it is handed
    starts with "chats/".  The IDs it encodes are, each once, the second
    component of the stored keys under "chats/" that contain the profile
    ID; the chat of this profile saved under an ID without a slash is
    among them. *)
Theorem ListChats_spec (E : Env) (S : Session)
  (json_Marshal_ids : list string -> result (list byte)) (w : World) :
  (forall ks, range_order E ks ≡ₚ ks) ->
  exists ids, ListChats E S json_Marshal_ids w = (json_Marshal_ids ids, w) /\
    NoDup ids /\
    (forall id, id ∈ ids <->
       exists key, is_Some (kv w !! key) /\
         strings_HasPrefix key "chats/" = true /\
         strings_Contains key (profile_ID S) = true /\
         strings_Split key "/" !! 1%nat = Some id) /\
    (forall chatID, strings_Contains chatID "/" = false ->
       is_Some (kv w !! chat_key S chatID) -> chatID ∈ ids).
Proof.
  intros Hrange.
  pose proof (fun k => bolt_List_elem (kv w) "chats/" k) as Hlist.
  destruct (uniqueChatIDsFromPaths_ok E (bolt_List (kv w) "chats/")
              (profile_ID S) Hrange) as (ids & Hids & Hnd & Hspec).
  { apply Forall_forall. intros l Hl _. apply Hlist in Hl as [_ Hp].
    apply strings_HasPrefix_spec in Hp as [post ->].
    apply strings_Contains_spec. by exists "chats"%string, post. }
  assert (Hmem : forall id, id ∈ ids <->
       exists key, is_Some (kv w !! key) /\
         strings_HasPrefix key "chats/" = true /\
         strings_Contains key (profile_ID S) = true /\
         strings_Split key "/" !! 1%nat = Some id).
  { intros id. rewrite Hspec. split.
    - intros (l & Hl & Hc & Hs). apply Hlist in Hl as [H1 H2]. by exists l.
    - intros (key & H1 & H2 & Hc & Hs). exists key.
      split; [by apply Hlist | done]. }
  exists ids. split; [| split; [done | split; [done |]]].
  - unfold ListChats. by rewrite Hids.
  - intros chatID Hc Hk. apply Hmem. exists (chat_key S chatID).
    split; [done |]. unfold chat_key. split; [| split].
    + apply strings_HasPrefix_spec. by eexists.
    + apply strings_Contains_spec.
      exists ("chats/" +:+ chatID +:+ "/")%string, "/config"%string.
      by rewrite !string_app_assoc.
    + change ("chats/" +:+ chatID +:+ "/" +:+ profile_ID S +:+ "/config")%string
        with ("chats" +:+ "/" +:+ chatID +:+ "/" +:+ (profile_ID S +:+ "/config"))%string.
      by apply strings_Split_second_of_path.
Qed.

Lemma ListChats_spec_witness :
  exists ids : list string,
    ListChats (demo_env offline) demo_session (fun _ => Ok []) (demo_world ∅)
    = (Ok [], demo_world ∅) /\ "c"%string ∈ ids.
Proof.
  destruct (ListChats_spec (demo_env offline) demo_session (fun _ => Ok [])
              (demo_world ∅) (fun ks => Permutation_refl ks))
    as (ids & Hrun & _ & _ & Hin).
  exists ids. split; [exact Hrun |]. apply Hin; [reflexivity |].
  unfold demo_world. simpl. rewrite lookup_insert_eq. by eexists.
Defined.

(** ** session.go: what is set is what is got *)

(** X18.  With a profile key of 32 bytes, a value written by [Session.set]
    under a key the store accepts is read back unchanged by [Session.get]
    under that key, the other keys of the store being untouched; a key that
    was never written reads as no bytes, without an error. *)
Theorem Session_get_set_bytes (E : Env) (profile_Key : list byte) :
  secretbox_laws E -> len profile_Key = 32 ->
  (forall b key value d, kv_Set_error E key = None ->
     exists encrypted d',
       Session_set_bytes E profile_Key b key value d
       = (Ok key, <[key := encrypted]> b, d') /\
       Session_get_bytes E profile_Key (<[key := encrypted]> b) key = Ok value) /\
  (forall b key, b !! key = None ->
     Session_get_bytes E profile_Key b key = Ok []).
Proof.
  intros Hlaws Hk. split.
  - intros b key value d Hset.
    destruct (Encrypt_loop_spec E Hlaws newTimeSeriesSBCipher ltac:(done) value
                (copy_into 32 profile_Key) (length value) 0 [] d)
      as (out & d' & Henc & _ & _ & Hdec); [lia | unfold len; lia |].
    assert (Hkey : negb (len profile_Key =? secretBoxKeyLength) = false)
      by (by rewrite Hk).
    exists out, d'. split.
    + unfold Session_set_bytes, Encrypt. rewrite Hkey. cbv zeta. rewrite Henc.
      unfold bolt_Set. by rewrite Hset.
    + unfold Session_get_bytes, bolt_Get. rewrite lookup_insert_eq.
      cbn [rbind from_option id]. unfold Decrypt. rewrite Hkey. cbv zeta.
      pose proof (Hdec [] [] (length out) (le_n _)) as Hd.
      change ([] ++ out) with out in Hd. change (len []) with 0 in Hd.
      by rewrite Hd.
  - intros b key Hb. unfold Session_get_bytes, bolt_Get, Decrypt.
    by rewrite Hb, Hk.
Qed.

Lemma Session_get_set_bytes_witness :
  Session_get_bytes (demo_env offline) (repeat x00 32) ∅ "k" = Ok [].
Proof.
  apply (Session_get_set_bytes (demo_env offline) (repeat x00 32)
           (demo_secretbox_laws offline) eq_refl). reflexivity.
Defined.

(** ** Configurations: what is shared, what is stored, what is rebuilt *)

(** X19.  A storage built from a configuration shared with a peer is read
    only: whatever the engine, a write to it fails for want of write nodes.
    For the blob backend the peer reads from the nodes the sharer writes
    to, under the sharer's write rule. *)
Theorem newStorageFromPeer_read_only (E : Env) :
  (forall ps s, newStorageFromPeer ps = Ok s ->
     forall key value, storage_Set E s key value = Err "no write nodes configured") /\
  (forall i, exists i',
     rbind (ipfs_share i) newStorageFromPeer = Ok (IPFSEngine i') /\
     ipfs_ReadNodes i' = ipfs_WriteNodes i /\
     ipfs_ReadRule i' = ipfs_WriteRule i).
Proof.
  split.
  - intros ps s. unfold newStorageFromPeer.
    destruct (ps_Type ps =? StorageEngine_IPFS); [by intros [= <-] |].
    destruct (ps_Type ps =? StorageEngine_Hashmap); [by intros [= <-] | done].
  - intros i. by eexists.
Qed.

Lemma newStorageFromConfig_export (s : storage) :
  rbind (storage_export s) newStorageFromConfig = Ok s.
Proof. by destruct s as [[]|[]]. Qed.

Lemma chatPeerConfig_Peer_Config (p : chatPeer) :
  rbind (chatPeer_Config p) chatPeerConfig_Peer = Ok (exported_peer p).
Proof.
  destruct p as [id alias [r st c]].
  unfold chatPeer_Config, strategy_Export. simpl.
  pose proof (newStorageFromConfig_export r) as Hr.
  pose proof (newStorageFromConfig_export st) as Hst.
  destruct (storage_export r) as [rc | | |]; try done.
  destruct (storage_export st) as [stc | | |]; try done.
  simpl in *. unfold chatPeerConfig_Peer, strategyFromConfig. simpl.
  by rewrite Hr, Hst.
Qed.

Lemma chatPeer_Config_Ok (p : chatPeer) :
  exists pc, chatPeer_Config p = Ok pc /\ cfg_peer_ID pc = peer_ID p /\
             chatPeerConfig_Peer pc = Ok (exported_peer p).
Proof.
  pose proof (chatPeerConfig_Peer_Config p) as H.
  destruct p as [id alias [r st c]].
  unfold chatPeer_Config, strategy_Export in *. simpl in *.
  destruct (storage_export r) as [rc | | |]; try done.
  destruct (storage_export st) as [stc | | |]; try done.
  simpl in *. by eexists.
Qed.

Lemma omap_lookup_keys {V} (m : gmap string V) (l : list (string * V)) :
  Forall (fun kv => m !! kv.1 = Some kv.2) l ->
  omap (fun k => m !! k) (map fst l) = map snd l.
Proof.
  induction 1 as [| [k v] l Hkv _ IH]; [done |]. csimpl.
  simpl in Hkv. rewrite Hkv. csimpl. by rewrite IH.
Qed.

Lemma range_values_perm {V} E (m : gmap string V) :
  (forall ks, range_order E ks ≡ₚ ks) ->
  range_values E m ≡ₚ map snd (map_to_list m).
Proof.
  intros Hperm. unfold range_values. rewrite Hperm, omap_lookup_keys; [done |].
  apply Forall_forall. intros [k v] Hin. by apply elem_of_map_to_list in Hin.
Qed.

Lemma range_values_elem {V} E (m : gmap string V) v :
  (forall ks, range_order E ks ≡ₚ ks) ->
  v ∈ range_values E m <-> exists k, m !! k = Some v.
Proof.
  intros Hperm. rewrite (range_values_perm E m Hperm). split.
  - intros ([k v'] & -> & Hin)%list_elem_of_fmap.
    apply elem_of_map_to_list in Hin. by exists k.
  - intros [k Hk]. apply list_elem_of_fmap. exists (k, v).
    split; [done | by apply elem_of_map_to_list].
Qed.

Lemma range_values_NoDup {V} E (m : gmap string V) (f : V -> string) :
  (forall ks, range_order E ks ≡ₚ ks) ->
  (forall k v, m !! k = Some v -> f v = k) ->
  NoDup (map f (range_values E m)).
Proof.
  intros Hperm Hkey. rewrite (range_values_perm E m Hperm).
  assert (Heq : map f (map snd (map_to_list m)) = map fst (map_to_list m)).
  { assert (Hall : Forall (fun kv => f kv.2 = kv.1) (map_to_list m)).
    { apply Forall_forall. intros [k v] Hin. apply elem_of_map_to_list in Hin.
      by apply Hkey. }
    induction Hall as [| [k v] l Hkv _ IH]; [done |]. simpl in *. by rewrite Hkv, IH. }
  rewrite Heq. apply NoDup_fst_map_to_list.
Qed.

Lemma Config_loop_spec (peers : list chatPeer) : forall acc,
  exists m, Config_loop peers acc = Ok m /\
    (forall k, k ∉ map peer_ID peers -> m !! k = acc !! k) /\
    (NoDup (map peer_ID peers) ->
     forall p, p ∈ peers ->
       exists pc, chatPeer_Config p = Ok pc /\ m !! peer_ID p = Some pc).
Proof.
  induction peers as [| p0 peers IH]; intros acc.
  - exists acc. split; [done |]. split; [done |].
    intros _ p Hp. by apply elem_of_nil in Hp.
  - destruct (chatPeer_Config_Ok p0) as (pc0 & Hpc0 & Hid0 & _).
    destruct (IH (<[peer_ID p0 := pc0]> acc)) as (m & Hm & Hother & Hin).
    exists m. cbn [Config_loop]. rewrite Hpc0. split; [done |]. split.
    + intros k Hk. simpl in Hk. apply not_elem_of_cons in Hk as [Hne Hk].
      rewrite Hother by done. by rewrite lookup_insert_ne.
    + intros Hnd p Hp. simpl in Hnd. apply NoDup_cons in Hnd as [Hfresh Hnd].
      apply elem_of_cons in Hp as [-> | Hp].
      * exists pc0. split; [done |]. rewrite Hother by done.
        by rewrite lookup_insert_eq.
      * by apply Hin.
Qed.

Lemma Chat_loop_spec (configs : list chatPeerConfig) : forall acc,
  Forall (fun pc => exists p, chatPeerConfig_Peer pc = Ok p) configs ->
  exists m, Chat_loop configs acc = Ok m /\
    (forall k, k ∉ map cfg_peer_ID configs -> m !! k = acc !! k) /\
    (NoDup (map cfg_peer_ID configs) ->
     forall pc, pc ∈ configs ->
       exists p, chatPeerConfig_Peer pc = Ok p /\ m !! cfg_peer_ID pc = Some p).
Proof.
  induction configs as [| pc0 configs IH]; intros acc Hall.
  - exists acc. split; [done |]. split; [done |].
    intros _ p Hp. by apply elem_of_nil in Hp.
  - apply Forall_cons in Hall as [[p0 Hp0] Hall].
    assert (Hid0 : peer_ID p0 = cfg_peer_ID pc0).
    { unfold chatPeerConfig_Peer in Hp0.
      destruct (strategyFromConfig _); simplify_eq/=. done. }
    destruct (IH (<[peer_ID p0 := p0]> acc) Hall) as (m & Hm & Hother & Hin).
    exists m. cbn [Chat_loop]. rewrite Hp0. split; [done |]. split.
    + intros k Hk. simpl in Hk. apply not_elem_of_cons in Hk as [Hne Hk].
      rewrite Hother by done. rewrite lookup_insert_ne; [done | congruence].
    + intros Hnd pc Hpc. simpl in Hnd. apply NoDup_cons in Hnd as [Hfresh Hnd].
      apply elem_of_cons in Hpc as [-> | Hpc].
      * exists p0. split; [done |]. rewrite Hother by done.
        by rewrite <- Hid0, lookup_insert_eq.
      * by apply Hin.
Qed.

(** X20.  A chat whose peers are filed under their own IDs, as [NewChat]
    files them, comes back from its stored configuration with the same ID,
    peers, settings and last-sent hash, the rendezvous marks included; only
    the ciphers are reset to a random nonce and the default chunk size.
    Neither direction fails, and the order in which the maps are ranged
    over does not matter. *)
Theorem Chat_of_Config (E : Env) (c : chat) :
  (forall ks, range_order E ks ≡ₚ ks) ->
  (forall k p, Peers c !! k = Some p -> peer_ID p = k) ->
  rbind (chat_Config E c) (chatConfig_Chat E) = Ok (exported_chat c).
Proof.
  intros Hperm Hkey.
  destruct (Config_loop_spec (range_values E (Peers c)) ∅) as (m1 & Hm1 & Ho1 & Hi1).
  specialize (Hi1 (range_values_NoDup E (Peers c) peer_ID Hperm Hkey)).
  assert (Hlook1 : forall k,
    m1 !! k = match Peers c !! k with
              | Some p => match chatPeer_Config p with Ok pc => Some pc | _ => None end
              | None => None
              end).
  { intros k. destruct (Peers c !! k) as [p |] eqn:Hk.
    - destruct (Hi1 p) as (pc & Hpc & Hm); [apply range_values_elem; eauto |].
      rewrite Hpc. by rewrite <- (Hkey k p Hk).
    - rewrite Ho1; [done |]. intros Hin.
      apply list_elem_of_fmap in Hin as (p & -> & Hp).
      apply range_values_elem in Hp as [k' Hk']; [| done].
      rewrite (Hkey _ _ Hk') in Hk. congruence. }
  assert (Hkey1 : forall k pc, m1 !! k = Some pc ->
            cfg_peer_ID pc = k /\
            exists p, Peers c !! k = Some p /\
                      chatPeerConfig_Peer pc = Ok (exported_peer p)).
  { intros k pc. rewrite Hlook1. destruct (Peers c !! k) as [p |] eqn:Hk; [| done].
    destruct (chatPeer_Config_Ok p) as (pc' & Hpc' & Hid & Hback).
    rewrite Hpc'. intros [= <-]. split; [by rewrite Hid; apply Hkey | eauto]. }
  destruct (Chat_loop_spec (range_values E m1) ∅) as (m2 & Hm2 & Ho2 & Hi2).
  { apply Forall_forall. intros pc Hpc.
    apply range_values_elem in Hpc as [k Hk]; [| done].
    destruct (Hkey1 k pc Hk) as (_ & p & _ & Hback). eauto. }
  specialize (Hi2 (range_values_NoDup E m1 cfg_peer_ID Hperm
                     (fun k pc H => proj1 (Hkey1 k pc H)))).
  unfold chat_Config. rewrite Hm1. cbn [rbind].
  unfold chatConfig_Chat. cbn [cfg_Peers]. rewrite Hm2. cbn [rbind].
  unfold exported_chat. cbn. f_equal. f_equal.
  apply map_eq. intros k. rewrite lookup_fmap.
  destruct (m1 !! k) as [pc |] eqn:Hk1.
  - destruct (Hkey1 k pc Hk1) as (Hid & p & Hk & Hback).
    destruct (Hi2 pc) as (p' & Hp' & Hm); [apply range_values_elem; eauto |].
    rewrite Hid in Hm. rewrite Hm, Hk. simpl. congruence.
  - rewrite Ho2.
    + rewrite lookup_empty. rewrite Hlook1 in Hk1.
      destruct (Peers c !! k) as [p |]; [| done].
      destruct (chatPeer_Config_Ok p) as (pc' & Hpc' & _). by rewrite Hpc' in Hk1.
    + intros Hin. apply list_elem_of_fmap in Hin as (pc & -> & Hpc).
      apply range_values_elem in Hpc as [k' Hk']; [| done].
      destruct (Hkey1 k' pc Hk') as [Hid _]. congruence.
Qed.

Lemma Chat_of_Config_witness :
  rbind (chat_Config (demo_env offline) demo_chat) (chatConfig_Chat (demo_env offline))
  = Ok (exported_chat demo_chat).
Proof.
  apply (Chat_of_Config (demo_env offline) demo_chat (fun ks => Permutation_refl ks)).
  intros k p. unfold demo_chat. cbn [Peers].
  destruct (decide (k = "bob"%string)) as [-> | Hb].
  - rewrite lookup_insert_eq. by intros [= <-].
  - rewrite lookup_insert_ne by done.
    destruct (decide (k = "me"%string)) as [-> | Hm].
    + rewrite lookup_insert_eq. by intros [= <-].
    + rewrite lookup_insert_ne by done. by rewrite lookup_empty.
Defined.

(** ** session.go: what retrieving leaves alone *)



Lemma confined_mono S chatID (P Q : event -> Prop) w w' :
  (forall e, P e -> Q e) -> confined S chatID P w w' -> confined S chatID Q w w'.
Proof.
  intros HPQ (Hd & (evs & Ht & HP) & Hk). split; [done |]. split; [| done].
  exists evs. split; [done |]. by eapply Forall_impl.
Qed.

Section Keeps.
Context (S : Session) (chatID : string) (P : event -> Prop).























End Keeps.


(** ** session.go: what a message sent leaves behind *)

Section SendProofs.
Context (E : Env) (S : Session).

Lemma peer_Encrypt_inv sender data key w ct w' :
  peer_Encrypt E sender data key w = (Ok ct, w') ->
  exists p, sender = Some p /\
    Encrypt E (Cipher (Strategy p)) data key (draws w) = (Ok ct, draws w') /\
    kv w' = kv w /\ trace w' = trace w.
Proof.
  unfold peer_Encrypt. destruct sender as [p |]; [| done].
  destruct (Encrypt E _ data key (draws w)) as [r d] eqn:Henc.
  intros [= -> <-]. by exists p.
Qed.

Lemma emit_Ok_inv e w u w' :
  emit e w = (Ok u, w') ->
  w' = {| kv := kv w; draws := draws w; trace := e :: trace w |}.
Proof. unfold emit. by intros [= _ <-]. Qed.

Lemma SendMessage_Ok_inv chatID b w out w' :
  (forall ks, range_order E ks ≡ₚ ks) ->
  SendMessage E S chatID b w = (Ok out, w') ->
  (out = [] /\ w' = w) \/
  exists c p l data0 dataBytes t1 k1 t2 k2 tb1 tb2 ct1 ct2 d1 d2 hash u cl cl',
    let data := {| cd_Parent := LastSent c; cd_Timestamp := time_Now_UnixNano E;
                   cd_Media := cd_Media data0; cd_Message := cd_Message data0;
                   cd_TTL := chat_TTL c |} in
    kv w !! chat_key S chatID = Some (StoredChat c) /\
    Peers c !! PeerID c = Some p /\
    kv w !! lookup_key S chatID (PeerID c) = Some (StoredLookup l) /\
    kv w !! chatlog_key S chatID = Some (StoredChatLog cl) /\
    json_Unmarshal E b = Ok data0 /\
    json_Marshal E data = Ok dataBytes /\
    l !! t1 = Some k1 /\ l !! t2 = Some k2 /\ t1 <> t2 /\
    base64_DecodeString E t1 = Ok tb1 /\ base64_DecodeString E t2 = Ok tb2 /\
    Encrypt E (Cipher (Strategy p)) dataBytes k1 (Datatypes.S (draws w)) = (Ok ct1, d1) /\
    storage_Set E (Storage (Strategy p)) "" (tb1 ++ ct1) = Ok hash /\
    Encrypt E (Cipher (Strategy p)) (list_byte_of_string hash) k2 (Datatypes.S d1)
      = (Ok ct2, d2) /\
    storage_Set E (Rendezvous (Strategy p)) "" (tb2 ++ ct2) = Ok u /\
    AddEntry cl {| ID := hash; Sender := PeerID c; Sent := time_Now_UnixNano E;
                   Received := 0; TTL := chat_TTL c; Data := data |} = (Ok tt, cl') /\
    json_Marshal_entries E (Sorted cl') = Ok out /\
    kv w' = <[chatlog_key S chatID := StoredChatLog cl']>
            (<[lookup_key S chatID (PeerID c) := StoredLookup (delete t2 (delete t1 l))]>
            (<[chat_key S chatID := StoredChat (exported_chat (set_LastSent c hash))]>
            (<[lookup_key S chatID (PeerID c) := StoredLookup (delete t1 l)]> (kv w)))) /\
    draws w' = d2 /\
    trace w' = EvRendezvousSet (PeerID c) (tb2 ++ ct2)
               :: EvStorageSet (PeerID c) (tb1 ++ ct1) :: trace w.
Proof.
  intros Hperm. unfold SendMessage.
  destruct (len b >? maxMessageSize); [done |]. intros H.
  apply bind_Ok_inv in H as (c & w1 & Hc & H).
  apply (getChat_inv S) in Hc as [-> Hc].
  apply bind_Ok_inv in H as (data0 & w2 & Hd & H).
  apply lift_Ok_inv in Hd as [Hd ->].
  apply try_Ok_inv in H as [(dataBytes & w3 & Hm & H) | (e & w3 & Hm & H)].
  2:{ left. unfold lift in Hm. injection Hm as _ <-. unfold ret in H.
      by injection H as <- <-. }
  apply lift_Ok_inv in Hm as [Hm ->].
  apply bind_Ok_inv in H as (l & w4 & Hl & H).
  apply (getLookup_inv S) in Hl as [-> Hl].
  apply bind_Ok_inv in H as ([[t1 k1] l1] & w5 & Hp1 & H).
  apply popRandom_inv in Hp1 as (Hk1 & -> & ->); [| apply Hperm].
  apply bind_Ok_inv in H as ([] & w6 & Hs1 & H).
  apply Session_set_inv in Hs1 as (Hkv6 & Hd6 & Ht6). cbn [kv draws trace] in *.
  apply bind_Ok_inv in H as (tb1 & w7 & Hb1 & H).
  apply lift_Ok_inv in Hb1 as [Hb1 ->].
  apply bind_Ok_inv in H as (ct1 & w8 & He1 & H).
  apply peer_Encrypt_inv in He1 as (p & Hp & He1 & Hkv8 & Ht8).
  apply bind_Ok_inv in H as ([] & w9 & Hev1 & H).
  apply emit_Ok_inv in Hev1 as ->. rewrite Hp in H.
  apply bind_Ok_inv in H as (hash & w10 & Hset1 & H).
  apply lift_Ok_inv in Hset1 as [Hset1 ->].
  apply bind_Ok_inv in H as ([] & w11 & Hsc & H).
  apply Session_set_inv in Hsc as (Hkv11 & Hd11 & Ht11). cbn [kv draws trace] in *.
  apply bind_Ok_inv in H as ([[t2 k2] l2] & w12 & Hp2 & H).
  apply popRandom_inv in Hp2 as (Hk2 & -> & ->); [| apply Hperm].
  cbn [PeerID set_LastSent] in H.
  apply bind_Ok_inv in H as ([] & w13 & Hs2 & H).
  apply Session_set_inv in Hs2 as (Hkv13 & Hd13 & Ht13). cbn [kv draws trace] in *.
  apply bind_Ok_inv in H as (tb2 & w14 & Hb2 & H).
  apply lift_Ok_inv in Hb2 as [Hb2 ->].
  apply bind_Ok_inv in H as (ct2 & w15 & He2 & H).
  apply peer_Encrypt_inv in He2 as (p' & [= <-] & He2 & Hkv15 & Ht15).
  apply bind_Ok_inv in H as ([] & w16 & Hev2 & H).
  apply emit_Ok_inv in Hev2 as ->.
  apply bind_Ok_inv in H as (u & w17 & Hset2 & H).
  apply lift_Ok_inv in Hset2 as [Hset2 ->].
  apply bind_Ok_inv in H as (cl & w18 & Hcl & H).
  apply (GetChatLog_inv S) in Hcl as [-> Hcl]. cbn [kv draws trace] in *.
  destruct (AddEntry cl _) as [r cl'] eqn:Hadd.
  apply bind_Ok_inv in H as ([] & w19 & Hr & H).
  apply lift_Ok_inv in Hr as [-> ->].
  apply bind_Ok_inv in H as ([] & w20 & Hscl & H).
  apply Session_set_inv in Hscl as (Hkv20 & Hd20 & Ht20). cbn [kv draws trace] in *.
  unfold SortedJSON in H. apply lift_Ok_inv in H as [Hout ->].
  assert (Hne12 : t1 <> t2).
  { intros <-. by rewrite lookup_delete_eq in Hk2. }
  rewrite lookup_delete_ne in Hk2 by done.
  rewrite Hkv15, Hkv13, lookup_insert_ne in Hcl
    by (intros Heq; by apply (chatlog_key_ne_lookup_key S chatID (PeerID c))).
  rewrite Hkv11, lookup_insert_ne in Hcl by apply chat_key_ne_chatlog_key.
  rewrite Hkv8, Hkv6, lookup_insert_ne in Hcl
    by (intros Heq; by apply (chatlog_key_ne_lookup_key S chatID (PeerID c))).
  right.
  exists c, p, l, data0, dataBytes, t1, k1, t2, k2, tb1, tb2, ct1, ct2.
  exists (draws w8), (draws w15), hash, u, cl, cl'. cbv zeta.
  rewrite Hd6 in He1. rewrite Hd13, Hd11 in He2.
  repeat (split; [done |]).
  split; [by rewrite Hkv20, Hkv15, Hkv13, Hkv11, Hkv8, Hkv6 |].
  split; [by rewrite Hd20 |].
  by rewrite Ht20, Ht15, Ht13, Ht11, Ht8, Ht6.
Qed.

End SendProofs.




(** ** From the sender to the receiver *)

Lemma Decrypt_loop_chunk_ext E (s s' : SecretBoxCipher) data k fuel : forall i acc,
  ChunkSize s' = ChunkSize s ->
  Decrypt_loop E fuel s' data k i acc = Decrypt_loop E fuel s data k i acc.
Proof.
  induction fuel as [| fuel IH]; intros i acc Hc; cbn [Decrypt_loop]; [done |].
  rewrite Hc. destruct (i <? len data); [| done].
  destruct (next_chunk _ _ _) as [chunk | | |]; try done. cbn [rbind].
  destruct (go_slice chunk 0 _) as [nonce | | |]; try done. cbn [rbind].
  destruct (go_slice chunk _ _) as [box | | |]; try done. cbn [rbind].
  destruct (secretbox_Open _ _ _ _); [| done]. by apply IH.
Qed.

Lemma Encrypt_Ok_Decrypt E (s s' : SecretBoxCipher) data key d ct d' :
  secretbox_laws E -> 0 < ChunkSize s -> ChunkSize s' = ChunkSize s ->
  Encrypt E s data key d = (Ok ct, d') ->
  Decrypt E s' ct key = Ok data /\ len key = 32.
Proof.
  intros Hlaws Hpos Hc. unfold Encrypt, Decrypt.
  destruct (Z.eqb_spec (len key) secretBoxKeyLength) as [Hk | Hk]; [| done].
  cbn [negb]. cbv zeta. intros Henc. split; [| done].
  destruct (Encrypt_loop_spec E Hlaws s Hpos data (copy_into 32 key)
              (length data) 0 [] d) as (out & d2 & Henc' & _ & _ & Hdec);
    [lia | unfold len; lia |].
  rewrite Henc' in Henc. injection Henc as <- <-.
  rewrite (Decrypt_loop_chunk_ext E s s') by done.
  pose proof (Hdec [] [] (length out) (le_n _)) as Hd.
  change ([] ++ out) with out in *. change (len []) with 0 in Hd.
  by rewrite Hd.
Qed.

Lemma go_slice_app_l (a b : list byte) :
  go_slice (a ++ b) 0 (len a) = Ok a.
Proof.
  rewrite go_slice_ok; [| lia | apply len_nonneg | rewrite len_app; pose proof (len_nonneg b); lia].
  change (Z.to_nat 0) with 0%nat. rewrite drop_0, Z.sub_0_r, Z_to_nat_len.
  by rewrite take_app_length.
Qed.

Lemma go_slice_app_r (a b : list byte) :
  go_slice (a ++ b) (len a) (len (a ++ b)) = Ok b.
Proof.
  rewrite go_slice_ok; [| apply len_nonneg | rewrite len_app; pose proof (len_nonneg b); lia | lia].
  rewrite len_app, Z_to_nat_len.
  replace (len a + len b - len a) with (len b) by lia.
  rewrite Z_to_nat_len, drop_app_length. by rewrite take_ge.
Qed.

Lemma try_Ok {A B} (m : M A) (h : string -> M B) (k : A -> M B) w a w1 :
  m w = (Ok a, w1) -> try m h k w = k a w1.
Proof. intros H. unfold try. by rewrite H. Qed.

Lemma bind_Ok {A B} (m : M A) (k : A -> M B) w a w1 :
  m w = (Ok a, w1) -> bind m k w = k a w1.
Proof. apply try_Ok. Qed.

Lemma bind_lift_Ok {A B} (r : result A) (k : A -> M B) w a :
  r = Ok a -> bind (lift r) k w = k a w.
Proof. by intros ->. Qed.

Lemma try_lift_Ok {A B} (r : result A) (h : string -> M B) (k : A -> M B) w a :
  r = Ok a -> try (lift r) h k w = k a w.
Proof. by intros ->. Qed.

Section Receive.
Context (E : Env) (S : Session) (chatID : string).
Hypothesis Hstore : forall k, kv_Set_error E k = None.

Lemma getChat_Ok w c :
  kv w !! chat_key S chatID = Some (StoredChat c) -> getChat S chatID w = (Ok c, w).
Proof. intros H. unfold getChat. by rewrite H. Qed.

Lemma getLookup_Ok w peerID l :
  kv w !! lookup_key S chatID peerID = Some (StoredLookup l) ->
  getLookup S chatID peerID w = (Ok l, w).
Proof. intros H. unfold getLookup. by rewrite H. Qed.

Lemma GetChatLog_Ok w cl :
  kv w !! chatlog_key S chatID = Some (StoredChatLog cl) ->
  GetChatLog S chatID w = (Ok cl, w).
Proof. intros H. unfold GetChatLog. by rewrite H. Qed.

Lemma Session_set_Ok key v w :
  Session_set E key v w
  = (Ok tt, {| kv := <[key := v]> (kv w); draws := draws w; trace := trace w |}).
Proof. unfold Session_set. by rewrite Hstore. Qed.

Lemma peer_Rendezvous_Get_Ok c peerID p w rBytes r' :
  Peers c !! peerID = Some p ->
  storage_Get E (Rendezvous (Strategy p)) "" = (Ok rBytes, r') ->
  peer_Rendezvous_Get E c peerID w
  = (Ok (rBytes, set_Peer c peerID (set_Rendezvous p r')),
     {| kv := kv w; draws := draws w; trace := EvRendezvousGet peerID :: trace w |}).
Proof.
  intros Hp Hget. unfold peer_Rendezvous_Get. rewrite Hp.
  unfold bind, try, emit. rewrite Hget. reflexivity.
Qed.

Lemma peer_Storage_Get_Ok c peerID hash p w b s' :
  Peers c !! peerID = Some p ->
  storage_Get E (Storage (Strategy p)) hash = (Ok b, s') ->
  peer_Storage_Get E c peerID hash w
  = (Ok (b, set_Peer c peerID (set_Storage p s')),
     {| kv := kv w; draws := draws w; trace := EvStorageGet peerID hash :: trace w |}).
Proof.
  intros Hp Hget. unfold peer_Storage_Get. rewrite Hp.
  unfold bind, try, emit. rewrite Hget. reflexivity.
Qed.

Lemma getRendezvousHash_delivers a w c p l cl t2 k2 tb2 ct2 hash sA d d' r' :
  secretbox_laws E ->
  kv w !! chat_key S chatID = Some (StoredChat c) ->
  Peers c !! a = Some p ->
  kv w !! lookup_key S chatID a = Some (StoredLookup l) ->
  kv w !! chatlog_key S chatID = Some (StoredChatLog cl) ->
  l !! t2 = Some k2 -> base64_EncodeToString tb2 = t2 -> len tb2 = 24 ->
  0 < ChunkSize sA -> ChunkSize (Cipher (Strategy p)) = ChunkSize sA ->
  Encrypt E sA (list_byte_of_string hash) k2 d = (Ok ct2, d') ->
  storage_Get E (Rendezvous (Strategy p)) "" = (Ok (tb2 ++ ct2), r') ->
  HashInLog cl hash = false ->
  getRendezvousHash E S chatID a w
  = (Ok hash,
     {| kv := <[chat_key S chatID :=
                  StoredChat (exported_chat (set_Peer c a (set_Rendezvous p r')))]>
              (<[lookup_key S chatID a := StoredLookup (delete t2 l)]> (kv w));
        draws := draws w;
        trace := EvRendezvousGet a :: trace w |}).
Proof.
  intros Hlaws Hc Hp Hl Hcl Hk2 Ht2 Hlen2 Hpos Hchunk Henc Hget Hnew.
  destruct (Encrypt_Ok_Decrypt E sA (Cipher (Strategy p)) _ _ _ _ _
              Hlaws Hpos Hchunk Henc) as [Hdec _].
  unfold getRendezvousHash.
  rewrite (try_Ok _ _ _ _ _ _ (getChat_Ok w c Hc)).
  rewrite (try_Ok _ _ _ _ _ _ (getLookup_Ok w a l Hl)).
  rewrite (try_Ok _ _ _ _ _ _ (peer_Rendezvous_Get_Ok c a p w _ r' Hp Hget)).
  cbn [fst snd].
  assert (Htag : go_slice (tb2 ++ ct2) 0 lookupHashLength = Ok tb2).
  { change lookupHashLength with 24. rewrite <- Hlen2. apply go_slice_app_l. }
  assert (Hct : go_slice (tb2 ++ ct2) lookupHashLength (len (tb2 ++ ct2)) = Ok ct2).
  { change lookupHashLength with 24. rewrite <- Hlen2. apply go_slice_app_r. }
  rewrite (bind_lift_Ok _ _ _ _ Htag).
  rewrite Ht2, (popKey_present l t2 k2 Hk2).
  unfold setLookup. rewrite (try_Ok _ _ _ _ _ _ (Session_set_Ok _ _ _)).
  rewrite (bind_lift_Ok _ _ _ _ Hct). cbn [kv draws trace].
  assert (Hpd : forall w0, peer_Decrypt E (set_Peer c a (set_Rendezvous p r')) a ct2 k2 w0
                           = (Ok (list_byte_of_string hash), w0)).
  { intros w0. unfold peer_Decrypt, set_Peer. cbn [Peers].
    rewrite lookup_insert_eq. cbn [Cipher Strategy set_Rendezvous]. by rewrite Hdec. }
  rewrite (try_Ok _ _ _ _ _ _ (Hpd _)).
  rewrite string_of_list_byte_of_string.
  erewrite try_Ok.
  2:{ apply GetChatLog_Ok. cbn [kv].
      rewrite lookup_insert_ne
        by (intros Heq; by apply (chatlog_key_ne_lookup_key S chatID a)).
      exact Hcl. }
  rewrite Hnew. unfold setChat.
  by rewrite (try_Ok _ _ _ _ _ _ (Session_set_Ok _ _ _)).
Qed.

Lemma retrieveMessage_delivers a w c p l t1 k1 tb1 ct1 hash dataBytes data sA d d' s' :
  secretbox_laws E ->
  kv w !! chat_key S chatID = Some (StoredChat (exported_chat c)) ->
  Peers c !! a = Some p ->
  kv w !! lookup_key S chatID a = Some (StoredLookup l) ->
  l !! t1 = Some k1 -> base64_EncodeToString tb1 = t1 -> len tb1 = 24 ->
  ChunkSize sA = secretBoxDefaultChunkSize ->
  Encrypt E sA dataBytes k1 d = (Ok ct1, d') ->
  storage_Get E (Storage (Strategy p)) hash = (Ok (tb1 ++ ct1), s') ->
  json_Unmarshal E dataBytes = Ok data ->
  retrieveMessage E S chatID hash a w
  = (Ok data,
     {| kv := <[chat_key S chatID :=
                  StoredChat (exported_chat
                    (set_Peer (exported_chat c) a (set_Storage (exported_peer p) s')))]>
              (<[lookup_key S chatID a := StoredLookup (delete t1 l)]> (kv w));
        draws := draws w;
        trace := EvStorageGet a hash :: trace w |}).
Proof.
  intros Hlaws Hc Hp Hl Hk1 Ht1 Hlen1 HsA Henc Hget Hjson.
  assert (Hpe : Peers (exported_chat c) !! a = Some (exported_peer p)).
  { unfold exported_chat. cbn [Peers]. by rewrite lookup_fmap, Hp. }
  destruct (Encrypt_Ok_Decrypt E sA (Cipher (Strategy (exported_peer p))) _ _ _ _ _
              Hlaws ltac:(by rewrite HsA) ltac:(by rewrite HsA) Henc) as [Hdec Hk].
  unfold retrieveMessage.
  rewrite (bind_Ok _ _ _ _ _ (getChat_Ok w _ Hc)).
  rewrite (bind_Ok _ _ _ _ _ (getLookup_Ok w a l Hl)).
  rewrite (bind_Ok _ _ _ _ _
             (peer_Storage_Get_Ok (exported_chat c) a hash (exported_peer p) w _ s'
                Hpe Hget)).
  cbn [fst snd].
  assert (Htag : go_slice (tb1 ++ ct1) 0 lookupHashLength = Ok tb1).
  { change lookupHashLength with 24. rewrite <- Hlen1. apply go_slice_app_l. }
  assert (Hct : go_slice (tb1 ++ ct1) lookupHashLength (len (tb1 ++ ct1)) = Ok ct1).
  { change lookupHashLength with 24. rewrite <- Hlen1. apply go_slice_app_r. }
  rewrite (bind_lift_Ok _ _ _ _ Htag).
  rewrite Ht1, (popKey_present l t1 k1 Hk1), Hk.
  change (32 =? 0) with false. cbv iota.
  unfold setLookup. rewrite (bind_Ok _ _ _ _ _ (Session_set_Ok _ _ _)).
  rewrite (bind_lift_Ok _ _ _ _ Hct). cbn [kv draws trace].
  assert (Hpd : forall w0,
            peer_Decrypt E (set_Peer (exported_chat c) a (set_Storage (exported_peer p) s'))
              a ct1 k1 w0 = (Ok dataBytes, w0)).
  { intros w0. unfold peer_Decrypt, set_Peer. cbn [Peers].
    rewrite lookup_insert_eq. cbn [Cipher Strategy set_Storage]. by rewrite Hdec. }
  rewrite (bind_Ok _ _ _ _ _ (Hpd _)).
  rewrite (bind_lift_Ok _ _ _ _ Hjson).
  unfold setChat. by rewrite (bind_Ok _ _ _ _ _ (Session_set_Ok _ _ _)).
Qed.

End Receive.

Lemma RetrieveMessages_body_self E S chatID self w :
  RetrieveMessages_body E S chatID self self w = (Ok tt, w).
Proof. unfold RetrieveMessages_body. by rewrite String.eqb_refl. Qed.

Lemma RetrieveMessages_loop_self E S chatID self n w :
  RetrieveMessages_loop E S chatID self (repeat self n) w = (Ok tt, w).
Proof.
  induction n as [| n IH]; [done |]. cbn [repeat].
  by rewrite (RetrieveMessages_loop_continues E S chatID self self _ w w
                (RetrieveMessages_body_self E S chatID self w)).
Qed.

Lemma RetrieveMessages_loop_two E S chatID self a peers w w' :
  NoDup peers -> a ∈ peers -> (forall k, k ∈ peers -> k = self \/ k = a) ->
  RetrieveMessages_body E S chatID self a w = (Ok tt, w') ->
  RetrieveMessages_loop E S chatID self peers w = (Ok tt, w').
Proof.
  intros Hnd Ha Hall Hbody. revert Hnd Ha Hall.
  induction peers as [| k peers IH]; intros Hnd Ha Hall; [by apply elem_of_nil in Ha |].
  apply NoDup_cons in Hnd as [Hk Hnd].
  destruct (decide (k = a)) as [-> | Hne].
  - rewrite (RetrieveMessages_loop_continues E S chatID self a _ w w' Hbody).
    assert (Hrest : peers = repeat self (length peers)).
    { clear -Hall Hk. induction peers as [| x peers IH]; [done |]. cbn [length repeat].
      assert (x = self) as ->.
      { destruct (Hall x) as [-> | ->]; [by right; left | done |].
        exfalso. apply Hk. by left. }
      f_equal. apply IH.
      - intros Hin. apply Hk. by right.
      - intros y Hy. apply Hall. apply elem_of_cons in Hy as [-> | Hy];
          [by left | by right; right]. }
    rewrite Hrest. apply RetrieveMessages_loop_self.
  - assert (k = self) as -> by (destruct (Hall k) as [-> | ->]; [by left | done | done]).
    rewrite (RetrieveMessages_loop_continues E S chatID self self _ w w
               (RetrieveMessages_body_self E S chatID self w)).
    apply IH; [done | | ].
    + by apply elem_of_cons in Ha as [-> | Ha].
    + intros y Hy. apply Hall. by right.
Qed.

Lemma RetrieveMessages_body_delivers (E : Env) (S : Session) (chatID self a : string)
  w c p l cl t1 k1 t2 k2 tb1 tb2 ct1 ct2 hash dataBytes data sA d1 d1' d2 d2' r' s' :
  secretbox_laws E -> (forall k, kv_Set_error E k = None) ->
  a <> self ->
  kv w !! chat_key S chatID = Some (StoredChat c) ->
  Peers c !! a = Some p ->
  kv w !! lookup_key S chatID a = Some (StoredLookup l) ->
  kv w !! chatlog_key S chatID = Some (StoredChatLog cl) ->
  l !! t1 = Some k1 -> l !! t2 = Some k2 -> t1 <> t2 ->
  base64_EncodeToString tb1 = t1 -> len tb1 = 24 ->
  base64_EncodeToString tb2 = t2 -> len tb2 = 24 ->
  ChunkSize sA = secretBoxDefaultChunkSize ->
  ChunkSize (Cipher (Strategy p)) = secretBoxDefaultChunkSize ->
  Encrypt E sA dataBytes k1 d1 = (Ok ct1, d1') ->
  Encrypt E sA (list_byte_of_string hash) k2 d2 = (Ok ct2, d2') ->
  storage_Get E (Rendezvous (Strategy p)) "" = (Ok (tb2 ++ ct2), r') ->
  storage_Get E (Storage (Strategy p)) hash = (Ok (tb1 ++ ct1), s') ->
  json_Unmarshal E dataBytes = Ok data ->
  hash <> EmptyString -> HashInLog cl hash = false ->
  cd_Timestamp data <> 0 ->
  (cd_Parent data = EmptyString \/ HashInLog cl (cd_Parent data) = true) ->
  exists w',
    RetrieveMessages_body E S chatID self a w = (Ok tt, w') /\
    kv w' !! chatlog_key S chatID
      = Some (StoredChatLog
                (<[entry_key (cd_Timestamp data) hash :=
                     {| ID := hash; Sender := a; Sent := cd_Timestamp data;
                        Received := 0; TTL := cd_TTL data; Data := data |}]> cl)) /\
    kv w' !! lookup_key S chatID a = Some (StoredLookup (delete t1 (delete t2 l))).
Proof.
  intros Hlaws Hstore Hself Hc Hp Hl Hcl Hk1 Hk2 Hne Ht1 Hlen1 Ht2 Hlen2 HsA HsB
    Henc1 Henc2 Hrdv Hsto Hjson Hhash Hnew Hts Hparent.
  unfold RetrieveMessages_body.
  destruct (String.eqb_spec a self) as [| _]; [done |].
  rewrite (bind_Ok _ _ _ _ _
             (getRendezvousHash_delivers E S chatID Hstore a w c p l cl t2 k2 tb2 ct2
                hash sA d2 d2' r' Hlaws Hc Hp Hl Hcl Hk2 Ht2 Hlen2
                ltac:(by rewrite HsA) ltac:(by rewrite HsA, HsB) Henc2 Hrdv Hnew)).
  destruct (String.eqb_spec hash "") as [| _]; [done |].
  set (c1 := set_Peer c a (set_Rendezvous p r')).
  set (w1 := {| kv := _; draws := draws w; trace := EvRendezvousGet a :: trace w |}).
  assert (Hp1 : Peers c1 !! a = Some (set_Rendezvous p r')).
  { unfold c1, set_Peer. cbn [Peers]. by rewrite lookup_insert_eq. }
  assert (Hl1 : kv w1 !! lookup_key S chatID a = Some (StoredLookup (delete t2 l))).
  { unfold w1. cbn [kv].
    rewrite lookup_insert_ne by apply chat_key_ne_lookup_key.
    by rewrite lookup_insert_eq. }
  assert (Hc1 : kv w1 !! chat_key S chatID = Some (StoredChat (exported_chat c1))).
  { unfold w1. cbn [kv]. by rewrite lookup_insert_eq. }
  rewrite (try_Ok _ _ _ _ _ _
             (retrieveMessage_delivers E S chatID Hstore a w1 c1 (set_Rendezvous p r')
                (delete t2 l) t1 k1 tb1 ct1 hash dataBytes data sA d1 d1' s'
                Hlaws Hc1 Hp1 Hl1 ltac:(by rewrite lookup_delete_ne) Ht1 Hlen1 HsA
                Henc1 Hsto Hjson)).
  set (w2 := {| kv := _; draws := draws w1; trace := EvStorageGet a hash :: trace w1 |}).
  assert (Hcl2 : kv w2 !! chatlog_key S chatID = Some (StoredChatLog cl)).
  { unfold w2, w1. cbn [kv].
    rewrite lookup_insert_ne by apply chat_key_ne_chatlog_key.
    rewrite lookup_insert_ne
      by (intros Heq; by apply (chatlog_key_ne_lookup_key S chatID a)).
    rewrite lookup_insert_ne by apply chat_key_ne_chatlog_key.
    rewrite lookup_insert_ne
      by (intros Heq; by apply (chatlog_key_ne_lookup_key S chatID a)).
    exact Hcl. }
  set (entry := {| ID := hash; Sender := a; Sent := cd_Timestamp data; Received := 0;
                   TTL := cd_TTL data; Data := data |}).
  set (cl3 := <[entry_key (cd_Timestamp data) hash := entry]> cl).
  set (w3 := {| kv := <[chatlog_key S chatID := StoredChatLog cl3]> (kv w2);
                draws := draws w2; trace := trace w2 |}).
  assert (Hlog : logChatData E S chatID a hash data w2 = (Ok tt, w3)).
  { unfold logChatData.
    rewrite (bind_Ok _ _ _ _ _ (GetChatLog_Ok S chatID w2 cl Hcl2)).
    fold entry. unfold AddEntry. cbn [Sent Received ID entry].
    destruct (Z.eqb_spec (cd_Timestamp data) 0) as [| _]; [done |].
    cbn [andb]. rewrite (bind_lift_Ok _ _ _ _ eq_refl).
    unfold setChatLog. by rewrite Session_set_Ok. }
  rewrite (try_Ok _ _ _ _ _ _ Hlog).
  assert (Hcl3 : kv w3 !! chatlog_key S chatID = Some (StoredChatLog cl3)).
  { unfold w3. cbn [kv]. by rewrite lookup_insert_eq. }
  assert (Hrec : recursivelyLogParents E S chatID a data w3 = (Ok tt, w3)).
  { unfold recursivelyLogParents. cbn [recursivelyLogParents_fuel].
    unfold recursivelyLogParents_body.
    destruct (String.eqb_spec (cd_Parent data) "") as [| Hpne]; [done |].
    destruct Hparent as [| Hparent]; [done |].
    rewrite (bind_Ok _ _ _ _ _ (GetChatLog_Ok S chatID w3 cl3 Hcl3)).
    unfold cl3. by rewrite (HashInLog_insert cl _ entry _ Hparent). }
  rewrite (try_Ok _ _ _ _ _ _ Hrec).
  exists w3. split; [done |]. split; [done |].
  unfold w3, w2. cbn [kv].
  rewrite lookup_insert_ne by apply chatlog_key_ne_lookup_key.
  rewrite lookup_insert_ne by apply chat_key_ne_lookup_key.
  by rewrite lookup_insert_eq.
Qed.

(** X23.  What one peer sends, the other retrieves.  Let A's [SendMessage]
    succeed and write a blob and a pointer; let B hold the same lookup
    table for A as A does, not have the blob's hash in its log but have
    A's previous message (if any), and let B's backends for A serve what A
    wrote.  With a secretbox that opens what it seals, base64 and JSON
    decoders that undo their encoders, and default chunk sizes on both
    sides, B's [RetrieveMessages] in a chat of the two returns the sorted
    log with one entry more: the message A sent, under A's peer ID, the
    hash of the blob, A's timestamp and parent. *)
Theorem message_delivered (E : Env) (SA SB : Session) (chatID : string)
  (b : list byte) (wA wA' wB : World) (outA : list byte) (cA cA' cB : chat)
  (pB : chatPeer) (lA : lookup) (clB : ChatLog) (payload rPayload : list byte)
  (r' s' : storage) :
  (forall ks, range_order E ks ≡ₚ ks) ->
  secretbox_laws E ->
  (forall k, kv_Set_error E k = None) ->
  (forall t k tb, lA !! t = Some k -> base64_DecodeString E t = Ok tb ->
                  base64_EncodeToString tb = t /\ len tb = 24) ->
  (forall d bs, json_Marshal E d = Ok bs -> json_Unmarshal E bs = Ok d) ->
  kv wA !! chat_key SA chatID = Some (StoredChat cA) ->
  kv wA !! lookup_key SA chatID (PeerID cA) = Some (StoredLookup lA) ->
  (forall p, Peers cA !! PeerID cA = Some p ->
             ChunkSize (Cipher (Strategy p)) = secretBoxDefaultChunkSize) ->
  SendMessage E SA chatID b wA = (Ok outA, wA') ->
  trace wA' = EvRendezvousSet (PeerID cA) rPayload
              :: EvStorageSet (PeerID cA) payload :: trace wA ->
  kv wA' !! chat_key SA chatID = Some (StoredChat cA') ->
  kv wB !! chat_key SB chatID = Some (StoredChat cB) ->
  PeerID cB <> PeerID cA ->
  (forall k, is_Some (Peers cB !! k) -> k = PeerID cB \/ k = PeerID cA) ->
  Peers cB !! PeerID cA = Some pB ->
  ChunkSize (Cipher (Strategy pB)) = secretBoxDefaultChunkSize ->
  kv wB !! lookup_key SB chatID (PeerID cA) = Some (StoredLookup lA) ->
  kv wB !! chatlog_key SB chatID = Some (StoredChatLog clB) ->
  LastSent cA' <> EmptyString ->
  HashInLog clB (LastSent cA') = false ->
  (LastSent cA = EmptyString \/ HashInLog clB (LastSent cA) = true) ->
  storage_Get E (Rendezvous (Strategy pB)) "" = (Ok rPayload, r') ->
  storage_Get E (Storage (Strategy pB)) (LastSent cA') = (Ok payload, s') ->
  exists d0 wB',
    let data := {| cd_Parent := LastSent cA; cd_Timestamp := time_Now_UnixNano E;
                   cd_Media := cd_Media d0; cd_Message := cd_Message d0;
                   cd_TTL := chat_TTL cA |} in
    let clB' := <[entry_key (time_Now_UnixNano E) (LastSent cA') :=
                    {| ID := LastSent cA'; Sender := PeerID cA;
                       Sent := time_Now_UnixNano E; Received := 0;
                       TTL := chat_TTL cA; Data := data |}]> clB in
    json_Unmarshal E b = Ok d0 /\
    RetrieveMessages E SB chatID wB = (json_Marshal_entries E (Sorted clB'), wB') /\
    kv wB' !! chatlog_key SB chatID = Some (StoredChatLog clB').
Proof.
  intros Hperm Hlaws Hstore Hb64 Hjson HcA HlA HsA Hsend Htrace HcA' HcB Hself Hpeers
    HpB HsB HlB HclB Hhash Hnew Hparent Hrdv Hsto.
  destruct (SendMessage_Ok_inv E SA chatID b wA outA wA' Hperm Hsend)
    as [[_ ->] | (c & p & l & data0 & dataBytes & t1 & k1 & t2 & k2 & tb1 & tb2 & ct1
                  & ct2 & d1 & d2 & hash & u & cl & cl' & H)].
  { apply (f_equal length) in Htrace. simpl in Htrace. lia. }
  cbv zeta in H.
  destruct H as (Hc & Hp & Hl & Hcl & Hd & Hm & Hk1 & Hk2 & Hne & Hb1 & Hb2 & He1
                 & Hset1 & He2 & Hset2 & Hadd & Hout & Hkv & Hdr & Htr).
  rewrite HcA in Hc. injection Hc as <-.
  rewrite HlA in Hl. injection Hl as <-.
  rewrite Htrace in Htr. injection Htr as -> ->.
  assert (Hh : LastSent cA' = hash).
  { rewrite Hkv in HcA'.
    rewrite lookup_insert_ne in HcA'
      by (intros Heq; by apply (chat_key_ne_chatlog_key SA chatID)).
    rewrite lookup_insert_ne in HcA'
      by (intros Heq; by apply (chat_key_ne_lookup_key SA chatID (PeerID cA))).
    rewrite lookup_insert_eq in HcA'. by injection HcA' as <-. }
  rewrite Hh in *.
  assert (Hnow : time_Now_UnixNano E <> 0).
  { intros Hz. revert Hadd. unfold AddEntry. cbn [Sent Received]. by rewrite Hz. }
  destruct (Hb64 t1 k1 tb1 Hk1 Hb1) as [Ht1 Hlen1].
  destruct (Hb64 t2 k2 tb2 Hk2 Hb2) as [Ht2 Hlen2].
  destruct (RetrieveMessages_body_delivers E SB chatID (PeerID cB) (PeerID cA)
              wB cB pB lA clB t1 k1 t2 k2 tb1 tb2 ct1 ct2 hash dataBytes _
              (Cipher (Strategy p)) _ _ _ _ r' s'
              Hlaws Hstore ltac:(done) HcB HpB HlB HclB Hk1 Hk2 Hne Ht1 Hlen1 Ht2 Hlen2
              (HsA p Hp) HsB He1 He2 Hrdv Hsto (Hjson _ _ Hm) Hhash Hnew Hnow Hparent)
    as (wB' & Hbody & HclB' & _).
  exists data0, wB'. cbv zeta. split; [done |]. split; [| done].
  unfold RetrieveMessages.
  rewrite (bind_Ok _ _ _ _ _ (getChat_Ok SB chatID wB cB HcB)).
  erewrite bind_Ok.
  2:{ apply (RetrieveMessages_loop_two E SB chatID (PeerID cB) (PeerID cA) _ wB wB');
        [| | | exact Hbody].
      - rewrite Hperm. apply NoDup_fst_map_to_list.
      - rewrite Hperm. apply list_elem_of_fmap. exists (PeerID cA, pB).
        split; [done | by apply elem_of_map_to_list].
      - intros k. rewrite Hperm.
        intros ([k' v] & -> & Hin)%list_elem_of_fmap.
        apply elem_of_map_to_list in Hin. apply Hpeers. by eexists. }
  rewrite (bind_Ok _ _ _ _ _ (GetChatLog_Ok SB chatID wB' _ HclB')).
  reflexivity.
Qed.


Lemma online_secretbox_laws fetch cat : secretbox_laws (online_env fetch cat).
Proof. exact (demo_secretbox_laws offline). Qed.

Lemma online_json_law fetch cat d bs :
  json_Marshal (online_env fetch cat) d = Ok bs ->
  json_Unmarshal (online_env fetch cat) bs = Ok d.
Proof.
  cbn [json_Marshal json_Unmarshal online_env]. unfold online_Marshal, online_Unmarshal.
  destruct d as [parent ts media msg ttl]. cbn [cd_Parent cd_Timestamp cd_Media cd_Message cd_TTL].
  destruct (String.eqb_spec parent "") as [-> |]; [| done].
  destruct (Z.eqb_spec ts 1500000000000000000) as [-> |]; [| done].
  destruct media; [| done].
  destruct (Z.eqb_spec ttl defaultChatTTL) as [-> |]; [| done].
  intros [= <-]. by rewrite string_of_list_byte_of_string.
Qed.

Lemma online_base64_law fetch cat t tb :
  base64_DecodeString (online_env fetch cat) t = Ok tb ->
  base64_EncodeToString tb = t /\ len tb = 24.
Proof.
  cbn [base64_DecodeString online_env]. unfold online_DecodeString.
  destruct (String.eqb_spec t (sender_tag x01)) as [-> |]; [by intros [= <-] |].
  destruct (String.eqb_spec t (sender_tag x02)) as [-> |]; [by intros [= <-] | done].
Qed.

Lemma message_delivered_witness :
  exists d0 wB' cl,
    json_Unmarshal serving_env [x68; x69] = Ok d0 /\
    RetrieveMessages serving_env receiver_session "c" receiver_world
    = (json_Marshal_entries serving_env (Sorted cl), wB') /\
    kv wB' !! chatlog_key receiver_session "c" = Some (StoredChatLog cl) /\
    HashInLog cl "QmSent" = true.
Proof.
  assert (Hok : match fst (SendMessage serving_env demo_session "c" [x68; x69] sender_world)
                with Ok _ => true | _ => false end = true) by (vm_compute; reflexivity).
  assert (Htr : trace (snd (SendMessage serving_env demo_session "c" [x68; x69] sender_world))
                = [EvRendezvousSet "me" sent_pointer; EvStorageSet "me" sent_blob])
    by (vm_compute; reflexivity).
  assert (Hch : kv (snd (SendMessage serving_env demo_session "c" [x68; x69] sender_world))
                  !! chat_key demo_session "c"
                = Some (StoredChat (exported_chat (set_LastSent sender_chat "QmSent"))))
    by (vm_compute; reflexivity).
  destruct (SendMessage serving_env demo_session "c" [x68; x69] sender_world)
    as [[outA | e | p |] wA'] eqn:Hsend; try discriminate Hok.
  cbn [snd] in Htr, Hch.
  destruct (message_delivered serving_env demo_session receiver_session "c" [x68; x69]
              sender_world wA' receiver_world outA sender_chat
              (exported_chat (set_LastSent sender_chat "QmSent")) receiver_chat
              (receiver_peer "me") sender_lookup ∅ sent_blob sent_pointer
              (snd (storage_Get serving_env (Rendezvous (Strategy (receiver_peer "me"))) ""))
              (snd (storage_Get serving_env (Storage (Strategy (receiver_peer "me"))) "QmSent")))
    as (d0 & wB' & Hd0 & Hrun & Hlog).
  - intros ks. reflexivity.
  - apply online_secretbox_laws.
  - reflexivity.
  - intros t k tb _. apply online_base64_law.
  - apply online_json_law.
  - apply lookup_insert_eq.
  - vm_compute. reflexivity.
  - intros p. unfold sender_chat. cbn [Peers PeerID].
    rewrite lookup_insert_eq. by intros [= <-].
  - exact Hsend.
  - exact Htr.
  - exact Hch.
  - apply lookup_insert_eq.
  - discriminate.
  - intros k [v Hk]. unfold receiver_chat in Hk. cbn [Peers PeerID] in *.
    destruct (decide (k = "me"%string)) as [-> | Hme]; [by right |].
    rewrite lookup_insert_ne in Hk by done.
    destruct (decide (k = "bob"%string)) as [-> | Hbob]; [by left |].
    rewrite lookup_insert_ne in Hk by done. by rewrite lookup_empty in Hk.
  - apply lookup_insert_eq.
  - reflexivity.
  - vm_compute. reflexivity.
  - vm_compute. reflexivity.
  - discriminate.
  - reflexivity.
  - by left.
  - vm_compute. reflexivity.
  - vm_compute. reflexivity.
  - cbv zeta in *. eexists d0, wB', _. split; [exact Hd0 |]. split; [exact Hrun |].
    split; [exact Hlog |].
    apply HashInLog_spec. eexists _, _. split; [apply lookup_insert_eq |].
    exists (fmt_int (time_Now_UnixNano serving_env) +:+ "-")%string, EmptyString.
    unfold entry_key. cbn [LastSent exported_chat set_LastSent].
    by rewrite string_app_nil_r, string_app_assoc.
Defined.

(** ** session.go: retrieving returns *)

Lemma ends_ret {A} (a : A) : ends (ret a).
Proof. by intros w. Qed.

Lemma ends_fail {A} msg : ends (@fail A msg).
Proof. by intros w. Qed.

Lemma ends_lift {A} (r : result A) : r <> Diverge -> ends (lift r).
Proof. by intros H w. Qed.

Lemma ends_try {A B} (m : M A) (h : string -> M B) (k : A -> M B) :
  ends m -> (forall e, ends (h e)) -> (forall a, ends (k a)) -> ends (try m h k).
Proof.
  intros Hm Hh Hk w. unfold try. specialize (Hm w).
  destruct (m w) as [[a | e | p |] w1]; simpl in *; try done.
  - apply Hk.
  - apply Hh.
Qed.

Lemma ends_bind {A B} (m : M A) (k : A -> M B) :
  ends m -> (forall a, ends (k a)) -> ends (bind m k).
Proof. intros Hm Hk. apply ends_try; [done | intros; apply ends_fail | done]. Qed.

Section Ends.
Context (E : Env) (S : Session) (chatID : string).
Hypothesis HE : env_answers E.

Lemma storage_Get_ends s key : fst (storage_Get E s key) <> Diverge.
Proof.
  destruct HE as (Hfetch & Hcat & _ & _).
  destruct s as [h | i]; simpl.
  - destruct (hashmap_Get E h) as [r h'] eqn:Hget. simpl. intros ->.
    revert Hget. unfold hashmap_Get.
    destruct (len (hm_ReadNodes h) <? 1); [done |].
    destruct (hm_ReadRule h); try done.
    generalize (hm_ReadNodes h). intros nodes.
    induction nodes as [| n nodes IH]; simpl; [done |].
    destruct (hashmap_fetch E (URL n)) as [msg | | ts message] eqn:Hf; [done | done |].
    unfold updateLatest. destruct (ts >? _); [done |]. destruct (Latest h >? ts); [done |].
    intros [= -> _]. by apply (Hfetch (URL n) ts).
  - unfold ipfs_Get. destruct (len (ipfs_ReadNodes i) <? 1); [done |].
    destruct (ipfs_ReadRule i); try done.
    induction (ipfs_ReadNodes i) as [| n nodes IH]; simpl; [done |].
    pose proof (Hcat (URL n) key) as Hn.
    by destruct (ipfs_cat E (URL n) key).
Qed.

Lemma ends_getChat : ends (getChat S chatID).
Proof. intros w. unfold getChat. by destruct (kv w !! _) as [[| |] |]. Qed.

Lemma ends_getLookup peerID : ends (getLookup S chatID peerID).
Proof. intros w. unfold getLookup. by destruct (kv w !! _) as [[| |] |]. Qed.

Lemma ends_GetChatLog : ends (GetChatLog S chatID).
Proof. intros w. unfold GetChatLog. by destruct (kv w !! _) as [[| |] |]. Qed.

Lemma ends_Session_set key v : ends (Session_set E key v).
Proof. intros w. unfold Session_set. by destruct (kv_Set_error E key). Qed.

Lemma ends_emit e : ends (emit e).
Proof. by intros w. Qed.

Lemma ends_peer_Rendezvous_Get c peerID : ends (peer_Rendezvous_Get E c peerID).
Proof.
  unfold peer_Rendezvous_Get. destruct (Peers c !! peerID) as [p |];
    [| by apply ends_lift].
  apply ends_bind; [apply ends_emit | intros _].
  pose proof (storage_Get_ends (Rendezvous (Strategy p)) "") as Hs.
  destruct (storage_Get E _ _) as [r rdv].
  apply ends_bind; [by apply ends_lift | intros; apply ends_ret].
Qed.

Lemma ends_peer_Storage_Get c peerID hash : ends (peer_Storage_Get E c peerID hash).
Proof.
  unfold peer_Storage_Get. destruct (Peers c !! peerID) as [p |];
    [| by apply ends_lift].
  apply ends_bind; [apply ends_emit | intros _].
  pose proof (storage_Get_ends (Storage (Strategy p)) hash) as Hs.
  destruct (storage_Get E _ _) as [r sto].
  apply ends_bind; [by apply ends_lift | intros; apply ends_ret].
Qed.

Lemma ends_peer_Decrypt c peerID data key : ends (peer_Decrypt E c peerID data key).
Proof.
  unfold peer_Decrypt. destruct (Peers c !! peerID); apply ends_lift; [| done].
  apply Decrypt_ends.
Qed.

Lemma ends_getRendezvousHash peerID : ends (getRendezvousHash E S chatID peerID).
Proof.
  unfold getRendezvousHash.
  apply ends_try; [apply ends_getChat | intros; apply ends_ret | intros c].
  apply ends_try; [apply ends_getLookup | intros; apply ends_ret | intros l].
  apply ends_try; [apply ends_peer_Rendezvous_Get | intros; apply ends_ret | intros rc].
  apply ends_bind; [apply ends_lift, go_slice_not_Diverge | intros tag].
  destruct (popKey l (base64_EncodeToString tag)) as [rKey l'].
  apply ends_try; [apply ends_Session_set | intros; apply ends_ret | intros _].
  apply ends_bind; [apply ends_lift, go_slice_not_Diverge | intros ct].
  apply ends_try; [apply ends_peer_Decrypt | intros; apply ends_ret | intros hashBytes].
  apply ends_try; [apply ends_GetChatLog | intros; apply ends_ret | intros cl].
  destruct (HashInLog cl _); [apply ends_ret |].
  apply ends_try; [apply ends_Session_set | |]; intros; apply ends_ret.
Qed.

Lemma ends_retrieveMessage hash peerID : ends (retrieveMessage E S chatID hash peerID).
Proof.
  destruct HE as (_ & _ & Hjson & _).
  unfold retrieveMessage.
  apply ends_bind; [apply ends_getChat | intros c].
  apply ends_bind; [apply ends_getLookup | intros l].
  apply ends_bind; [apply ends_peer_Storage_Get | intros bc].
  apply ends_bind; [apply ends_lift, go_slice_not_Diverge | intros tag].
  destruct (popKey l (base64_EncodeToString tag)) as [key l'].
  destruct (len key =? 0); [apply ends_fail |].
  apply ends_bind; [apply ends_Session_set | intros _].
  apply ends_bind; [apply ends_lift, go_slice_not_Diverge | intros ct].
  apply ends_bind; [apply ends_peer_Decrypt | intros d].
  apply ends_bind; [apply ends_lift, Hjson | intros data].
  apply ends_bind; [apply ends_Session_set | intros _]. apply ends_ret.
Qed.

Lemma ends_logChatData peerID hash data : ends (logChatData E S chatID peerID hash data).
Proof.
  unfold logChatData.
  apply ends_bind; [apply ends_GetChatLog | intros cl].
  unfold AddEntry. destruct (_ && _).
  - apply ends_bind; [by apply ends_lift | intros _]. apply ends_Session_set.
  - apply ends_bind; [by apply ends_lift | intros _]. apply ends_Session_set.
Qed.

Lemma recursivelyLogParents_fuel_ends peerID n : forall data w,
  (lookups_left S chatID peerID w < n)%nat ->
  fst (recursivelyLogParents_fuel E S n chatID peerID data w) <> Diverge.
Proof.
  induction n as [| n IH]; intros data w Hn; [lia |].
  cbn [recursivelyLogParents_fuel]. unfold recursivelyLogParents_body.
  destruct (String.eqb (cd_Parent data) ""); [done |].
  unfold bind, try.
  destruct (GetChatLog S chatID w) as [[cl | e | p |] w1] eqn:Hc; try done.
  2:{ intros _. apply (ends_GetChatLog w). by rewrite Hc. }
  apply (GetChatLog_world S) in Hc as ->.
  destruct (HashInLog cl (cd_Parent data)); [done |].
  destruct (retrieveMessage E S chatID (cd_Parent data) peerID w)
    as [[pd | e | p |] w2] eqn:Hr; try done.
  - pose proof (retrieveMessage_pops E S _ _ _ _ _ _ Hr) as Hpop.
    destruct (logChatData E S chatID peerID (cd_Parent data) pd w2)
      as [[u | e | p |] w3] eqn:Hl; try done.
    + pose proof (logChatData_lookups E S _ _ _ _ _ _ _ Hl) as Hsame.
      destruct (negb (String.eqb (cd_Parent pd) "")); [| done].
      apply IH. lia.
    + intros _. apply (ends_logChatData peerID (cd_Parent data) pd w2). by rewrite Hl.
  - simpl. by destruct (String.eqb e "no key").
  - intros _. apply (ends_retrieveMessage (cd_Parent data) peerID w). by rewrite Hr.
Qed.

Lemma ends_recursivelyLogParents peerID data :
  ends (recursivelyLogParents E S chatID peerID data).
Proof.
  intros w. unfold recursivelyLogParents. apply recursivelyLogParents_fuel_ends. lia.
Qed.

Lemma ends_RetrieveMessages_body self peerID :
  ends (RetrieveMessages_body E S chatID self peerID).
Proof.
  unfold RetrieveMessages_body.
  destruct (String.eqb peerID self); [apply ends_ret |].
  apply ends_bind; [apply ends_getRendezvousHash | intros hash].
  destruct (String.eqb hash ""); [apply ends_ret |].
  apply ends_try; [apply ends_retrieveMessage | intros; apply ends_ret | intros data].
  apply ends_try; [apply ends_logChatData | intros; apply ends_ret | intros _].
  apply ends_try; [apply ends_recursivelyLogParents | |]; intros; apply ends_ret.
Qed.

Lemma ends_RetrieveMessages_loop self peers :
  ends (RetrieveMessages_loop E S chatID self peers).
Proof.
  induction peers as [| p peers IH]; [apply ends_ret |].
  cbn [RetrieveMessages_loop].
  apply ends_bind; [apply ends_RetrieveMessages_body | by intros _].
Qed.

Lemma ends_RetrieveMessages : ends (RetrieveMessages E S chatID).
Proof.
  destruct HE as (_ & _ & _ & Hm).
  unfold RetrieveMessages.
  apply ends_bind; [apply ends_getChat | intros c].
  apply ends_bind; [apply ends_RetrieveMessages_loop | intros _].
  apply ends_bind; [apply ends_GetChatLog | intros cl].
  apply ends_lift, Hm.
Qed.

End Ends.

(** X24.  [RetrieveMessages] always returns when the network and the decoders
    answer: the walk up the parents of a message cannot go on for ever,
    even along a chain of parents that loops, because every message fetched
    uses up one entry of the peer's lookup table. *)
Theorem RetrieveMessages_terminates (E : Env) (S : Session) (chatID : string)
  (w : World) :
  env_answers E ->
  match fst (RetrieveMessages E S chatID w) with
  | Ok _ | Err _ | Panic _ => True
  | Diverge => False
  end.
Proof.
  intros HE. pose proof (ends_RetrieveMessages E S chatID HE w) as H.
  by destruct (fst (RetrieveMessages E S chatID w)).
Qed.

Lemma RetrieveMessages_terminates_witness :
  match fst (RetrieveMessages (demo_env serves_truncated_pointer) demo_session "c"
               (demo_world ∅)) with
  | Ok _ | Err _ | Panic _ => True
  | Diverge => False
  end.
Proof.
  apply (RetrieveMessages_terminates (demo_env serves_truncated_pointer)).
  split; [| by repeat split].
  intros url ts. cbn [hashmap_fetch demo_env]. unfold serves_truncated_pointer.
  by destruct (String.eqb url _).
Defined.

(** ** session.go: a pointer that is too short *)

Lemma RetrieveMessages_loop_two_panic E S chatID self a peers w w' msg :
  a ∈ peers -> (forall k, k ∈ peers -> k = self \/ k = a) ->
  RetrieveMessages_body E S chatID self a w = (Panic msg, w') ->
  RetrieveMessages_loop E S chatID self peers w = (Panic msg, w').
Proof.
  intros Ha Hall Hbody. revert Ha Hall.
  induction peers as [| k peers IH]; intros Ha Hall; [by apply elem_of_nil in Ha |].
  destruct (decide (k = a)) as [-> | Hne].
  - cbn [RetrieveMessages_loop]. unfold bind, try. by rewrite Hbody.
  - assert (k = self) as -> by (destruct (Hall k) as [-> | ->]; [by left | done | done]).
    rewrite (RetrieveMessages_loop_continues E S chatID self self _ w w
               (RetrieveMessages_body_self E S chatID self w)).
    apply IH.
    + by apply elem_of_cons in Ha as [-> | Ha].
    + intros y Hy. apply Hall. by right.
Qed.

(** X25.  A peer whose rendezvous serves fewer than 24 bytes crashes the
    retrieval of the other: in a chat of two, with the chat and the peer's
    lookup table in the local store, [RetrieveMessages] panics on the slice
    of the pointer instead of skipping the peer or returning an error. *)
Theorem RetrieveMessages_short_pointer_panics (E : Env) (S : Session)
  (chatID a : string) (w : World) (c : chat) (p : chatPeer) (l : lookup)
  (rBytes : list byte) (r' : storage) :
  (forall ks, range_order E ks ≡ₚ ks) ->
  kv w !! chat_key S chatID = Some (StoredChat c) ->
  a <> PeerID c ->
  (forall k, is_Some (Peers c !! k) -> k = PeerID c \/ k = a) ->
  Peers c !! a = Some p ->
  kv w !! lookup_key S chatID a = Some (StoredLookup l) ->
  kv_Set_error E (lookup_key S chatID a) = None ->
  storage_Get E (Rendezvous (Strategy p)) "" = (Ok rBytes, r') ->
  len rBytes < 24 ->
  fst (RetrieveMessages E S chatID w) = Panic "slice bounds out of range".
Proof.
  intros Hperm Hc Hself Hpeers Hp Hl Hset Hget Hlen.
  assert (Hbody : RetrieveMessages_body E S chatID (PeerID c) a w
                  = (Panic "slice bounds out of range",
                     {| kv := kv w; draws := draws w;
                        trace := EvRendezvousGet a :: trace w |})).
  { assert (Hgrh : getRendezvousHash E S chatID a w
                    = (Panic "slice bounds out of range",
                       {| kv := kv w; draws := draws w;
                          trace := EvRendezvousGet a :: trace w |})).
    { unfold getRendezvousHash.
      rewrite (try_Ok _ _ _ _ _ _ (getChat_Ok S chatID w c Hc)).
      rewrite (try_Ok _ _ _ _ _ _ (getLookup_Ok S chatID w a l Hl)).
      rewrite (try_Ok _ _ _ _ _ _ (peer_Rendezvous_Get_Ok E c a p w _ r' Hp Hget)).
      cbn [fst snd]. unfold bind, try, lift, go_slice.
      change lookupHashLength with 24.
      destruct (Z.leb_spec 24 (len rBytes)); [lia |]. by rewrite andb_false_r. }
    unfold RetrieveMessages_body.
    destruct (String.eqb_spec a (PeerID c)) as [| _]; [done |].
    unfold bind at 1, try at 1. by rewrite Hgrh. }
  assert (Hloop : RetrieveMessages_loop E S chatID (PeerID c)
                    (range_order E (map fst (map_to_list (Peers c)))) w
                  = (Panic "slice bounds out of range",
                     {| kv := kv w; draws := draws w;
                        trace := EvRendezvousGet a :: trace w |})).
  { apply (RetrieveMessages_loop_two_panic E S chatID (PeerID c) a); [| | exact Hbody].
    - rewrite Hperm. apply list_elem_of_fmap. exists (a, p).
      split; [done | by apply elem_of_map_to_list].
    - intros k. rewrite Hperm. intros ([k' v] & -> & Hin)%list_elem_of_fmap.
      apply elem_of_map_to_list in Hin. apply Hpeers. by eexists. }
  unfold RetrieveMessages.
  rewrite (bind_Ok _ _ _ _ _ (getChat_Ok S chatID w c Hc)).
  unfold bind at 1, try. by rewrite Hloop.
Qed.


Lemma RetrieveMessages_short_pointer_panics_witness :
  fst (RetrieveMessages (demo_env serves_short_pointer) demo_session "c" (demo_world ∅))
  = Panic "slice bounds out of range".
Proof.
  apply (RetrieveMessages_short_pointer_panics (demo_env serves_short_pointer)
           demo_session "c" "bob" (demo_world ∅) demo_chat
           (demo_peer "bob" "https://r.example/bob") demo_lookup [x01; x02; x03]
           (snd (storage_Get (demo_env serves_short_pointer)
                   (Rendezvous (Strategy (demo_peer "bob" "https://r.example/bob"))) ""))).
  - intros ks. reflexivity.
  - apply lookup_insert_eq.
  - discriminate.
  - intros k [v Hk]. unfold demo_chat in Hk. cbn [Peers PeerID] in *.
    destruct (decide (k = "bob"%string)) as [-> | Hbob]; [by right |].
    rewrite lookup_insert_ne in Hk by done.
    destruct (decide (k = "me"%string)) as [-> | Hme]; [by left |].
    rewrite lookup_insert_ne in Hk by done. by rewrite lookup_empty in Hk.
  - apply lookup_insert_eq.
  - vm_compute. reflexivity.
  - reflexivity.
  - vm_compute. reflexivity.
  - unfold len. simpl. lia.
Defined.

(** ** session.go: a send that fails half way *)

Lemma Encrypt_Ok E (s : SecretBoxCipher) data key d :
  secretbox_laws E -> 0 < ChunkSize s -> len key = 32 ->
  exists ct d', Encrypt E s data key d = (Ok ct, d').
Proof.
  intros Hlaws Hpos Hk. unfold Encrypt. rewrite Hk. cbn [negb Z.eqb Pos.eqb]. cbv zeta.
  destruct (Encrypt_loop_spec E Hlaws s Hpos data (copy_into 32 key)
              (length data) 0 [] d) as (out & d' & Henc & _);
    [lia | unfold len; lia |].
  by exists ([] ++ out), d'.
Qed.

Lemma peer_Encrypt_Ok E p data key w ct d' :
  Encrypt E (Cipher (Strategy p)) data key (draws w) = (Ok ct, d') ->
  peer_Encrypt E (Some p) data key w
  = (Ok ct, {| kv := kv w; draws := d'; trace := trace w |}).
Proof. intros H. unfold peer_Encrypt. by rewrite H. Qed.

Lemma emit_Ok e w :
  emit e w = (Ok tt, {| kv := kv w; draws := draws w; trace := e :: trace w |}).
Proof. reflexivity. Qed.

Lemma bind_Err {A B} (m : M A) (k : A -> M B) w e w1 :
  m w = (Err e, w1) -> bind m k w = (Err e, w1).
Proof. intros H. unfold bind, try. by rewrite H. Qed.

(** X26.  [SendMessage] is not atomic.  When the write of the blob fails,
    it returns the error of the write, but the entry of the lookup table it
    had drawn is gone from the stored table.  When the blob is written and
    the write of the pointer fails, it returns that error, two entries are
    gone, and the stored chat already names the blob as the last message
    sent, while the log has no entry for it. *)
Theorem SendMessage_not_atomic (E : Env) (S : Session) (chatID : string)
  (b : list byte) (w : World) (c : chat) (p : chatPeer) (l : lookup)
  (cl : ChatLog) (d0 : chatData) (dataBytes : list byte) (e : string) :
  (forall ks, range_order E ks ≡ₚ ks) ->
  secretbox_laws E ->
  (forall k, kv_Set_error E k = None) ->
  len b <= maxMessageSize ->
  kv w !! chat_key S chatID = Some (StoredChat c) ->
  Peers c !! PeerID c = Some p ->
  0 < ChunkSize (Cipher (Strategy p)) ->
  kv w !! lookup_key S chatID (PeerID c) = Some (StoredLookup l) ->
  kv w !! chatlog_key S chatID = Some (StoredChatLog cl) ->
  (forall t k, l !! t = Some k ->
     len k = 32 /\ exists tb, base64_DecodeString E t = Ok tb) ->
  json_Unmarshal E b = Ok d0 ->
  json_Marshal E {| cd_Parent := LastSent c; cd_Timestamp := time_Now_UnixNano E;
                    cd_Media := cd_Media d0; cd_Message := cd_Message d0;
                    cd_TTL := chat_TTL c |} = Ok dataBytes ->
  (l <> ∅ ->
   (forall payload, storage_Set E (Storage (Strategy p)) "" payload = Err e) ->
   exists t k payload w',
     SendMessage E S chatID b w = (Err e, w') /\
     l !! t = Some k /\
     trace w' = EvStorageSet (PeerID c) payload :: trace w /\
     kv w' = <[lookup_key S chatID (PeerID c) := StoredLookup (delete t l)]> (kv w)) /\
  (forall hash,
   (1 < size l)%nat ->
   (forall payload, storage_Set E (Storage (Strategy p)) "" payload = Ok hash) ->
   (forall payload, storage_Set E (Rendezvous (Strategy p)) "" payload = Err e) ->
   exists t1 k1 t2 k2 w',
     SendMessage E S chatID b w = (Err e, w') /\
     l !! t1 = Some k1 /\ l !! t2 = Some k2 /\ t1 <> t2 /\
     kv w' !! lookup_key S chatID (PeerID c)
       = Some (StoredLookup (delete t2 (delete t1 l))) /\
     kv w' !! chat_key S chatID
       = Some (StoredChat (exported_chat (set_LastSent c hash))) /\
     kv w' !! chatlog_key S chatID = Some (StoredChatLog cl)).
Proof.
  intros Hperm Hlaws Hstore Hlen Hc Hp Hpos Hl Hcl Htable Hd Hm.
  split.
  - intros Hne Hfail.
    destruct (popRandom_Ok E l w Hne (Hperm _)) as (t & k & Hpop & Hk).
    destruct (Htable t k Hk) as (Hklen & tb & Htb).
    destruct (Encrypt_Ok E (Cipher (Strategy p)) dataBytes k (Datatypes.S (draws w))
                Hlaws Hpos Hklen) as (ct & d' & Henc).
    exists t, k, (tb ++ ct). eexists. split; [| split; [exact Hk | split]].
    + unfold SendMessage.
      destruct (Z.gtb_spec (len b) maxMessageSize); [lia |].
      rewrite (bind_Ok _ _ _ _ _ (getChat_Ok S chatID w c Hc)).
      rewrite (bind_lift_Ok _ _ _ _ Hd).
      rewrite (try_lift_Ok _ _ _ _ _ Hm).
      rewrite (bind_Ok _ _ _ _ _ (getLookup_Ok S chatID w _ l Hl)).
      rewrite (bind_Ok _ _ _ _ _ Hpop).
      unfold setLookup. rewrite (bind_Ok _ _ _ _ _ (Session_set_Ok E Hstore _ _ _)).
      rewrite (bind_lift_Ok _ _ _ _ Htb).
      rewrite Hp.
      rewrite (bind_Ok _ _ _ _ _ (peer_Encrypt_Ok E p _ _ {| kv := _; draws := Datatypes.S (draws w); trace := _ |} ct d' Henc)).
      rewrite (bind_Ok _ _ _ _ _ (emit_Ok _ _)).
      apply bind_Err. unfold lift. by rewrite Hfail.
    + reflexivity.
    + reflexivity.
  - intros hash Hsize Hblob Hfail.
    assert (Hne : l <> ∅).
    { intros ->. rewrite map_size_empty in Hsize. lia. }
    destruct (popRandom_Ok E l w Hne (Hperm _)) as (t1 & k1 & Hpop1 & Hk1).
    destruct (Htable t1 k1 Hk1) as (Hklen1 & tb1 & Htb1).
    destruct (Encrypt_Ok E (Cipher (Strategy p)) dataBytes k1 (Datatypes.S (draws w))
                Hlaws Hpos Hklen1) as (ct1 & d1 & Henc1).
    assert (Hne2 : delete t1 l <> ∅).
    { intros Hz. apply (f_equal size) in Hz.
      rewrite map_size_delete, Hk1, map_size_empty in Hz. lia. }
    set (w1 := {| kv := <[chat_key S chatID :=
                            StoredChat (exported_chat (set_LastSent c hash))]>
                        (<[lookup_key S chatID (PeerID c) := StoredLookup (delete t1 l)]>
                           (kv w));
                  draws := d1;
                  trace := EvStorageSet (PeerID c) (tb1 ++ ct1) :: trace w |}).
    destruct (popRandom_Ok E (delete t1 l) w1 Hne2 (Hperm _)) as (t2 & k2 & Hpop2 & Hk2).
    assert (Hne12 : t1 <> t2) by (intros <-; by rewrite lookup_delete_eq in Hk2).
    rewrite lookup_delete_ne in Hk2 by done.
    destruct (Htable t2 k2 Hk2) as (Hklen2 & tb2 & Htb2).
    destruct (Encrypt_Ok E (Cipher (Strategy p)) (list_byte_of_string hash) k2
                (Datatypes.S d1) Hlaws Hpos Hklen2) as (ct2 & d2 & Henc2).
    exists t1, k1, t2, k2. eexists.
    split; [| split; [exact Hk1 | split; [exact Hk2 | split; [exact Hne12 |]]]].
    + unfold SendMessage.
      destruct (Z.gtb_spec (len b) maxMessageSize); [lia |].
      rewrite (bind_Ok _ _ _ _ _ (getChat_Ok S chatID w c Hc)).
      rewrite (bind_lift_Ok _ _ _ _ Hd).
      rewrite (try_lift_Ok _ _ _ _ _ Hm).
      rewrite (bind_Ok _ _ _ _ _ (getLookup_Ok S chatID w _ l Hl)).
      rewrite (bind_Ok _ _ _ _ _ Hpop1).
      unfold setLookup. rewrite (bind_Ok _ _ _ _ _ (Session_set_Ok E Hstore _ _ _)).
      rewrite (bind_lift_Ok _ _ _ _ Htb1).
      rewrite Hp.
      rewrite (bind_Ok _ _ _ _ _ (peer_Encrypt_Ok E p _ _ {| kv := _; draws := Datatypes.S (draws w); trace := _ |} ct1 d1 Henc1)).
      rewrite (bind_Ok _ _ _ _ _ (emit_Ok _ _)).
      rewrite (bind_lift_Ok _ _ _ _ (Hblob _)).
      unfold setChat. rewrite (bind_Ok _ _ _ _ _ (Session_set_Ok E Hstore _ _ _)).
      cbn [kv draws trace emit snd].
      fold w1. rewrite (bind_Ok _ _ _ _ _ Hpop2).
      cbn [PeerID set_LastSent].
      rewrite (bind_Ok _ _ _ _ _ (Session_set_Ok E Hstore _ _ _)).
      rewrite (bind_lift_Ok _ _ _ _ Htb2).
      rewrite (bind_Ok _ _ _ _ _ (peer_Encrypt_Ok E p _ _ {| kv := _; draws := Datatypes.S d1; trace := _ |} ct2 d2 Henc2)).
      rewrite (bind_Ok _ _ _ _ _ (emit_Ok _ _)).
      apply bind_Err. unfold lift. by rewrite Hfail.
    + cbn [kv emit snd]. split; [by rewrite lookup_insert_eq |]. split.
      * rewrite lookup_insert_ne
          by (intros Heq; by apply (chat_key_ne_lookup_key S chatID (PeerID c))).
        unfold w1. cbn [kv]. by rewrite lookup_insert_eq.
      * rewrite lookup_insert_ne by apply not_eq_sym, chatlog_key_ne_lookup_key.
        unfold w1. cbn [kv].
        rewrite lookup_insert_ne by apply chat_key_ne_chatlog_key.
        rewrite lookup_insert_ne by apply not_eq_sym, chatlog_key_ne_lookup_key.
        exact Hcl.
Qed.


Lemma SendMessage_not_atomic_witness :
  exists t k payload w',
    SendMessage (online_env offline no_blob) demo_session "c" [x68; x69] stranded_world
    = (Err "no write nodes configured", w') /\
    sender_lookup !! t = Some k /\
    trace w' = EvStorageSet "me" payload :: [] /\
    kv w' = <[lookup_key demo_session "c" "me" := StoredLookup (delete t sender_lookup)]>
            (kv stranded_world).
Proof.
  apply (SendMessage_not_atomic (online_env offline no_blob) demo_session "c" [x68; x69]
           stranded_world stranded_chat (receiver_peer "me") sender_lookup ∅
           {| cd_Parent := EmptyString; cd_Timestamp := 1500000000000000000;
              cd_Media := []; cd_Message := "hi"; cd_TTL := defaultChatTTL |}
           [x68; x69] "no write nodes configured").
  - intros ks. reflexivity.
  - apply online_secretbox_laws.
  - reflexivity.
  - unfold len, maxMessageSize. simpl. lia.
  - apply lookup_insert_eq.
  - apply lookup_insert_eq.
  - reflexivity.
  - vm_compute. reflexivity.
  - vm_compute. reflexivity.
  - intros t k. unfold sender_lookup.
    destruct (decide (t = sender_tag x01)) as [-> | H1].
    { rewrite lookup_insert_eq. intros [= <-]. split; [reflexivity | by eexists]. }
    rewrite lookup_insert_ne by done.
    destruct (decide (t = sender_tag x02)) as [-> | H2].
    { rewrite lookup_insert_eq. intros [= <-]. split; [reflexivity | by eexists]. }
    rewrite lookup_insert_ne by done. by rewrite lookup_empty.
  - reflexivity.
  - reflexivity.
  - intros H. apply (f_equal (fun m => m !! sender_tag x01)) in H.
    unfold sender_lookup in H. by rewrite lookup_insert_eq, lookup_empty in H.
  - intros payload. reflexivity.
Defined.

(** ** session.go: a pointer that was used before *)



